(** * Evolution: a shallow embedding of the simulation engine of main.js

    The development follows the order of the source file: world settings
    and data structures, world generation, species and creature
    generation, the mutation system, diet and food, the per-creature tick
    with attack and reproduction, and the main simulation loop.

    Conventions of the embedding.

    - A JavaScript number that holds a trait, an energy or a random draw is
      a rational [Q]: sums, products and comparisons are exact, the rounding
      of binary64 arithmetic is idealised.  Tile coordinates and ages are
      integers in the program and are [Z] here.
    - The year counter is the one number the program tests for exact
      equality after repeated additions ([year % 5 === 0] after
      [year += 0.01]); it is kept as a binary64 [float], with the kernel's
      IEEE 754 addition, so that the test is decided as the program does.
    - [Math.random()] is an oracle [rnd : nat -> Q] read through a cursor;
      a function that draws takes the cursor and returns the next one.
    - An object of the creature array is identified with its index: the
      array is a [list Creature], [other === creature] is equality of
      indices, and a mutation of an object is an update at its index.
    - [selectedCreature] is the index of the selected creature, if any.
      The canvas and the text of the page are outside the embedding; of
      the click handler the embedding keeps the choice of the creature. *)

From Stdlib Require Import Strings.String.
From Stdlib Require Import ZArith QArith Qround Qminmax Lqa Lia List Bool.
From Stdlib Require Import Floats.PrimFloat Floats.SpecFloat Floats.FloatOps.
From stdpp Require Import base list.
Import ListNotations.

Local Open Scope Q_scope.

(** ** JavaScript numbers *)

(** [a < b] and [a <= b] on numbers, as booleans. *)
Definition Qltb (a b : Q) : bool := if Qlt_le_dec a b then true else false.
Definition Qleb (a b : Q) : bool := if Qlt_le_dec b a then false else true.

(** [Math.round]: the nearest integer, halves towards plus infinity. *)
Definition Math_round (v : Q) : Z := Qfloor (v + 0.5).

(** [a % b] on numbers: the remainder has the sign of the dividend and is
    [NaN] (here [None]) when the divisor is zero. *)
Definition Qtrunc (v : Q) : Z := if Qlt_le_dec v 0 then Qceiling v else Qfloor v.
Definition js_rem (a b : Q) : option Q :=
  if Qeq_bool b 0 then None else Some (a - b * inject_Z (Qtrunc (a / b))).

(** [a % b !== 0]: true for [NaN] as well. *)
Definition rem_nonzero (a b : Q) : bool :=
  match js_rem a b with
  | None => true
  | Some r => negb (Qeq_bool r 0)
  end.

(** ** World settings and data structures *)

Inductive Biome := water | desert | snowy | woods | swamp | fields.

Definition BIOMES : list Biome := [water; desert; snowy; woods; swamp; fields].

#[global] Instance Biome_eq_dec : EqDecision Biome.
Proof. solve_decision. Defined.

Inductive MovementMode := terrestrial | aquatic.
Inductive DietType := herbivore | carnivore | omnivore.
Inductive Sex := M | F.

#[global] Instance MovementMode_eq_dec : EqDecision MovementMode.
Proof. solve_decision. Defined.
#[global] Instance DietType_eq_dec : EqDecision DietType.
Proof. solve_decision. Defined.
#[global] Instance Sex_eq_dec : EqDecision Sex.
Proof. solve_decision. Defined.

(** [class Species]; the colour only matters to the renderer. *)
Record Species := mkSpecies {
  id : Z;
  s_movementMode : MovementMode;
  s_dietType : DietType;
  s_isCannibal : bool
}.

(** The keys of a trait object, in the order [createBaselineTraits] lists
    them: forty-four numbers and four booleans. *)
Inductive NumKey :=
  | size | max_speed | accel | turn_speed | armor | attack_damage
  | venom_power | stomach_capacity | constriction_power | ram_force
  | tail_power | bite_force
  | vision_radius | fov | detection_chance | smell_range | night_vision
  | metabolism_rate | food_efficiency | temp_tolerance | toxin_resistance
  | disease_chance | slime_thickness | shell_hardness
  | offspring_per_cycle | repro_cooldown | max_age | care_level
  | aggression | caution | curiosity | grouping | territorial | risk_taking
  | camo | crypsis_level | mimicry_level | false_eye_spots
  | burrow_speed | spine_damage | repellent_strength | irritant_level
  | startle_power | regen_rate.

Inductive BoolKey := has_venom | can_hibernate | can_burrow | can_autotomize.

#[global] Instance NumKey_eq_dec : EqDecision NumKey.
Proof. solve_decision. Defined.

#[global] Instance BoolKey_eq_dec : EqDecision BoolKey.
Proof. solve_decision. Defined.

(** A trait object: every key always holds a value of its own type, so the
    object is a pair of total maps.  [t.key] is [num t key] or [flag t key],
    and [t[key] = v] is [set_num] or [set_flag]. *)
Record Traits := mkTraits {
  num : NumKey -> Q;
  flag : BoolKey -> bool
}.

Definition set_num (key : NumKey) (v : Q) (t : Traits) : Traits :=
  mkTraits (fun k => if decide (k = key) then v else num t k) (flag t).

Definition set_flag (key : BoolKey) (b : bool) (t : Traits) : Traits :=
  mkTraits (num t) (fun k => if decide (k = key) then b else flag t k).

(** [class Creature].  The species' fields are copied into the creature by
    the constructor; [age] starts at 0, [energy] at 50 and [alive] at true. *)
Record Creature := mkCreature {
  speciesId : Z;
  movementMode : MovementMode;
  dietType : DietType;
  isCannibal : bool;
  x : Z;
  y : Z;
  sex : Sex;
  age : Z;
  energy : Q;
  traits : Traits;
  alive : bool
}.

Definition new_Creature (species : Species) (x0 y0 : Z) (sx : Sex) (t : Traits)
  : Creature :=
  mkCreature (id species) (s_movementMode species) (s_dietType species)
             (s_isCannibal species) x0 y0 sx 0 50 t true.

Definition set_energy (e : Q) (c : Creature) : Creature :=
  mkCreature (speciesId c) (movementMode c) (dietType c) (isCannibal c)
             (x c) (y c) (sex c) (age c) e (traits c) (alive c).

Definition set_alive (b : bool) (c : Creature) : Creature :=
  mkCreature (speciesId c) (movementMode c) (dietType c) (isCannibal c)
             (x c) (y c) (sex c) (age c) (energy c) (traits c) b.

Definition set_age (a : Z) (c : Creature) : Creature :=
  mkCreature (speciesId c) (movementMode c) (dietType c) (isCannibal c)
             (x c) (y c) (sex c) a (energy c) (traits c) (alive c).

Definition set_pos (x0 y0 : Z) (c : Creature) : Creature :=
  mkCreature (speciesId c) (movementMode c) (dietType c) (isCannibal c)
             x0 y0 (sex c) (age c) (energy c) (traits c) (alive c).

(** [createBaselineTraits] *)
Definition createBaselineTraits : Traits :=
  mkTraits
    (fun k =>
       match k with
       | size => 1.0 | max_speed => 1.0 | accel => 0.1 | turn_speed => 0.2
       | armor => 0 | attack_damage => 1 | venom_power => 0
       | stomach_capacity => 60 | constriction_power => 0 | ram_force => 0
       | tail_power => 0 | bite_force => 1
       | vision_radius => 5 | fov => 180 | detection_chance => 0.7
       | smell_range => 3 | night_vision => 0.0
       | metabolism_rate => 0.03 | food_efficiency => 1.0
       | temp_tolerance => 0.0 | toxin_resistance => 0.0
       | disease_chance => 0.0 | slime_thickness => 0.0
       | shell_hardness => 0.0
       | offspring_per_cycle => 1 | repro_cooldown => 200 | max_age => 2000
       | care_level => 0
       | aggression => 0.3 | caution => 0.5 | curiosity => 0.5
       | grouping => 0.2 | territorial => 0.2 | risk_taking => 0.3
       | camo => 0.0 | crypsis_level => 0.0 | mimicry_level => 0.0
       | false_eye_spots => 0.0
       | burrow_speed => 0.0 | spine_damage => 0.0
       | repellent_strength => 0.0 | irritant_level => 0.0
       | startle_power => 0.0
       | regen_rate => 0.0
       end)
    (fun _ => false).

(** ** Random draws *)

(** A computation that draws from the oracle: it reads the cursor and
    returns its value with the next cursor, or [None] when the program
    would leave the values the embedding gives a meaning to (an index
    outside an array, a loop that is out of fuel). *)
Definition Rand (A : Type) : Type := nat -> option (A * nat).

Definition ret {A} (a : A) : Rand A := fun k => Some (a, k).
Definition bind {A B} (m : Rand A) (f : A -> Rand B) : Rand B :=
  fun k => match m k with
           | Some (a, k') => f a k'
           | None => None
           end.
Definition fail {A} : Rand A := fun _ => None.

Notation "'let*' v ':=' m 'in' f" := (bind m (fun v => f))
  (at level 10, v pattern, m at level 100, f at level 200).

Section Engine.

(** [Math.random], and the tile dimensions of the canvas. *)
Variable rnd : nat -> Q.
Variable WORLD_WIDTH WORLD_HEIGHT : Z.

Definition unit_draws : Prop := forall k : nat, 0 <= rnd k /\ rnd k < 1.

Definition random : Rand Q := fun k => Some (rnd k, S k).

(** [Math.floor(Math.random() * n)] *)
Definition randomInt (n : Z) : Rand Z :=
  let* r := random in ret (Qfloor (r * inject_Z n)).

(** [arr[i]] for an integer [i]; outside the array the program would read
    [undefined]. *)
Definition index {A} (arr : list A) (i : Z) : option A :=
  if (i <? 0)%Z then None else arr !! Z.to_nat i.

(** [randomChoice] *)
Definition randomChoice {A} (arr : list A) : Rand A :=
  let* i := randomInt (Z.of_nat (length arr)) in
  match index arr i with
  | Some a => ret a
  | None => fail
  end.

(** ** World generation *)

(** [chosen.add(b)] on a [Set]: insertion order, no duplicates. *)
Definition Set_add (b : Biome) (chosen : list Biome) : list Biome :=
  if decide (b ∈ chosen) then chosen else chosen ++ [b].

(** The [while (chosen.size < n)] loop of [generateBiomes]; every turn
    draws once, [fuel] bounds the number of turns. *)
Fixpoint generateBiomes_loop (fuel : nat) (n : Z) (chosen : list Biome)
  : Rand (list Biome) :=
  if (Z.of_nat (length chosen) <? n)%Z then
    match fuel with
    | O => fail
    | S fuel' =>
        let* b := randomChoice BIOMES in
        generateBiomes_loop fuel' n (Set_add b chosen)
    end
  else ret chosen.

(** [generateBiomes] *)
Definition generateBiomes (fuel : nat) : Rand (list Biome) :=
  let* k := randomInt 3 in
  generateBiomes_loop fuel (2 + k)%Z [water].

Record Seed := mkSeed { seed_x : Z; seed_y : Z; biome : Biome }.

(** The body of the seed loop of [generateWorld] for index [i]. *)
Definition generateSeed (allowedBiomes : list Biome) (i : nat) : Rand Seed :=
  let* sx := randomInt WORLD_WIDTH in
  let* sy := randomInt WORLD_HEIGHT in
  let* b :=
    match i with
    | O => ret water
    | S _ =>
        let* b := randomChoice allowedBiomes in
        if decide (b = water) then
          let* r := random in
          if Qltb r 0.6 && (1 <? Z.of_nat (length allowedBiomes))%Z then
            randomChoice (List.filter (fun b' => negb (bool_decide (b' = water)))
                                      allowedBiomes)
          else ret b
        else ret b
    end in
  ret (mkSeed sx sy b).

(** [for (let i = 0; i < numSeeds; i++)]: [n] seeds are still to be drawn,
    the next one has index [i]. *)
Fixpoint generateSeeds (allowedBiomes : list Biome) (n i : nat)
  : Rand (list Seed) :=
  match n with
  | O => ret []
  | S n' =>
      let* s := generateSeed allowedBiomes i in
      let* rest := generateSeeds allowedBiomes n' (S i) in
      ret (s :: rest)
  end.

(** The scan for the nearest seed of tile [(tx, ty)]: [bestDist2] starts at
    [Infinity] ([None]), and only a strictly smaller distance replaces the
    best seed, so that the first seed at minimal distance wins. *)
Definition bestSeed_step (tx ty : Z) (acc : option Seed * option Z) (s : Seed)
  : option Seed * option Z :=
  let dx := (tx - seed_x s)%Z in
  let dy := (ty - seed_y s)%Z in
  let d2 := (dx * dx + dy * dy)%Z in
  match snd acc with
  | None => (Some s, Some d2)
  | Some best => if (d2 <? best)%Z then (Some s, Some d2) else acc
  end.

Definition bestSeed (seeds : list Seed) (tx ty : Z) : option Seed :=
  fst (fold_left (bestSeed_step tx ty) seeds (None, None)).

(** The tiles [0 .. n-1] of a [for (let v = 0; v < n; v++)] loop. *)
Definition upto (n : Z) : list Z := seqZ 0 n.

(** The grid loops of [generateWorld]: [row.push(bestSeed.biome)] fails on
    a null [bestSeed]. *)
Definition generateRow (seeds : list Seed) (ty : Z) : option (list Biome) :=
  mapM (fun tx => biome <$> bestSeed seeds tx ty) (upto WORLD_WIDTH).

Definition generateGrid (seeds : list Seed) : option (list (list Biome)) :=
  mapM (generateRow seeds) (upto WORLD_HEIGHT).

(** [generateWorld], from the palette on. *)
Definition generateWorldFrom (allowedBiomes : list Biome)
  : Rand (list (list Biome)) :=
  let numSeeds := (length allowedBiomes * 3)%nat in
  let* seeds := generateSeeds allowedBiomes numSeeds 0 in
  match generateGrid seeds with
  | Some grid => ret grid
  | None => fail
  end.

(** [generateWorld]; the palette is returned with the grid so that the two
    can be related. *)
Definition generateWorld (fuel : nat)
  : Rand (list Biome * list (list Biome)) :=
  let* allowedBiomes := generateBiomes fuel in
  let* grid := generateWorldFrom allowedBiomes in
  ret (allowedBiomes, grid).

(** ** Species generation *)

(** The body of the loop of [generateSpeciesList] for index [i]. *)
Definition generateSpecies (i : Z) : Rand Species :=
  let* mode := randomChoice [terrestrial; aquatic] in
  let* diet := randomChoice [herbivore; carnivore; omnivore] in
  let* r := random in
  ret (mkSpecies i mode diet (Qltb r 0.3)).

Fixpoint generateSpecies_loop (n : nat) (i : Z) : Rand (list Species) :=
  match n with
  | O => ret []
  | S n' =>
      let* s := generateSpecies i in
      let* rest := generateSpecies_loop n' (i + 1)%Z in
      ret (s :: rest)
  end.

(** [generateSpeciesList] *)
Definition generateSpeciesList : Rand (list Species) :=
  generateSpecies_loop 10 0%Z.

(** ** Mutation system *)

Definition MUTABLE_NUMERIC_TRAITS : list NumKey :=
  [ size; max_speed; armor; attack_damage; venom_power;
    vision_radius; food_efficiency; temp_tolerance;
    toxin_resistance; offspring_per_cycle; repro_cooldown;
    max_age; aggression; caution; curiosity; grouping;
    territorial; risk_taking; camo; crypsis_level;
    mimicry_level; false_eye_spots; burrow_speed;
    spine_damage; repellent_strength; irritant_level;
    startle_power; regen_rate ].

Definition MUTABLE_BOOLEAN_TRAITS : list BoolKey :=
  [ has_venom; can_hibernate; can_burrow; can_autotomize ].

(** The clamping lines of [applyMutation], one per clamped key. *)
Definition clamp (key : NumKey) (newValue : Q) : Q :=
  match key with
  | size => Qmax 0.3 (Qmin newValue 3)
  | max_speed => Qmax 0.2 (Qmin newValue 4)
  | armor => Qmax 0 (Qmin newValue 5)
  | attack_damage => Qmax 0.1 newValue
  | offspring_per_cycle => Qmax 1 (Qmin newValue 5)
  | repro_cooldown => Qmax 80 (Qmin newValue 500)
  | vision_radius => Qmax 3 (Qmin newValue 20)
  | _ => newValue
  end.

(** One turn of the numeric loop of [applyMutation].  [t[key] || 0] is
    [t[key]]: the key always holds a number, and zero is the only falsy
    one. *)
Definition mutateNumeric (t : Traits) : Rand Traits :=
  let* key := randomChoice MUTABLE_NUMERIC_TRAITS in
  let base := num t key in
  let* r := random in
  let delta := r * 0.4 - 0.2 in
  let newValue := clamp key (base + delta) in
  ret (set_num key newValue t).

Definition b2q (b : bool) (v : Q) : Q := if b then v else 0.

Definition complexity (t : Traits) : Q :=
  num t size +
  num t armor * 0.5 +
  num t attack_damage * 0.3 +
  num t max_speed * 0.3 +
  num t vision_radius * 0.1 +
  b2q (flag t has_venom) 2 +
  num t regen_rate * 2 +
  b2q (flag t can_burrow) 1 +
  b2q (flag t can_hibernate) 0.5.

(** [applyMutation]; [cloneTraits] is the identity on a value. *)
Definition applyMutation (traits0 : Traits) : Rand Traits :=
  let t := traits0 in
  let* r := random in
  let* t :=
    if Qltb r 0.05 then
      let* key := randomChoice MUTABLE_BOOLEAN_TRAITS in
      ret (set_flag key (negb (flag t key)) t)
    else ret t in
  let* r2 := random in
  let* t := mutateNumeric t in
  let* t := if Qltb r2 0.3 then mutateNumeric t else ret t in
  ret (set_num metabolism_rate (0.02 + complexity t * 0.003) t).

(** [mixTraits]: the keys are visited in the order of the object, a
    numeric key takes the mean and each of the four boolean keys draws
    once. *)
Definition mixTraits (a b : Traits) : Rand Traits :=
  let* r1 := random in
  let* r2 := random in
  let* r3 := random in
  let* r4 := random in
  ret (mkTraits
         (fun k => (num a k + num b k) / 2)
         (fun k =>
            let r := match k with
                     | has_venom => r1
                     | can_hibernate => r2
                     | can_burrow => r3
                     | can_autotomize => r4
                     end in
            if Qltb r 0.5 then flag a k else flag b k)).

(** ** Diet and food *)

(** [biomeFoodValue] *)
Definition biomeFoodValue (b : Biome) (diet : DietType) : Q :=
  match diet with
  | herbivore =>
      if bool_decide (b = woods) || bool_decide (b = fields)
         || bool_decide (b = swamp) then 1.0 else 0.2
  | omnivore =>
      if bool_decide (b = woods) || bool_decide (b = fields)
         || bool_decide (b = swamp) then 0.7 else 0.3
  | carnivore => 0.1
  end.

(** ** Creature generation *)

Section Running.

(** The grid and the species list of the running simulation.  Both are
    assigned by [initWorld] only and never change between two resets. *)
Variable world : list (list Biome).
Variable speciesList : list Species.

(** [world[y][x]].  The grid that [generateWorld] builds has
    [WORLD_HEIGHT] rows of [WORLD_WIDTH] tiles (see
    [generated_world_uses_palette]), and [getBiome] and
    [findRandomTileForSpecies] only read inside these bounds.  On a grid
    that is too small the program would read [undefined] in a row, which
    every comparison of the engine treats as it treats [desert], or throw
    on a missing row; the embedding answers [desert] in both cases. *)
Definition world_at (tx ty : Z) : Biome :=
  match world !! Z.to_nat ty with
  | Some row => match row !! Z.to_nat tx with
                | Some b => b
                | None => desert
                end
  | None => desert
  end.

(** The attempts of [findRandomTileForSpecies], then its fallback. *)
Fixpoint findRandomTile_loop (attempts : nat) (species : Species)
  : Rand (Z * Z) :=
  match attempts with
  | O =>
      let* fx := randomInt WORLD_WIDTH in
      let* fy := randomInt WORLD_HEIGHT in
      ret (fx, fy)
  | S attempts' =>
      let* tx := randomInt WORLD_WIDTH in
      let* ty := randomInt WORLD_HEIGHT in
      let b := world_at tx ty in
      match s_movementMode species with
      | aquatic =>
          if bool_decide (b = water) then ret (tx, ty)
          else findRandomTile_loop attempts' species
      | terrestrial =>
          if negb (bool_decide (b = water)) then ret (tx, ty)
          else findRandomTile_loop attempts' species
      end
  end.

Definition findRandomTileForSpecies (species : Species) : Rand (Z * Z) :=
  findRandomTile_loop 1000 species.

(** One individual of [spawnInitialCreatures]. *)
Definition spawnIndividual (species : Species) : Rand Creature :=
  let* pos := findRandomTileForSpecies species in
  let* r := random in
  let sx := if Qltb r 0.5 then M else F in
  let t := createBaselineTraits in
  let* r1 := random in
  let t := set_num max_speed (num t max_speed * (0.8 + r1 * 0.4)) t in
  let* r2 := random in
  let t := set_num attack_damage (num t attack_damage * (0.8 + r2 * 0.4)) t in
  let* r3 := random in
  let t := set_num armor (num t armor * (0.8 + r3 * 0.4)) t in
  ret (new_Creature species (fst pos) (snd pos) sx t).

Fixpoint spawnIndividuals (n : nat) (species : Species) : Rand (list Creature) :=
  match n with
  | O => ret []
  | S n' =>
      let* c := spawnIndividual species in
      let* rest := spawnIndividuals n' species in
      ret (c :: rest)
  end.

Fixpoint spawnForEach (l : list Species) : Rand (list Creature) :=
  match l with
  | [] => ret []
  | species :: l' =>
      let* cs := spawnIndividuals 15 species in
      let* rest := spawnForEach l' in
      ret (cs ++ rest)
  end.

(** [spawnInitialCreatures] *)
Definition spawnInitialCreatures : Rand (list Creature) :=
  spawnForEach speciesList.

(** ** Simulation loop *)

(** [getBiome] *)
Definition getBiome (tx ty : Z) : Biome :=
  if (ty <? 0)%Z || (ty >=? WORLD_HEIGHT)%Z
     || (tx <? 0)%Z || (tx >=? WORLD_WIDTH)%Z
  then fields
  else world_at tx ty.

(** The eight [if (dir === n)] lines of the random walk. *)
Definition destination (cx cy dir : Z) : Z * Z :=
  let nx := cx in
  let ny := cy in
  let nx := if (dir =? 0)%Z then (nx + 1)%Z else nx in
  let nx := if (dir =? 1)%Z then (nx - 1)%Z else nx in
  let ny := if (dir =? 2)%Z then (ny + 1)%Z else ny in
  let ny := if (dir =? 3)%Z then (ny - 1)%Z else ny in
  let '(nx, ny) := if (dir =? 4)%Z then ((nx + 1)%Z, (ny - 1)%Z) else (nx, ny) in
  let '(nx, ny) := if (dir =? 5)%Z then ((nx - 1)%Z, (ny - 1)%Z) else (nx, ny) in
  let '(nx, ny) := if (dir =? 6)%Z then ((nx + 1)%Z, (ny + 1)%Z) else (nx, ny) in
  let '(nx, ny) := if (dir =? 7)%Z then ((nx - 1)%Z, (ny + 1)%Z) else (nx, ny) in
  (nx, ny).

Definition clampX (nx : Z) : Z := Z.max 0 (Z.min (WORLD_WIDTH - 1) nx).
Definition clampY (ny : Z) : Z := Z.max 0 (Z.min (WORLD_HEIGHT - 1) ny).

(** The acceptance test of a destination and the clamped assignment. *)
Definition moveTo (c : Creature) (nx ny : Z) : Creature :=
  let nextBiome := getBiome nx ny in
  match movementMode c with
  | aquatic =>
      if bool_decide (nextBiome = water)
      then set_pos (clampX nx) (clampY ny) c
      else c
  | terrestrial =>
      if negb (bool_decide (nextBiome = water))
      then set_pos (clampX nx) (clampY ny) c
      else c
  end.

(** The random walk of [stepCreature]. *)
Definition movement (c : Creature) : Rand Creature :=
  let stepChance := 0.2 + num (traits c) curiosity * 0.3 in
  let* r := random in
  if Qltb r stepChance then
    let* dir := randomInt 8 in
    let '(nx, ny) := destination (x c) (y c) dir in
    ret (moveTo c nx ny)
  else ret c.

(** Age and hunger, the death test, regeneration and feeding, as
    [stepCreature] applies them to the creature. *)
Definition hungerIncrease (c : Creature) : Q :=
  let h := num (traits c) metabolism_rate in
  if bool_decide (dietType c = omnivore) then h * 1.3 else h.

Definition ageAndHunger (c : Creature) : Creature :=
  let c := set_age (age c + 1) c in
  set_energy (energy c - hungerIncrease c) c.

Definition dies (c : Creature) : bool :=
  Qltb (num (traits c) max_age) (inject_Z (age c)) || Qleb (energy c) 0.

Definition regenerate (c : Creature) : Creature :=
  set_energy (Qmin (num (traits c) stomach_capacity)
                   (energy c + num (traits c) regen_rate)) c.

Definition feed (b : Biome) (c : Creature) : Creature :=
  let foodFromBiome := biomeFoodValue b (dietType c) in
  let c := set_energy (energy c + foodFromBiome * 0.5 * num (traits c) food_efficiency) c in
  if Qltb (num (traits c) stomach_capacity) (energy c)
  then set_energy (num (traits c) stomach_capacity) c
  else c.

(** The first index [j >= from] of the list whose element passes [p j]. *)
Fixpoint find_from {A} (p : nat -> A -> bool) (from : nat) (l : list A)
  : option nat :=
  match l with
  | [] => None
  | a :: l' => if p from a then Some from else find_from p (S from) l'
  end.

(** [findNearbyCreature]: the index of the first other living creature
    within the radius. *)
Definition nearby (c : Creature) (i : nat) (r2 : Z) (j : nat) (other : Creature)
  : bool :=
  if negb (alive other) then false
  else if (j =? i)%nat then false
  else
    let dx := (x other - x c)%Z in
    let dy := (y other - y c)%Z in
    (dx * dx + dy * dy <=? r2)%Z.

Definition findNearbyCreature (cs : list Creature) (c : Creature) (i : nat)
  (radius : Z) : option nat :=
  let r2 := (radius * radius)%Z in
  find_from (nearby c i r2) 0 cs.

(** [resolveAttack] on the two objects; they are distinct. *)
Definition resolveAttack (attacker target : Creature) : Creature * Creature :=
  let damage := num (traits attacker) attack_damage + num (traits attacker) bite_force in
  let armor_ := num (traits target) armor + num (traits target) shell_hardness * 2 in
  let damage := Qmax 0 (damage - armor_) in
  if Qleb damage 0 then (attacker, target)
  else
    let target := set_energy (energy target - damage * 5) target in
    let attacker :=
      if Qltb 0 (num (traits target) spine_damage)
      then set_energy (energy attacker - num (traits target) spine_damage * 3) attacker
      else attacker in
    let target :=
      if flag (traits attacker) has_venom && Qltb 0 (num (traits attacker) venom_power)
      then set_energy (energy target - num (traits attacker) venom_power * 2) target
      else target in
    if Qleb (energy target) 0 then
      let target := set_alive false target in
      let attacker :=
        set_energy (Qmin (num (traits attacker) stomach_capacity)
                         (energy attacker + 30 * num (traits attacker) food_efficiency))
                   attacker in
      (attacker, target)
    else (attacker, target).

(** [resolveAttack] on the array: attacker at [i], target at [j]. *)
Definition resolveAttack_at (i j : nat) (cs : list Creature) : list Creature :=
  match cs !! i, cs !! j with
  | Some attacker, Some target =>
      let '(attacker', target') := resolveAttack attacker target in
      <[j := target']> (<[i := attacker']> cs)
  | _, _ => cs
  end.

(** The predation block of [stepCreature]. *)
Definition predation (i : nat) (cs : list Creature) : Rand (list Creature) :=
  match cs !! i with
  | None => ret cs
  | Some c =>
      let* r := random in
      if Qltb r (num (traits c) aggression * 0.05) then
        match findNearbyCreature cs c i 1 with
        | None => ret cs
        | Some j =>
            match cs !! j with
            | None => ret cs
            | Some target =>
                if alive target && negb (j =? i)%nat then
                  let sameSpecies := (speciesId target =? speciesId c)%Z in
                  let canAttackSame := isCannibal c in
                  let isCarnivore :=
                    bool_decide (dietType c = carnivore)
                    || bool_decide (dietType c = omnivore) in
                  if isCarnivore
                     && (negb sameSpecies || (sameSpecies && canAttackSame))
                  then ret (resolveAttack_at i j cs)
                  else ret cs
                else ret cs
            end
        end
      else ret cs
  end.

(** The callback of [creatures.find] in [attemptReproduction]. *)
Definition eligibleMate (c : Creature) (i : nat) (j : nat) (other : Creature)
  : bool :=
  if negb (alive other) then false
  else if (j =? i)%nat then false
  else if negb (speciesId other =? speciesId c)%Z then false
  else if bool_decide (sex other = sex c) then false
  else if (1 <? Z.abs (x other - x c))%Z || (1 <? Z.abs (y other - y c))%Z then false
  else if Qltb (energy other) (num (traits other) stomach_capacity * 0.5) then false
  else true.

Definition findMate (cs : list Creature) (c : Creature) (i : nat) : option nat :=
  find_from (eligibleMate c i) 0 cs.

(** One turn of the offspring loop: the child that is pushed.  Reading
    [speciesList[creature.speciesId]] outside the list makes the
    constructor throw. *)
Definition makeChild (creature mate : Creature) : Rand Creature :=
  let* r := random in
  let childSex := if Qltb r 0.5 then M else F in
  let* childTraits := mixTraits (traits creature) (traits mate) in
  let* r' := random in
  let* finalTraits :=
    if Qltb r' 0.4 then applyMutation childTraits else ret childTraits in
  match index speciesList (speciesId creature) with
  | Some species =>
      ret (new_Creature species (x creature) (y creature) childSex finalTraits)
  | None => fail
  end.

Fixpoint spawnOffspring (n : nat) (creature mate : Creature) (cs : list Creature)
  : Rand (list Creature) :=
  match n with
  | O => ret cs
  | S n' =>
      let* child := makeChild creature mate in
      spawnOffspring n' creature mate (cs ++ [child])
  end.

Definition offspringCount (creature mate : Creature) : Z :=
  Math_round ((num (traits creature) offspring_per_cycle
               + num (traits mate) offspring_per_cycle) / 2).

(** [attemptReproduction] for the creature at index [i]. *)
Definition attemptReproduction (i : nat) (cs : list Creature)
  : Rand (list Creature) :=
  match cs !! i with
  | None => ret cs
  | Some creature =>
      if negb (alive creature) then ret cs
      else if rem_nonzero (inject_Z (age creature))
                          (num (traits creature) repro_cooldown) then ret cs
      else
        match findMate cs creature i with
        | None => ret cs
        | Some j =>
            match cs !! j with
            | None => ret cs
            | Some mate =>
                let n := Z.to_nat (offspringCount creature mate) in
                let* cs := spawnOffspring n creature mate cs in
                let cs := <[i := set_energy (energy creature * 0.5) creature]> cs in
                let cs := <[j := set_energy (energy mate * 0.5) mate]> cs in
                ret cs
            end
        end
  end.

(** The last block of [stepCreature]. *)
Definition reproduction (i : nat) (cs : list Creature) : Rand (list Creature) :=
  match cs !! i with
  | None => ret cs
  | Some c =>
      if Qltb (num (traits c) stomach_capacity * 0.7) (energy c)
      then attemptReproduction i cs
      else ret cs
  end.

(** [stepCreature(creatures[i], i)] *)
Definition stepCreature (i : nat) (cs : list Creature) : Rand (list Creature) :=
  match cs !! i with
  | None => ret cs
  | Some c =>
      if negb (alive c) then ret cs
      else
        let c := ageAndHunger c in
        if dies c then ret (<[i := set_alive false c]> cs)
        else
          let c := regenerate c in
          let b := getBiome (x c) (y c) in
          let* c := movement c in
          let c := feed b c in
          let cs := <[i := c]> cs in
          let* cs := predation i cs in
          reproduction i cs
  end.

(** The creature loop of [stepSimulation], from index [i] on.  The bound
    [creatures.length] is read again at every turn; [fuel] bounds the
    number of turns. *)
Fixpoint creatureLoop (fuel : nat) (i : nat) (cs : list Creature)
  : Rand (list Creature) :=
  match cs !! i with
  | None => ret cs
  | Some c =>
      match fuel with
      | O => fail
      | S fuel' =>
          let* cs := if alive c then stepCreature i cs else ret cs in
          creatureLoop fuel' (S i) cs
      end
  end.

(** [year % 5 === 0] on a binary64 number: the remainder is zero exactly
    when the number is zero or a finite multiple of five. *)
Definition rem5_is_zero (v : float) : bool :=
  match Prim2SF v with
  | S754_zero _ => true
  | S754_finite _ m e =>
      if (0 <=? e)%Z then (Z.pos m * 2 ^ e mod 5 =? 0)%Z
      else (Z.pos m mod 2 ^ (- e) =? 0)%Z
           && ((Z.pos m / 2 ^ (- e)) mod 5 =? 0)%Z
  | _ => false
  end.

(** The literal [0.01] of [year += 0.01]: the binary64 number nearest to
    one hundredth. *)
Definition year_step : float := 0.01%float.

(** The state that [stepSimulation] owns. *)
Record Sim := mkSim {
  creatures : list Creature;
  year : float
}.

(** [stepSimulation] *)
Definition stepSimulation (fuel : nat) (st : Sim) : Rand Sim :=
  let* cs := creatureLoop fuel 0 (creatures st) in
  let cs := if rem5_is_zero (year st) then List.filter alive cs else cs in
  ret (mkSim cs (year st + year_step)%float).

(** [n] calls of [stepSimulation] in a row. *)
Fixpoint stepSimulations (fuel : nat) (n : nat) (st : Sim) : Rand Sim :=
  match n with
  | O => ret st
  | S n' =>
      let* st := stepSimulation fuel st in
      stepSimulations fuel n' st
  end.

End Running.

(** [initWorld]: the grid, the species list and the creatures of a reset;
    the year restarts at zero. *)
Definition initWorld (fuel : nat)
  : Rand (list (list Biome) * list Species * Sim) :=
  let* pg := generateWorld fuel in
  let* species := generateSpeciesList in
  let* cs := spawnInitialCreatures (snd pg) species in
  ret (snd pg, species, mkSim cs 0%float).

(** ** Selection *)

(** [const TILE_SIZE = 10], in canvas pixels. *)
Definition TILE_SIZE : Q := 10.

(** The squared distance between the point [(mx, my)] of the canvas and
    the centre of the tile of [c], as the scan of [onCanvasClick] computes
    it. *)
Definition click_dist2 (mx my : Q) (c : Creature) : Q :=
  let px := inject_Z (x c) * TILE_SIZE + TILE_SIZE / 2 in
  let py := inject_Z (y c) * TILE_SIZE + TILE_SIZE / 2 in
  let dx := mx - px in
  let dy := my - py in
  dx * dx + dy * dy.

(** The scan of [onCanvasClick] over the creatures from index [j] on. *)
Fixpoint scanCreatures (mx my : Q) (j : nat) (cs : list Creature)
  (best : option nat) (bestDist2 : Q) : option nat :=
  match cs with
  | [] => best
  | c :: cs' =>
      if negb (alive c) then scanCreatures mx my (S j) cs' best bestDist2
      else
        let d2 := click_dist2 mx my c in
        if Qltb d2 bestDist2 then scanCreatures mx my (S j) cs' (Some j) d2
        else scanCreatures mx my (S j) cs' best bestDist2
  end.

(** [onCanvasClick] for a click at [(mx, my)], the event's coordinates
    relative to the canvas: the value it assigns to [selectedCreature]. *)
Definition onCanvasClick (mx my : Q) (cs : list Creature) : option nat :=
  scanCreatures mx my 0 cs None ((TILE_SIZE * 2) * (TILE_SIZE * 2)).

(** ** Rendering *)

(** What the renderer does to the canvas: the shapes it fills and strokes,
    in the order of the calls.  An arc is a full circle, from angle 0 to
    [Math.PI * 2]. *)
Inductive Draw :=
  | fillRect (fillStyle : string) (px py w h : Q)
  | fillArc (fillStyle : option string) (px py radius : Q)
  | strokeArc (strokeStyle : string) (lineWidth : Q) (px py radius : Q).

Definition SPECIES_COLORS : list string :=
  [ "#ff6b6b"; "#4dabff"; "#63e27b"; "#ffd16b"; "#b884ff";
    "#ff7be5"; "#64f2e0"; "#ffe27b"; "#ff9e6b"; "#9bff6b" ]%string.

(** [c.color].  The constructor copies the colour of the species, and the
    species with id i has the colour [SPECIES_COLORS[i % 10]]; the records
    of the embedding do not carry the colour, it is read from the species
    id. *)
Definition color (c : Creature) : option string :=
  index SPECIES_COLORS (Z.rem (speciesId c) (Z.of_nat (length SPECIES_COLORS))).

(** [biomeColor]; the argument is [None] for an [undefined] tile. *)
Definition biomeColor (b : option Biome) : string :=
  match b with
  | Some water => "#1a3a5e"
  | Some desert => "#d7c38b"
  | Some snowy => "#e8f3ff"
  | Some woods => "#264c32"
  | Some swamp => "#3b5130"
  | Some fields => "#7b9850"
  | None => "#000000"
  end%string.

(** [drawWorld]: [world[y][x]] throws on a missing row and is [undefined]
    on a missing tile of a row. *)
Definition drawTile (world : list (list Biome)) (ty tx : Z) : option Draw :=
  match world !! Z.to_nat ty with
  | Some row =>
      Some (fillRect (biomeColor (row !! Z.to_nat tx))
                     (inject_Z tx * TILE_SIZE) (inject_Z ty * TILE_SIZE)
                     TILE_SIZE TILE_SIZE)
  | None => None
  end.

Definition drawWorld (world : list (list Biome)) : option (list Draw) :=
  @List.concat Draw
    <$> mapM (fun ty => mapM (drawTile world ty) (upto WORLD_WIDTH))
             (upto WORLD_HEIGHT).

(** [drawCreatures], from index [j] on: a disc for every living creature,
    and a white circle around the selected one. *)
Fixpoint drawCreatures_from (selectedCreature : option nat) (j : nat)
  (cs : list Creature) : list Draw :=
  match cs with
  | [] => []
  | c :: cs' =>
      (if negb (alive c) then []
       else
         let baseSize := 7 in
         let diameter := Qmax 6 (Qmin 14 (baseSize + num (traits c) size * 2)) in
         let px := inject_Z (x c) * TILE_SIZE + TILE_SIZE / 2 in
         let py := inject_Z (y c) * TILE_SIZE + TILE_SIZE / 2 in
         fillArc (color c) px py (diameter / 2)
         :: (if bool_decide (selectedCreature = Some j)
             then [strokeArc "#ffffff" 2 px py (diameter / 2 + 2)]
             else []))
      ++ drawCreatures_from selectedCreature (S j) cs'
  end.

Definition drawCreatures (selectedCreature : option nat) (cs : list Creature)
  : list Draw :=
  drawCreatures_from selectedCreature 0 cs.

(** [updateStats]: the three numbers of the panel, the year before it is
    rounded to one decimal. *)
Definition updateStats (speciesList : list Species) (st : Sim)
  : float * nat * nat :=
  let aliveCount := length (List.filter alive (creatures st)) in
  (year st, aliveCount, length speciesList).

(** ** The random walk of the first version *)

(** [src/unnamed/part_000] is the first version of the file.  Its tick is
    the tick of [main.js] but for the random walk, which draws one of four
    directions; the acceptance test and the clamped assignment are the
    same. *)
Definition destination4 (cx cy dir : Z) : Z * Z :=
  let nx := cx in
  let ny := cy in
  let nx := if (dir =? 0)%Z then (nx + 1)%Z else nx in
  let nx := if (dir =? 1)%Z then (nx - 1)%Z else nx in
  let ny := if (dir =? 2)%Z then (ny + 1)%Z else ny in
  let ny := if (dir =? 3)%Z then (ny - 1)%Z else ny in
  (nx, ny).

Definition movement4 (world : list (list Biome)) (c : Creature) : Rand Creature :=
  let stepChance := 0.2 + num (traits c) curiosity * 0.3 in
  let* r := random in
  if Qltb r stepChance then
    let* dir := randomInt 4 in
    let '(nx, ny) := destination4 (x c) (y c) dir in
    ret (moveTo world c nx ny)
  else ret c.

(** [n] successive calls of [applyMutation], each on the result of the
    one before. *)
Fixpoint mutations (n : nat) (t : Traits) : Rand Traits :=
  match n with
  | O => ret t
  | S n' =>
      let* t' := applyMutation t in
      mutations n' t'
  end.

(** The clamp table of [applyMutation], as a property of a trait object. *)
Definition within_clamps (t : Traits) : Prop :=
  (0.3 <= num t size <= 3) /\
  (0.2 <= num t max_speed <= 4) /\
  (0 <= num t armor <= 5) /\
  (0.1 <= num t attack_damage) /\
  (1 <= num t offspring_per_cycle <= 5) /\
  (80 <= num t repro_cooldown <= 500) /\
  (3 <= num t vision_radius <= 20).

(** A tile of the grid, and a coordinate pair outside of it. *)
Definition in_grid (tx ty : Z) : Prop :=
  (0 <= tx < WORLD_WIDTH)%Z /\ (0 <= ty < WORLD_HEIGHT)%Z.

Definition off_grid (tx ty : Z) : Prop :=
  (ty < 0)%Z \/ (WORLD_HEIGHT <= ty)%Z \/ (tx < 0)%Z \/ (WORLD_WIDTH <= tx)%Z.

(** The constraint of a movement mode on the biome of a tile, and a
    creature that stands on a tile its mode allows. *)
Definition mode_ok (m : MovementMode) (b : Biome) : Prop :=
  match m with
  | aquatic => b = water
  | terrestrial => b <> water
  end.

Definition contained (world : list (list Biome)) (c : Creature) : Prop :=
  mode_ok (movementMode c) (getBiome world (x c) (y c)).

(** The biome food values as the specification tabulates them. *)
Definition food_table (b : Biome) (diet : DietType) : Q :=
  match diet, b with
  | herbivore, (woods | fields | swamp) => 1.0
  | herbivore, _ => 0.2
  | omnivore, (woods | fields | swamp) => 0.7
  | omnivore, _ => 0.3
  | carnivore, _ => 0.1
  end.

(** The conditions of the [find] callback of [attemptReproduction] on the
    creature [other] at index [j], for the creature [c] at index [i]. *)
Definition is_mate_for (c : Creature) (i : nat) (j : nat) (other : Creature)
  : Prop :=
  alive other = true /\ j <> i /\
  speciesId other = speciesId c /\ sex other <> sex c /\
  (Z.abs (x other - x c) <= 1)%Z /\ (Z.abs (y other - y c) <= 1)%Z /\
  num (traits other) stomach_capacity * 0.5 <= energy other.

(** A creature as the constructor makes it for a child of [parent] and
    [mate]: born where the parent stands, of the species that the list
    holds at the parent's species id, and with the mean of the parents'
    values for every numeric trait that a mutation cannot touch. *)
Definition is_child_of (speciesList : list Species) (parent mate : Creature)
  (child : Creature) : Prop :=
  exists species sx t,
    index speciesList (speciesId parent) = Some species /\
    child = new_Creature species (x parent) (y parent) sx t /\
    forall key, key ∉ MUTABLE_NUMERIC_TRAITS -> key <> metabolism_rate ->
      num t key = (num (traits parent) key + num (traits mate) key) / 2.

(** The energy cost of reproduction on one parent. *)
Definition halved (c : Creature) : Creature := set_energy (energy c * 0.5) c.

(** The destination that the random walk of a tick started at cursor [k]
    tries for the creature [c], if it takes a step at all. *)
Definition attempted_destination (c : Creature) (k : nat) : Z * Z :=
  destination (x c) (y c) (Qfloor (rnd (S k) * inject_Z 8)).

(** The tick of the creature [c] started at cursor [k] takes a step of the
    random walk: the creature is alive, the tick does not end with its
    death, and the first draw of the tick is below its step chance. *)
Definition walks (c : Creature) (k : nat) : Prop :=
  alive c = true /\ dies (ageAndHunger c) = false /\
  rnd k < 0.2 + num (traits c) curiosity * 0.3.

(** The tile that attempt [j] of [findRandomTileForSpecies] draws when the
    search starts at cursor [k]. *)
Definition attempted_tile (k j : nat) : Z * Z :=
  (Qfloor (rnd (k + 2 * j)%nat * inject_Z WORLD_WIDTH),
   Qfloor (rnd (k + 2 * j + 1)%nat * inject_Z WORLD_HEIGHT)).

(** A species list whose entries carry their index as id, as
    [generateSpeciesList] builds it, and a creature whose copy of the
    movement mode is the one of its species. *)
Definition wf_species (speciesList : list Species) : Prop :=
  forall n sp, index speciesList n = Some sp -> id sp = n.

Definition species_consistent (speciesList : list Species) (c : Creature) : Prop :=
  forall sp, index speciesList (speciesId c) = Some sp ->
             s_movementMode sp = movementMode c.

(** A creature as the constructor leaves it, and a creature that was born
    in the running step and has had its turn in the creature loop: it was
    ticked once (age 1), or it was dead when its turn came (age 0). *)
Definition unticked (c : Creature) : Prop := age c = 0%Z.

Definition ticked_newborn (c : Creature) : Prop :=
  age c = 1%Z \/ (age c = 0%Z /\ alive c = false).

(** The steps among [n] successive ones, counted from [i] and started at
    year [v], that end with a compaction. *)
Fixpoint compaction_steps (n : nat) (i : nat) (v : float) : list nat :=
  match n with
  | O => []
  | S n' =>
      let rest := compaction_steps n' (S i) (v + year_step)%float in
      if rem5_is_zero v then i :: rest else rest
  end.

(** Two creatures of the same species and mode on the same tile. *)
Definition same_place (c c' : Creature) : Prop :=
  speciesId c' = speciesId c /\ movementMode c' = movementMode c /\
  x c' = x c /\ y c' = y c.

(** The half of the constraint that binds aquatic creatures, and an
    aquatic creature on a Water tile. *)
Definition afloat_ok (m : MovementMode) (b : Biome) : Prop :=
  m = aquatic -> b = water.

Definition afloat (world : list (list Biome)) (c : Creature) : Prop :=
  afloat_ok (movementMode c) (getBiome world (x c) (y c)).

(** A creature whose tile meets the constraint [ok] of its mode and whose
    mode is the one of its species. *)
Definition situated (ok : MovementMode -> Biome -> Prop)
  (world : list (list Biome)) (speciesList : list Species) (c : Creature) : Prop :=
  ok (movementMode c) (getBiome world (x c) (y c)) /\
  species_consistent speciesList c.

(** Two states of a creature between which it has not aged and has not
    come back to life. *)
Definition quiet (c c' : Creature) : Prop :=
  age c' = age c /\ (alive c' = true -> alive c = true).

(** The energy bounds that the engine keeps.  [capped]: the capacity is at
    least the energy of a newborn and a living creature is not above its
    capacity.  [lively]: a living creature has positive energy.  [benign]:
    the traits by which a living creature can lose energy without a death
    test (regeneration, feeding, the spines of a target) have the sign of
    the baseline. *)
Definition capped (c : Creature) : Prop :=
  50 <= num (traits c) stomach_capacity /\
  (alive c = true -> energy c <= num (traits c) stomach_capacity).

Definition lively (c : Creature) : Prop := alive c = true -> 0 < energy c.

Definition benign (c : Creature) : Prop :=
  0 <= num (traits c) regen_rate /\
  0 <= num (traits c) food_efficiency /\
  num (traits c) spine_damage <= 0.

(** The bounds of the specification on one creature. *)
Definition energy_in_bounds (c : Creature) : Prop :=
  0 <= energy c /\ energy c <= num (traits c) stomach_capacity.

(** The squared distance between the tile [(tx, ty)] and a seed, as the
    scan of [generateWorld] computes it. *)
Definition seed_dist2 (tx ty : Z) (s : Seed) : Z :=
  ((tx - seed_x s) * (tx - seed_x s) + (ty - seed_y s) * (ty - seed_y s))%Z.

(** A creature as the constructor makes it from the species [sp]. *)
Definition born_of (sp : Species) (c : Creature) : Prop :=
  speciesId c = id sp /\ movementMode c = s_movementMode sp /\
  dietType c = s_dietType sp /\ isCannibal c = s_isCannibal sp /\
  age c = 0%Z /\ energy c == 50 /\ alive c = true.

(** The genome of a creature of the initial population: the baseline, with
    the three factors of [spawnInitialCreatures] applied.  The bounds
    include 1.2: a draw is below 1, but the binary64 sum 0.8 + r * 0.4
    rounds to 1.2 for the largest draws. *)
Definition initial_variation (t : Traits) : Prop :=
  (0.8 <= num t max_speed /\ num t max_speed <= 1.2) /\
  (0.8 <= num t attack_damage /\ num t attack_damage <= 1.2) /\
  num t armor == 0 /\
  (forall key, key <> max_speed -> key <> attack_damage -> key <> armor ->
     num t key = num createBaselineTraits key) /\
  (forall key, flag t key = false).

(** What the constructor fixes of a creature and no statement of the
    engine assigns afterwards: species id, mode, diet, cannibalism, sex
    and the trait object.  And two creatures on the same tile. *)
Definition same_self (c c' : Creature) : Prop :=
  speciesId c' = speciesId c /\ movementMode c' = movementMode c /\
  dietType c' = dietType c /\ isCannibal c' = isCannibal c /\
  sex c' = sex c /\ traits c' = traits c.

Definition same_tile (c c' : Creature) : Prop := x c' = x c /\ y c' = y c.

(** Two tiles that are at most one step apart on each axis. *)
Definition near (c c' : Creature) : Prop :=
  (Z.abs (x c' - x c) <= 1)%Z /\ (Z.abs (y c' - y c) <= 1)%Z.

(** A child as the offspring loop of [attemptReproduction] makes it: of
    the species that the list holds at the parent's species id, on the
    parent's tile, with the genome that [mixTraits] returns for the two
    parents or with a mutation of that genome. *)
Definition born_to (speciesList : list Species) (parent mate child : Creature)
  : Prop :=
  exists species sx mixed k0 k1 t,
    index speciesList (speciesId parent) = Some species /\
    mixTraits (traits parent) (traits mate) k0 = Some (mixed, k1) /\
    (t = mixed \/ exists k2 k3, applyMutation mixed k2 = Some (t, k3)) /\
    child = new_Creature species (x parent) (y parent) sx t.

(** What a pass of the creature loop can do to a creature of the array.
    [passed_over]: the creature had no turn, or was dead at its turn; it
    stands where it stood at the same age, it may have lost energy or its
    life to an attack or half of its energy as a mate, and if it was dead
    nothing of it has changed.  [ticked]: the creature was alive and had
    its turn; it is one tick older, not older than its max_age if it is
    still alive, and it stands at most one tile away if it stood on the
    grid. *)
Definition passed_over (c c' : Creature) : Prop :=
  same_self c c' /\ same_tile c c' /\ age c' = age c /\
  (alive c' = true -> alive c = true) /\ (alive c = false -> c' = c).

Definition ticked (c c' : Creature) : Prop :=
  same_self c c' /\ alive c = true /\ age c' = (age c + 1)%Z /\
  (alive c' = true -> inject_Z (age c') <= num (traits c') max_age) /\
  (in_grid (x c) (y c) -> near c c').

(** A living creature that has been ticked is not older than its
    max_age. *)
Definition seasoned (c : Creature) : Prop :=
  alive c = true -> age c = 0%Z \/ inject_Z (age c) <= num (traits c) max_age.

(** A genome whose traits outside the mutable list (but for the
    metabolism rate, which a mutation recomputes) have the baseline
    values. *)
Definition baseline_fixed (t : Traits) : Prop :=
  forall key, key ∉ MUTABLE_NUMERIC_TRAITS -> key <> metabolism_rate ->
    num t key == num createBaselineTraits key.

(** A creature whose species id is an index of the species list, and a
    creature that in addition has a genome within the clamp table. *)
Definition registered (speciesList : list Species) (c : Creature) : Prop :=
  is_Some (index speciesList (speciesId c)).

Definition viable (speciesList : list Species) (c : Creature) : Prop :=
  within_clamps (traits c) /\ registered speciesList c.

(** The disc that [drawCreatures] fills for a living creature and the
    circle it strokes around the selected one. *)
Definition diameter (c : Creature) : Q :=
  Qmax 6 (Qmin 14 (7 + num (traits c) size * 2)).

Definition disc_of (c : Creature) : Draw :=
  fillArc (color c)
          (inject_Z (x c) * TILE_SIZE + TILE_SIZE / 2)
          (inject_Z (y c) * TILE_SIZE + TILE_SIZE / 2)
          (diameter c / 2).

Definition circle_of (c : Creature) : Draw :=
  strokeArc "#ffffff" 2
            (inject_Z (x c) * TILE_SIZE + TILE_SIZE / 2)
            (inject_Z (y c) * TILE_SIZE + TILE_SIZE / 2)
            (diameter c / 2 + 2).

(** The rectangle that [drawWorld] fills for the tile [(tx, ty)] of a
    row. *)
Definition tile_of (row : list Biome) (tx ty : Z) : Draw :=
  fillRect (biomeColor (row !! Z.to_nat tx))
           (inject_Z tx * TILE_SIZE) (inject_Z ty * TILE_SIZE)
           TILE_SIZE TILE_SIZE.

(** The discs and the circles among the shapes. *)
Definition is_disc (d : Draw) : bool :=
  match d with fillArc _ _ _ _ => true | _ => false end.

Definition is_circle (d : Draw) : bool :=
  match d with strokeArc _ _ _ _ _ => true | _ => false end.

(** The state of the scan of [onCanvasClick] after the creatures [seen]:
    no living creature seen is nearer than [bestDist2]; the best creature,
    if there is one, is alive, at that distance, less than two tiles (20
    pixels) away and strictly nearer than every living creature before
    it; without a best creature the distance is still the initial one. *)
Definition click_inv (mx my : Q) (seen : list Creature) (best : option nat)
  (bestDist2 : Q) : Prop :=
  (forall m o, seen !! m = Some o -> alive o = true ->
     bestDist2 <= click_dist2 mx my o) /\
  match best with
  | Some b =>
      exists c, seen !! b = Some c /\ alive c = true /\
        click_dist2 mx my c == bestDist2 /\ bestDist2 < 400 /\
        forall m o, (m < b)%nat -> seen !! m = Some o -> alive o = true ->
          bestDist2 < click_dist2 mx my o
  | None => bestDist2 == 400
  end.

(** ** Scenarios *)

(** An oracle that reads a list of draws and then repeats one value. *)
Definition oracle (draws : list Q) (rest : Q) : nat -> Q :=
  fun k => nth k draws rest.

Definition in_unit (q : Q) : bool := Qleb 0 q && Qltb q 1.

(** A creature with the baseline genome, but for the listed traits. *)
Definition with_traits (l : list (NumKey * Q)) : Traits :=
  fold_right (fun kv t => set_num (fst kv) (snd kv) t) createBaselineTraits l.

Definition grazers : Species := mkSpecies 0 terrestrial herbivore false.
Definition hunters : Species := mkSpecies 1 terrestrial carnivore false.

Definition creature_of (species : Species) (cx cy : Z) (sx : Sex) (a : Z) (e : Q)
  (t : Traits) : Creature :=
  set_energy e (set_age a (new_Creature species cx cy sx t)).

(** A 3 x 3 world with water along two edges. *)
Definition shore : list (list Biome) :=
  [ [water; water; water];
    [fields; fields; water];
    [fields; woods; water] ].

(** A strip of two tiles, Fields and Desert. *)
Definition strip : list (list Biome) := [ [fields; desert] ].

(** Two grazers side by side; the male is one tick away from age 200. *)
Definition adam : Creature := creature_of grazers 0 1 M 199 55 createBaselineTraits.
Definition eve : Creature := creature_of grazers 1 1 F 10 40 createBaselineTraits.

(** The male with less energy: above half of its capacity, below 70%. *)
Definition adam_lean : Creature :=
  creature_of grazers 0 1 M 199 35 createBaselineTraits.

(** The male at the reproduction stage (age 200), and a second female
    with three offspring per cycle. *)
Definition adam_ready : Creature :=
  creature_of grazers 0 1 M 200 55 createBaselineTraits.
Definition lilith : Creature :=
  creature_of grazers 0 2 F 10 40 (with_traits [(offspring_per_cycle, 3)]).

(** The attack scenario of the specification. *)
Definition biter : Creature :=
  creature_of hunters 0 0 M 10 50 (with_traits [(attack_damage, 5)]).
Definition shelled : Creature :=
  creature_of grazers 1 0 F 10 50 (with_traits [(armor, 2)]).

(** A baseline hunter, a weak prey, a starving grazer, and a hunter with
    little energy in front of a spiny prey. *)
Definition hunter : Creature := creature_of hunters 0 0 M 10 50 createBaselineTraits.
Definition weak_prey : Creature := creature_of grazers 1 0 F 10 5 createBaselineTraits.
Definition starving : Creature :=
  creature_of grazers 0 0 M 10 0.02 createBaselineTraits.
Definition tired_hunter : Creature :=
  creature_of hunters 0 0 M 10 1 createBaselineTraits.
Definition spiny_prey : Creature :=
  creature_of grazers 1 0 F 10 50 (with_traits [(spine_damage, 1)]).

(** An aquatic species and one of its creatures in the water of the shore
    world. *)
Definition swimmers : Species := mkSpecies 0 aquatic herbivore false.
Definition fish : Creature := creature_of swimmers 2 1 M 10 50 createBaselineTraits.

(** A grazer on the Fields tile of the strip, and one at the end of its
    life. *)
Definition walker : Creature := creature_of grazers 0 0 M 0 50 createBaselineTraits.
Definition elder : Creature := creature_of grazers 0 0 M 1999 50 createBaselineTraits.

(** The draws of a world generation that makes a palette of Water and
    Desert and six seeds of Water: the size draw 0 gives a palette of 2,
    the draw 0.2 adds BIOMES[1], Desert; every seed draws its tile twice,
    and each seed after the first draws 0.1, the palette's entry 0, Water,
    and then 0.7, which is not below 0.6 and keeps it. *)
Definition flood_draws : list Q :=
  [ 0; 0.2;
    0; 0;
    0; 0; 0.1; 0.7;
    0; 0; 0.1; 0.7;
    0; 0; 0.1; 0.7;
    0; 0; 0.1; 0.7;
    0; 0; 0.1; 0.7 ].

(** A terrestrial creature on a Water tile of the grid [w]. *)
Definition misplaced (w : list (list Biome)) (c : Creature) : bool :=
  bool_decide (movementMode c = terrestrial)
  && bool_decide (getBiome w (x c) (y c) = water).

(** What a scenario shows of a creature and of an array: species id,
    tile, sex, age, energy as a reduced fraction, liveness. *)
Definition snapshot (c : Creature) : Z * (Z * Z) * Sex * Z * Q * bool :=
  (speciesId c, (x c, y c), sex c, age c, Qred (energy c), alive c).

Definition snapshots (r : option (list Creature * nat))
  : option (list (Z * (Z * Z) * Sex * Z * Q * bool)) :=
  option_map (fun p => map snapshot (fst p)) r.

(** The draws of a world generation that makes a palette of Water, Desert
    and Fields and a lake in the west of the grid. *)
Definition lake_draws : list Q :=
  [ 0.5; 0.2; 0; 0.9;
    0.1; 0.1;
    0.9; 0.9; 0.9;
    0.5; 0.5; 0.1; 0.3; 0.9;
    0.5; 0.5; 0.1; 0.7;
    0.5; 0.5; 0.1; 0.7;
    0.5; 0.5; 0.1; 0.7 ].

(** What a scenario shows of a reset: the grid, the number of creatures,
    and whether every creature is a terrestrial one on Water. *)
Definition flood_census (r : option (list (list Biome) * list Species * Sim * nat))
  : option (list (list Biome) * nat * bool) :=
  match r with
  | Some (w, _, st, _) =>
      Some (w, length (creatures st), forallb (misplaced w) (creatures st))
  | None => None
  end.

Definition sim_snapshots (r : option (Sim * nat))
  : option (list (Z * (Z * Z) * Sex * Z * Q * bool)) :=
  option_map (fun p => map snapshot (creatures (fst p))) r.

(** * Properties *)

(** ** Tactics and general facts *)

Lemma bind_Some {A B} (m : Rand A) (f : A -> Rand B) k b k2 :
  bind m f k = Some (b, k2) <->
  exists a k1, m k = Some (a, k1) /\ f a k1 = Some (b, k2).
Proof.
  unfold bind. split.
  - destruct (m k) as [[a k1]|]; [|discriminate]. intros E. now exists a, k1.
  - intros (a & k1 & E1 & E2). now rewrite E1.
Qed.

Lemma Some_pair_eq {A B} (a a' : A) (b b' : B) :
  Some (a, b) = Some (a', b') -> a = a' /\ b = b'.
Proof. intros H. injection H. auto. Qed.

Lemma Qltb_true a b : Qltb a b = true <-> a < b.
Proof. unfold Qltb. destruct (Qlt_le_dec a b); split; intros; try easy; lra. Qed.

Lemma Qltb_false a b : Qltb a b = false <-> b <= a.
Proof. unfold Qltb. destruct (Qlt_le_dec a b); split; intros; try easy; lra. Qed.

Lemma Qleb_true a b : Qleb a b = true <-> a <= b.
Proof. unfold Qleb. destruct (Qlt_le_dec b a); split; intros; try easy; lra. Qed.

Lemma Qleb_false a b : Qleb a b = false <-> b < a.
Proof. unfold Qleb. destruct (Qlt_le_dec b a); split; intros; try easy; lra. Qed.

(** Case analysis on every minimum and maximum in sight. *)
Ltac qminmax :=
  repeat match goal with
    | H : context [Qmin _ _] |- _ => revert H
    | H : context [Qmax _ _] |- _ => revert H
    | |- context [Qmin ?a ?b] =>
        let m := fresh "m" in let Hm := fresh "Hm" in let Hc := fresh "Hc" in
        destruct (Q.min_spec a b) as [[Hc Hm]|[Hc Hm]];
        revert Hc Hm; generalize (Qmin a b); intros m Hc Hm
    | |- context [Qmax ?a ?b] =>
        let m := fresh "m" in let Hm := fresh "Hm" in let Hc := fresh "Hc" in
        destruct (Q.max_spec a b) as [[Hc Hm]|[Hc Hm]];
        revert Hc Hm; generalize (Qmax a b); intros m Hc Hm
    end;
  intros.

(** ** Attack resolution *)

(** C7. Attack resolution computes
    damage = max(0, attack_damage + bite_force - (armor + 2 * shell_hardness)).
    When the damage is not positive neither creature changes.  Otherwise the
    target loses damage * 5 and, if the attacker has venom of positive
    power, venom_power * 2 more; the attacker loses spine_damage * 3 if the
    target has positive spines; and if the target's energy is then at most
    zero the target is dead and the attacker's energy is
    min(stomach_capacity, energy + 30 * food_efficiency).  Nothing else of
    either creature changes.  With attack_damage 5, bite_force 1, no venom,
    against armor 2 and shell_hardness 0, the damage is 4 and the target
    loses 20. *)
Theorem resolveAttack_correct (attacker target : Creature) :
  let ta := traits attacker in
  let tt := traits target in
  let damage :=
    Qmax 0 (num ta attack_damage + num ta bite_force
            - (num tt armor + 2 * num tt shell_hardness)) in
  let spines :=
    if Qltb 0 (num tt spine_damage) then num tt spine_damage * 3 else 0 in
  let venom :=
    if flag ta has_venom && Qltb 0 (num ta venom_power)
    then num ta venom_power * 2 else 0 in
  let hit := energy target - damage * 5 - venom in
  let a' := fst (resolveAttack attacker target) in
  let t' := snd (resolveAttack attacker target) in
  (damage <= 0 -> a' = attacker /\ t' = target) /\
  (0 < damage ->
     energy t' == hit /\
     (hit <= 0 ->
        alive t' = false /\
        energy a' == Qmin (num ta stomach_capacity)
                          (energy attacker - spines + 30 * num ta food_efficiency)) /\
     (0 < hit ->
        alive t' = alive target /\ energy a' == energy attacker - spines) /\
     set_energy 0 a' = set_energy 0 attacker /\
     set_alive true (set_energy 0 t') = set_alive true (set_energy 0 target)) /\
  (num ta attack_damage == 5 -> num ta bite_force == 1 ->
   flag ta has_venom = false ->
   num tt armor == 2 -> num tt shell_hardness == 0 ->
   damage == 4 /\ energy t' == energy target - 20).
Proof.
  cbv zeta. unfold resolveAttack. cbv zeta.
  remember (Qmax 0 (num (traits attacker) attack_damage + num (traits attacker) bite_force
            - (num (traits target) armor + 2 * num (traits target) shell_hardness)))
    as ds eqn:Eds.
  remember (Qmax 0 (num (traits attacker) attack_damage + num (traits attacker) bite_force
            - (num (traits target) armor + num (traits target) shell_hardness * 2)))
    as d eqn:Ed.
  assert (Hd : ds == d).
  { subst. apply Q.max_compat; [reflexivity | ring]. }
  assert (Hscen : num (traits attacker) attack_damage == 5 ->
                  num (traits attacker) bite_force == 1 ->
                  num (traits target) armor == 2 ->
                  num (traits target) shell_hardness == 0 -> d == 4).
  { intros H1 H2 H4 H5. subst d. rewrite H1, H2, H4, H5. reflexivity. }
  clear Eds Ed.
  destruct (Qleb d 0) eqn:E0; [apply Qleb_true in E0 | apply Qleb_false in E0].
  { cbn [fst snd]. split; [easy|]. split; [intros; lra|].
    intros H1 H2 _ H4 H5. specialize (Hscen H1 H2 H4 H5). lra. }
  cbn [set_energy set_alive energy traits alive fst snd].
  destruct (Qltb 0 (num (traits target) spine_damage)) eqn:Es;
    cbn [set_energy set_alive energy traits alive fst snd];
    destruct (flag (traits attacker) has_venom) eqn:Ef; cbn [andb];
    try (destruct (Qltb 0 (num (traits attacker) venom_power)) eqn:Ev);
    cbn [set_energy set_alive energy traits alive fst snd];
    match goal with |- context [Qleb ?e 0] => destruct (Qleb e 0) eqn:Ek end;
    (apply Qleb_true in Ek || apply Qleb_false in Ek);
    cbn [set_energy set_alive energy traits alive fst snd].
  all: split; [intros; lra|].
  all: split; [intros _|].
  all: try (intros H1 H2 H3 H4 H5; specialize (Hscen H1 H2 H4 H5);
            split; [lra | try discriminate H3; lra]).
  all: split; [lra|].
  all: split; [intros Hh;
               first [lra | split; [reflexivity|];
                            apply Q.min_compat; [reflexivity | ring]] |].
  all: split; [intros Hh; first [lra | split; [reflexivity | ring]] |].
  all: split; reflexivity.
Qed.

(** ** Random draws *)

Lemma random_Some k : random k = Some (rnd k, S k).
Proof. reflexivity. Qed.

Lemma randomInt_Some n k : randomInt n k = Some (Qfloor (rnd k * inject_Z n), S k).
Proof. reflexivity. Qed.

Lemma randomInt_range n k :
  unit_draws -> (0 < n)%Z ->
  (0 <= Qfloor (rnd k * inject_Z n) < n)%Z.
Proof.
  intros Hu Hn. destruct (Hu k) as [H0 H1].
  assert (Hn' : inject_Z 0 < inject_Z n) by (rewrite <- Zlt_Qlt; exact Hn).
  change (inject_Z 0) with 0 in Hn'.
  split.
  - change 0%Z with (Qfloor 0). apply Qfloor_resp_le. nra.
  - rewrite Zlt_Qlt. eapply Qle_lt_trans; [apply Qfloor_le|]. nra.
Qed.

Lemma index_Some {A} (arr : list A) (i : Z) :
  (0 <= i < Z.of_nat (length arr))%Z -> exists a, index arr i = Some a /\ a ∈ arr.
Proof.
  intros [H0 H1]. unfold index.
  destruct (i <? 0)%Z eqn:E; [apply Z.ltb_lt in E; lia|].
  destruct (lookup_lt_is_Some_2 arr (Z.to_nat i)) as [a Ha]; [lia|].
  exists a. split; [exact Ha|]. eapply list_elem_of_lookup_2; exact Ha.
Qed.

Lemma index_elem_of {A} (arr : list A) (i : Z) a : index arr i = Some a -> a ∈ arr.
Proof.
  unfold index. destruct (i <? 0)%Z; [discriminate|].
  intros Ha. eapply list_elem_of_lookup_2; exact Ha.
Qed.

(** A choice that returns consumed one draw and returned an element. *)
Lemma randomChoice_Some {A} (arr : list A) k a k' :
  randomChoice arr k = Some (a, k') -> a ∈ arr /\ k' = S k.
Proof.
  unfold randomChoice. intros H. apply bind_Some in H as (i & k1 & Hi & H).
  rewrite randomInt_Some in Hi. injection Hi as <- <-.
  destruct (index arr _) as [a'|] eqn:E; [|discriminate].
  injection H as <- <-. split; [eapply index_elem_of; exact E | reflexivity].
Qed.

(** With draws in the unit interval a choice in a non-empty array returns. *)
Lemma randomChoice_total {A} (arr : list A) k :
  unit_draws -> arr <> [] ->
  exists a, randomChoice arr k = Some (a, S k) /\ a ∈ arr.
Proof.
  intros Hu Hne. unfold randomChoice, bind. rewrite randomInt_Some.
  destruct (index_Some arr (Qfloor (rnd k * inject_Z (Z.of_nat (length arr)))))
    as (a & Ha & Hin).
  { apply randomInt_range; [exact Hu|]. destruct arr; [congruence | simpl; lia]. }
  exists a. rewrite Ha. split; [reflexivity | exact Hin].
Qed.

(** ** Mutation clamps *)

Lemma num_set_num_eq key v t : num (set_num key v t) key = v.
Proof. unfold set_num; simpl. destruct (decide (key = key)); congruence. Qed.

Lemma num_set_num_ne key v t k : k <> key -> num (set_num key v t) k = num t k.
Proof. intros H. unfold set_num; simpl. destruct (decide (k = key)); congruence. Qed.

Lemma set_clamp_field (P : Q -> Prop) f key v t :
  P (clamp f v) -> P (num t f) -> P (num (set_num key (clamp key v) t) f).
Proof.
  intros Hc Ht. destruct (decide (f = key)) as [<-|Hne].
  - rewrite num_set_num_eq. exact Hc.
  - rewrite num_set_num_ne by exact Hne. exact Ht.
Qed.

Lemma clamp_within key v t :
  within_clamps t -> within_clamps (set_num key (clamp key v) t).
Proof.
  unfold within_clamps. intros (H1 & H2 & H3 & H4 & H5 & H6 & H7).
  repeat split.
  all: match goal with
       | |- context [num _ ?f] =>
           pattern (num (set_num key (clamp key v) t) f);
           apply set_clamp_field; [unfold clamp; qminmax; lra | tauto]
       end.
Qed.

Lemma metabolism_within v t :
  within_clamps t -> within_clamps (set_num metabolism_rate v t).
Proof.
  unfold within_clamps. intros H.
  repeat (rewrite num_set_num_ne by discriminate). exact H.
Qed.

Lemma mutateNumeric_within t k t' k' :
  mutateNumeric t k = Some (t', k') -> within_clamps t -> within_clamps t'.
Proof.
  unfold mutateNumeric. intros H Ht.
  apply bind_Some in H as (key & k1 & _ & H).
  apply bind_Some in H as (r & k2 & _ & H).
  injection H as <- <-. apply clamp_within, Ht.
Qed.

Lemma mutateNumeric_total t k :
  unit_draws -> exists t', mutateNumeric t k = Some (t', S (S k)).
Proof.
  intros Hu. unfold mutateNumeric, bind.
  destruct (randomChoice_total MUTABLE_NUMERIC_TRAITS k Hu) as (key & -> & _);
    [discriminate|].
  rewrite random_Some. eexists. reflexivity.
Qed.

Lemma applyMutation_within t k t' k' :
  applyMutation t k = Some (t', k') -> within_clamps t -> within_clamps t'.
Proof.
  unfold applyMutation. intros H Ht.
  apply bind_Some in H as (r & k1 & _ & H).
  apply bind_Some in H as (t1 & k2 & H1 & H).
  assert (Ht1 : within_clamps t1).
  { destruct (Qltb r 0.05).
    - apply bind_Some in H1 as (key & k3 & _ & H1). injection H1 as <- <-. exact Ht.
    - injection H1 as <- <-. exact Ht. }
  apply bind_Some in H as (r2 & k3 & _ & H).
  apply bind_Some in H as (t2 & k4 & H2 & H).
  apply mutateNumeric_within in H2; [|exact Ht1].
  apply bind_Some in H as (t3 & k5 & H3 & H).
  assert (Ht3 : within_clamps t3).
  { destruct (Qltb r2 0.3).
    - eapply mutateNumeric_within; eassumption.
    - injection H3 as <- <-. exact H2. }
  injection H as <- <-. apply metabolism_within, Ht3.
Qed.

Lemma applyMutation_total t k :
  unit_draws -> exists t' k', applyMutation t k = Some (t', k').
Proof.
  intros Hu. unfold applyMutation. unfold bind at 1. rewrite random_Some.
  unfold bind at 1.
  assert (H1 : exists t1 k1,
             (if Qltb (rnd k) 0.05
              then let* key := randomChoice MUTABLE_BOOLEAN_TRAITS in
                   ret (set_flag key (negb (flag t key)) t)
              else ret t) (S k) = Some (t1, k1)).
  { destruct (Qltb (rnd k) 0.05).
    - unfold bind.
      destruct (randomChoice_total MUTABLE_BOOLEAN_TRAITS (S k) Hu) as (key & -> & _);
        [discriminate|]. eexists _, _. reflexivity.
    - eexists _, _. reflexivity. }
  destruct H1 as (t1 & k1 & ->).
  unfold bind at 1. rewrite random_Some. unfold bind at 1.
  destruct (mutateNumeric_total t1 (S k1) Hu) as (t2 & ->).
  unfold bind at 1.
  destruct (Qltb (rnd k1) 0.3).
  - destruct (mutateNumeric_total t2 (S (S (S k1))) Hu) as (t3 & ->).
    eexists _, _. reflexivity.
  - eexists _, _. reflexivity.
Qed.

Lemma mutateNumeric_others t k t' k' key :
  mutateNumeric t k = Some (t', k') ->
  key ∉ MUTABLE_NUMERIC_TRAITS -> num t' key = num t key.
Proof.
  unfold mutateNumeric. intros H Hkey.
  apply bind_Some in H as (key' & k1 & Hc & H).
  apply bind_Some in H as (r & k2 & _ & H).
  injection H as <- <-. apply randomChoice_Some in Hc as [Hin _].
  apply num_set_num_ne. intros ->. exact (Hkey Hin).
Qed.

(** A mutation leaves every numeric trait outside its list as it is,
    except the metabolism rate, which it recomputes. *)
Lemma applyMutation_others t k t' k' key :
  applyMutation t k = Some (t', k') ->
  key ∉ MUTABLE_NUMERIC_TRAITS -> key <> metabolism_rate ->
  num t' key = num t key.
Proof.
  unfold applyMutation. intros H Hkey Hm.
  apply bind_Some in H as (r & k1 & _ & H).
  apply bind_Some in H as (t1 & k2 & H1 & H).
  assert (Ht1 : num t1 key = num t key).
  { destruct (Qltb r 0.05).
    - apply bind_Some in H1 as (bk & k3 & _ & H1). injection H1 as <- <-. reflexivity.
    - injection H1 as <- <-. reflexivity. }
  apply bind_Some in H as (r2 & k3 & _ & H).
  apply bind_Some in H as (t2 & k4 & H2 & H).
  apply (mutateNumeric_others _ _ _ _ key) in H2; [|exact Hkey].
  apply bind_Some in H as (t3 & k5 & H3 & H).
  assert (Ht3 : num t3 key = num t2 key).
  { destruct (Qltb r2 0.3).
    - eapply mutateNumeric_others; eassumption.
    - injection H3 as <- <-. reflexivity. }
  injection H as <- <-. rewrite num_set_num_ne by exact Hm. congruence.
Qed.

(** C8. For every genome within the clamp table, any number of successive
    mutations returns, and returns a genome within the clamp table:
    size in [0.3, 3], max_speed in [0.2, 4], armor in [0, 5],
    attack_damage >= 0.1, offspring_per_cycle in [1, 5], repro_cooldown in
    [80, 500] and vision_radius in [3, 20], whatever the random draws. *)
Theorem mutations_within_clamps (n : nat) (t : Traits) (k : nat) :
  within_clamps t ->
  (forall t' k', mutations n t k = Some (t', k') -> within_clamps t') /\
  (unit_draws -> exists t' k', mutations n t k = Some (t', k') /\ within_clamps t').
Proof.
  revert t k. induction n as [|n IH]; intros t k Ht.
  - split.
    + intros t' k' H. injection H as <- <-. exact Ht.
    + intros _. exists t, k. split; [reflexivity | exact Ht].
  - split.
    + intros t' k' H. simpl in H. apply bind_Some in H as (t1 & k1 & H1 & H).
      apply applyMutation_within in H1; [|exact Ht].
      exact (proj1 (IH t1 k1 H1) t' k' H).
    + intros Hu. destruct (applyMutation_total t k Hu) as (t1 & k1 & H1).
      pose proof (applyMutation_within _ _ _ _ H1 Ht) as Ht1.
      destruct (proj2 (IH t1 k1 Ht1) Hu) as (t' & k' & H & Ht').
      exists t', k'. split; [|exact Ht'].
      simpl. unfold bind. rewrite H1. exact H.
Qed.

(** ** World generation *)

Lemma Set_add_elem b b' chosen : b' ∈ Set_add b chosen <-> b' = b \/ b' ∈ chosen.
Proof.
  unfold Set_add. destruct (decide (b ∈ chosen)) as [Hin|Hnin].
  - split; [auto|]. intros [->|H]; assumption.
  - rewrite elem_of_app, list_elem_of_singleton. tauto.
Qed.

Lemma Set_add_NoDup b chosen : NoDup chosen -> NoDup (Set_add b chosen).
Proof.
  intros H. unfold Set_add. destruct (decide (b ∈ chosen)) as [Hin|Hnin]; [exact H|].
  apply NoDup_app. split; [exact H|]. split; [|apply NoDup_singleton].
  intros b' Hb' Hs. apply list_elem_of_singleton in Hs. subst. contradiction.
Qed.

Lemma Set_add_length b chosen :
  (length chosen <= length (Set_add b chosen) <= S (length chosen))%nat.
Proof.
  unfold Set_add. destruct (decide (b ∈ chosen)); [lia|].
  rewrite length_app. simpl. lia.
Qed.

(** The palette loop returns a duplicate-free extension of the set it
    starts from, with exactly the target number of biomes. *)
Lemma generateBiomes_loop_spec fuel n chosen k pal k' :
  generateBiomes_loop fuel n chosen k = Some (pal, k') ->
  NoDup chosen -> (Z.of_nat (length chosen) <= n)%Z ->
  NoDup pal /\ (forall b, b ∈ chosen -> b ∈ pal) /\ Z.of_nat (length pal) = n.
Proof.
  revert chosen k. induction fuel as [|fuel IH]; intros chosen k H Hnd Hlen; simpl in H.
  - destruct (Z.ltb_spec (Z.of_nat (length chosen)) n); [discriminate|].
    injection H as <- <-. split; [exact Hnd|]. split; [auto | lia].
  - destruct (Z.ltb_spec (Z.of_nat (length chosen)) n) as [Hlt|Hge].
    + apply bind_Some in H as (b & k1 & _ & H).
      pose proof (Set_add_length b chosen) as Hl.
      apply IH in H as (Hnd' & Hsub & Hn); [|apply Set_add_NoDup; exact Hnd | lia].
      split; [exact Hnd'|]. split; [|exact Hn].
      intros b' Hb'. apply Hsub. apply Set_add_elem. right. exact Hb'.
    + injection H as <- <-. split; [exact Hnd|]. split; [auto | lia].
Qed.

(** More fuel does not change what the palette loop returns. *)
Lemma generateBiomes_loop_fuel fuel fuel' n chosen k r :
  (fuel <= fuel')%nat ->
  generateBiomes_loop fuel n chosen k = Some r ->
  generateBiomes_loop fuel' n chosen k = Some r.
Proof.
  revert fuel' chosen k. induction fuel as [|fuel IH]; intros fuel' chosen k Hle H.
  - simpl in H. destruct (Z.of_nat (length chosen) <? n)%Z eqn:E; [discriminate|].
    destruct fuel'; simpl; rewrite E; exact H.
  - destruct fuel' as [|fuel']; [lia|]. simpl in *.
    destruct (Z.of_nat (length chosen) <? n)%Z; [|exact H].
    unfold bind in *. destruct (randomChoice BIOMES k) as [[b k1]|]; [|discriminate].
    apply IH; [lia | exact H].
Qed.

Lemma generateBiomes_spec fuel k pal k' :
  unit_draws ->
  generateBiomes fuel k = Some (pal, k') ->
  water ∈ pal /\ NoDup pal /\ (2 <= length pal <= 4)%nat.
Proof.
  intros Hu H. unfold generateBiomes in H.
  apply bind_Some in H as (n & k1 & Hn & H).
  rewrite randomInt_Some in Hn. apply Some_pair_eq in Hn as [<- <-].
  pose proof (randomInt_range 3 k Hu ltac:(lia)) as Hr.
  apply generateBiomes_loop_spec in H as (Hnd & Hsub & Hlen).
  - split; [apply Hsub; apply list_elem_of_singleton; reflexivity|].
    split; [exact Hnd | lia].
  - apply NoDup_singleton.
  - change (Z.of_nat (length [water])) with 1%Z. lia.
Qed.

Lemma filter_elem_of {A} (p : A -> bool) (l : list A) a :
  a ∈ List.filter p l <-> a ∈ l /\ p a = true.
Proof. rewrite !list_elem_of_In. apply List.filter_In. Qed.

Lemma generateSeed_biome allowed i k s k' :
  generateSeed allowed i k = Some (s, k') ->
  water ∈ allowed -> biome s ∈ allowed.
Proof.
  unfold generateSeed. intros H Hw.
  apply bind_Some in H as (sx & k1 & _ & H).
  apply bind_Some in H as (sy & k2 & _ & H).
  apply bind_Some in H as (b & k3 & Hb & H).
  injection H as <- <-. cbn [biome].
  destruct i as [|i].
  - injection Hb as <- <-. exact Hw.
  - apply bind_Some in Hb as (b0 & k4 & Hc & Hb).
    apply randomChoice_Some in Hc as [Hin _].
    destruct (decide (b0 = water)) as [->|Hne].
    + apply bind_Some in Hb as (r & k5 & _ & Hb).
      destruct (Qltb r 0.6 && _).
      * apply randomChoice_Some in Hb as [Hf _].
        apply filter_elem_of in Hf. tauto.
      * injection Hb as <- <-. exact Hw.
    + injection Hb as <- <-. exact Hin.
Qed.

Lemma generateSeeds_biomes allowed n i k seeds k' :
  generateSeeds allowed n i k = Some (seeds, k') ->
  water ∈ allowed ->
  length seeds = n /\ Forall (fun s => biome s ∈ allowed) seeds.
Proof.
  revert i k seeds. induction n as [|n IH]; intros i k seeds H Hw; simpl in H.
  - injection H as <- <-. split; [reflexivity | constructor].
  - apply bind_Some in H as (s & k1 & Hs & H).
    apply bind_Some in H as (rest & k2 & Hrest & H).
    injection H as <- <-. apply IH in Hrest as [Hlen Hall]; [|exact Hw].
    split; [simpl; now rewrite Hlen|].
    constructor; [eapply generateSeed_biome; eassumption | exact Hall].
Qed.

Lemma bestSeed_fold tx ty seeds acc s :
  fst (fold_left (bestSeed_step tx ty) seeds acc) = Some s ->
  fst acc = Some s \/ s ∈ seeds.
Proof.
  revert acc. induction seeds as [|s0 seeds IH]; intros acc H; simpl in H; [now left|].
  apply IH in H as [H|H]; [|right; now apply elem_of_cons; right].
  unfold bestSeed_step in H. destruct (snd acc) as [best|].
  - destruct (_ <? best)%Z; [|now left].
    simpl in H. injection H as <-. right. apply elem_of_cons. now left.
  - simpl in H. injection H as <-. right. apply elem_of_cons. now left.
Qed.

Lemma bestSeed_elem_of seeds tx ty s : bestSeed seeds tx ty = Some s -> s ∈ seeds.
Proof.
  intros H. apply bestSeed_fold in H as [H|H]; [discriminate H | exact H].
Qed.

Lemma bestSeed_fold_some tx ty seeds acc :
  is_Some (fst acc) -> is_Some (snd acc) ->
  is_Some (fst (fold_left (bestSeed_step tx ty) seeds acc)).
Proof.
  revert acc. induction seeds as [|s0 seeds IH]; intros acc H1 H2; simpl; [exact H1|].
  assert (Hstep : is_Some (fst (bestSeed_step tx ty acc s0)) /\
                  is_Some (snd (bestSeed_step tx ty acc s0))).
  { unfold bestSeed_step. destruct (snd acc) as [best|] eqn:E.
    - destruct (_ <? best)%Z; simpl; [eauto|]. rewrite E. eauto.
    - simpl. eauto. }
  apply IH; apply Hstep.
Qed.

Lemma bestSeed_total seeds tx ty : seeds <> [] -> is_Some (bestSeed seeds tx ty).
Proof.
  destruct seeds as [|s0 seeds]; [congruence|]. intros _.
  unfold bestSeed. simpl. apply bestSeed_fold_some; unfold bestSeed_step; simpl; eauto.
Qed.

Lemma generateRow_spec seeds ty row :
  generateRow seeds ty = Some row ->
  length row = Z.to_nat WORLD_WIDTH /\
  Forall (fun b => exists s, s ∈ seeds /\ b = biome s) row.
Proof.
  unfold generateRow, upto. intros H. apply mapM_Some_1 in H.
  split.
  - rewrite <- (Forall2_length _ _ _ H). apply length_seqZ.
  - induction H as [|tx b l row Hb _ IH]; constructor; [|exact IH].
    destruct (bestSeed seeds tx ty) as [s|] eqn:E; [|discriminate].
    injection Hb as <-. exists s. split; [eapply bestSeed_elem_of; exact E | reflexivity].
Qed.

Lemma generateGrid_spec seeds grid :
  generateGrid seeds = Some grid ->
  length grid = Z.to_nat WORLD_HEIGHT /\
  Forall (fun row => length row = Z.to_nat WORLD_WIDTH /\
                     Forall (fun b => exists s, s ∈ seeds /\ b = biome s) row) grid.
Proof.
  unfold generateGrid, upto. intros H. apply mapM_Some_1 in H.
  split.
  - rewrite <- (Forall2_length _ _ _ H). apply length_seqZ.
  - induction H as [|ty row l grid Hrow _ IH]; constructor; [|exact IH].
    eapply generateRow_spec. exact Hrow.
Qed.

Lemma generateGrid_total seeds : seeds <> [] -> is_Some (generateGrid seeds).
Proof.
  intros Hne. unfold generateGrid. apply mapM_is_Some. apply Forall_forall.
  intros ty _. unfold generateRow. apply mapM_is_Some. apply Forall_forall.
  intros tx _. destruct (bestSeed_total seeds tx ty Hne) as [s Hs].
  unfold compose. rewrite Hs. simpl. eauto.
Qed.

Lemma generateSeed_total allowed i k :
  unit_draws -> water ∈ allowed -> NoDup allowed -> (2 <= length allowed)%nat ->
  exists s k', generateSeed allowed i k = Some (s, k').
Proof.
  intros Hu Hw Hnd Hlen. unfold generateSeed.
  unfold bind at 1. rewrite randomInt_Some.
  unfold bind at 1. rewrite randomInt_Some.
  unfold bind at 1.
  destruct i as [|i]; [eexists _, _; reflexivity|].
  unfold bind at 1.
  destruct (randomChoice_total allowed (S (S k)) Hu) as (b & -> & _).
  { destruct allowed; [simpl in Hlen; lia | discriminate]. }
  destruct (decide (b = water)) as [->|Hne]; [|eexists _, _; reflexivity].
  unfold bind at 1. rewrite random_Some.
  destruct (Qltb _ 0.6 && _); [|eexists _, _; reflexivity].
  destruct (randomChoice_total
              (List.filter (fun b' => negb (bool_decide (b' = water))) allowed)
              (S (S (S (S k)))) Hu) as (b & -> & _); [|eexists _, _; reflexivity].
  intros Hnil.
  assert (Hall : forall b, b ∈ allowed -> b = water).
  { intros b Hb. destruct (decide (b = water)) as [E|E]; [exact E|].
    assert (Hf : b ∈ List.filter (fun b' => negb (bool_decide (b' = water))) allowed).
    { apply filter_elem_of. split; [exact Hb|].
      apply negb_true_iff. apply bool_decide_eq_false. exact E. }
    rewrite Hnil in Hf. inversion Hf. }
  destruct allowed as [|b1 [|b2 rest]]; simpl in Hlen; try lia.
  assert (E1 : b1 = water) by (apply Hall; apply elem_of_cons; now left).
  assert (E2 : b2 = water).
  { apply Hall. apply elem_of_cons. right. apply elem_of_cons. now left. }
  subst. apply NoDup_cons in Hnd as [Hnin _]. apply Hnin. apply elem_of_cons. now left.
Qed.

Lemma generateSeeds_total allowed n i k :
  unit_draws -> water ∈ allowed -> NoDup allowed -> (2 <= length allowed)%nat ->
  exists seeds k', generateSeeds allowed n i k = Some (seeds, k').
Proof.
  intros Hu Hw Hnd Hlen. revert i k. induction n as [|n IH]; intros i k; simpl.
  - eexists _, _. reflexivity.
  - unfold bind at 1.
    destruct (generateSeed_total allowed i k Hu Hw Hnd Hlen) as (s & k1 & ->).
    unfold bind at 1. destruct (IH (S i) k1) as (rest & k2 & ->).
    eexists _, _. reflexivity.
Qed.

(** C9. For any generated world, whatever the width, the height and the
    random draws: the palette contains Water, holds between 2 and 4
    biomes, all distinct, and every cell of the grid holds a biome of the
    palette; the grid has WORLD_HEIGHT rows of WORLD_WIDTH cells.  Once the
    palette is chosen the rest of the generation always returns. *)
Theorem generated_world_uses_palette fuel k :
  unit_draws ->
  (forall pal grid k',
     generateWorld fuel k = Some ((pal, grid), k') ->
     water ∈ pal /\ NoDup pal /\ (2 <= length pal <= 4)%nat /\
     (forall row b, row ∈ grid -> b ∈ row -> b ∈ pal) /\
     length grid = Z.to_nat WORLD_HEIGHT /\
     (forall row, row ∈ grid -> length row = Z.to_nat WORLD_WIDTH)) /\
  (forall pal k1,
     generateBiomes fuel k = Some (pal, k1) ->
     exists grid k', generateWorld fuel k = Some ((pal, grid), k')).
Proof.
  intros Hu. split.
  - intros pal grid k' H. unfold generateWorld in H.
    apply bind_Some in H as (pal0 & k1 & Hpal & H).
    apply bind_Some in H as (grid0 & k2 & Hgrid & H).
    injection H as <- <- <-.
    destruct (generateBiomes_spec _ _ _ _ Hu Hpal) as (Hw & Hnd & Hlen).
    split; [exact Hw|]. split; [exact Hnd|]. split; [exact Hlen|].
    unfold generateWorldFrom in Hgrid.
    apply bind_Some in Hgrid as (seeds & k3 & Hseeds & Hgrid).
    destruct (generateGrid seeds) as [g|] eqn:Eg; [|discriminate].
    injection Hgrid as <- <-.
    apply generateSeeds_biomes in Hseeds as [_ Hall]; [|exact Hw].
    apply generateGrid_spec in Eg as [Hrows Hcells].
    rewrite Forall_forall in Hcells. rewrite Forall_forall in Hall.
    split; [|split; [exact Hrows|]].
    + intros row b Hrow Hb. destruct (Hcells row Hrow) as [_ Hrowcells].
      rewrite Forall_forall in Hrowcells.
      destruct (Hrowcells b Hb) as (s & Hs & ->). exact (Hall s Hs).
    + intros row Hrow. apply (Hcells row Hrow).
  - intros pal k1 Hpal. unfold generateWorld, bind. rewrite Hpal.
    destruct (generateBiomes_spec _ _ _ _ Hu Hpal) as (Hw & Hnd & Hlen).
    unfold generateWorldFrom, bind.
    destruct (generateSeeds_total pal (length pal * 3) 0 k1 Hu Hw Hnd ltac:(lia))
      as (seeds & k2 & Hseeds).
    rewrite Hseeds.
    destruct (generateSeeds_biomes _ _ _ _ _ _ Hseeds Hw) as [Hslen _].
    destruct (generateGrid_total seeds) as [grid ->].
    { intros ->. simpl in Hslen. lia. }
    eexists _, _. reflexivity.
Qed.

(** ** Terrain lookup and movement *)

Section Terrain.

Variable world : list (list Biome).

Lemma grid_cases tx ty : in_grid tx ty \/ off_grid tx ty.
Proof. unfold in_grid, off_grid. lia. Qed.

Lemma getBiome_outside tx ty : off_grid tx ty -> getBiome world tx ty = fields.
Proof.
  unfold off_grid, getBiome. intros H.
  destruct (ty <? 0)%Z eqn:E1; [reflexivity|].
  destruct (ty >=? WORLD_HEIGHT)%Z eqn:E2; [reflexivity|].
  destruct (tx <? 0)%Z eqn:E3; [reflexivity|].
  destruct (tx >=? WORLD_WIDTH)%Z eqn:E4; [reflexivity|].
  apply Z.ltb_ge in E1, E3. rewrite Z.geb_leb in E2, E4.
  apply Z.leb_gt in E2, E4. lia.
Qed.

Lemma getBiome_inside tx ty :
  in_grid tx ty -> getBiome world tx ty = world_at world tx ty.
Proof.
  unfold in_grid, getBiome. intros [Hx Hy].
  destruct (ty <? 0)%Z eqn:E1; [apply Z.ltb_lt in E1; lia|].
  destruct (ty >=? WORLD_HEIGHT)%Z eqn:E2;
    [rewrite Z.geb_leb in E2; apply Z.leb_le in E2; lia|].
  destruct (tx <? 0)%Z eqn:E3; [apply Z.ltb_lt in E3; lia|].
  destruct (tx >=? WORLD_WIDTH)%Z eqn:E4;
    [rewrite Z.geb_leb in E4; apply Z.leb_le in E4; lia|].
  reflexivity.
Qed.

Lemma getBiome_water_in_grid tx ty : getBiome world tx ty = water -> in_grid tx ty.
Proof.
  intros H. destruct (grid_cases tx ty) as [Hin|Hout]; [exact Hin|].
  rewrite (getBiome_outside _ _ Hout) in H. discriminate H.
Qed.

Lemma clamp_in_grid tx ty : in_grid tx ty -> clampX tx = tx /\ clampY ty = ty.
Proof. unfold in_grid, clampX, clampY. lia. Qed.

Lemma clamp_lands_in_grid tx ty :
  (0 < WORLD_WIDTH)%Z -> (0 < WORLD_HEIGHT)%Z -> in_grid (clampX tx) (clampY ty).
Proof. unfold in_grid, clampX, clampY. lia. Qed.

(** What [moveTo] does: the creature stays, or it takes the clamped
    destination, whose biome its mode allows. *)
Lemma moveTo_cases c nx ny :
  (moveTo world c nx ny = c /\ ~ mode_ok (movementMode c) (getBiome world nx ny)) \/
  (moveTo world c nx ny = set_pos (clampX nx) (clampY ny) c /\
   mode_ok (movementMode c) (getBiome world nx ny)).
Proof.
  unfold moveTo, mode_ok. destruct (movementMode c).
  - destruct (bool_decide_reflect (getBiome world nx ny = water)) as [E|E]; simpl.
    + left. split; [reflexivity | tauto].
    + right. split; [reflexivity | exact E].
  - destruct (bool_decide_reflect (getBiome world nx ny = water)) as [E|E]; simpl.
    + right. split; [reflexivity | exact E].
    + left. split; [reflexivity | exact E].
Qed.

(** What [movement] does: one draw and no step, or two draws and an
    attempt at the destination of the drawn direction. *)
Lemma movement_cases c k :
  let stepChance := 0.2 + num (traits c) curiosity * 0.3 in
  let dir := Qfloor (rnd (S k) * inject_Z 8) in
  (stepChance <= rnd k /\ movement world c k = Some (c, S k)) \/
  (rnd k < stepChance /\
   movement world c k =
     Some (moveTo world c (fst (destination (x c) (y c) dir))
                          (snd (destination (x c) (y c) dir)), S (S k))).
Proof.
  cbv zeta. unfold movement, bind. rewrite random_Some.
  destruct (Qltb (rnd k) _) eqn:E.
  - right. apply Qltb_true in E. split; [exact E|].
    rewrite randomInt_Some.
    destruct (destination (x c) (y c) _) as [nx ny]. reflexivity.
  - left. apply Qltb_false in E. split; [exact E | reflexivity].
Qed.

Lemma movement_total c k : exists c' k', movement world c k = Some (c', k').
Proof.
  destruct (movement_cases c k) as [[_ ->]|[_ ->]]; eexists _, _; reflexivity.
Qed.

(** C10. Outside the grid [getBiome] answers Fields instead of reading the
    grid.  Hence, when the random walk draws a destination outside the
    grid, a terrestrial creature accepts it and takes the coordinates
    clamped to the grid, while an aquatic creature stays where it is.
    Clamping brings each coordinate to the nearest one of the grid: a
    negative one to 0, one past the last column or row to that column or
    row, and it leaves a coordinate of the grid alone; so the tile taken
    is the tile of the grid nearest to the destination on each axis. *)
Theorem getBiome_totalizes_off_grid :
  (forall tx ty, off_grid tx ty -> getBiome world tx ty = fields) /\
  (forall c k,
     let dir := Qfloor (rnd (S k) * inject_Z 8) in
     let nx := fst (destination (x c) (y c) dir) in
     let ny := snd (destination (x c) (y c) dir) in
     rnd k < 0.2 + num (traits c) curiosity * 0.3 ->
     off_grid nx ny ->
     movement world c k =
       Some (match movementMode c with
             | terrestrial => set_pos (clampX nx) (clampY ny) c
             | aquatic => c
             end, S (S k)) /\
     ((0 < WORLD_WIDTH)%Z -> (0 < WORLD_HEIGHT)%Z ->
      in_grid (clampX nx) (clampY ny))) /\
  (forall nx ny,
     (0 < WORLD_WIDTH)%Z -> (0 < WORLD_HEIGHT)%Z ->
     ((nx < 0)%Z -> clampX nx = 0%Z) /\
     ((0 <= nx < WORLD_WIDTH)%Z -> clampX nx = nx) /\
     ((WORLD_WIDTH <= nx)%Z -> clampX nx = (WORLD_WIDTH - 1)%Z) /\
     ((ny < 0)%Z -> clampY ny = 0%Z) /\
     ((0 <= ny < WORLD_HEIGHT)%Z -> clampY ny = ny) /\
     ((WORLD_HEIGHT <= ny)%Z -> clampY ny = (WORLD_HEIGHT - 1)%Z) /\
     forall tx ty, in_grid tx ty ->
       (Z.abs (clampX nx - nx) <= Z.abs (tx - nx))%Z /\
       (Z.abs (clampY ny - ny) <= Z.abs (ty - ny))%Z).
Proof.
  split; [exact getBiome_outside|]. split.
  - intros c k dir nx ny Hr Hout.
    split; [|apply clamp_lands_in_grid].
    destruct (movement_cases c k) as [[Hge _]|[_ ->]]; [lra|].
    fold dir. fold nx ny. f_equal. f_equal.
    unfold moveTo. rewrite (getBiome_outside _ _ Hout).
    destruct (movementMode c); reflexivity.
  - intros nx ny HW HH. unfold clampX, clampY, in_grid.
    repeat split; intros; lia.
Qed.

End Terrain.

(** ** Searches in the creature array *)

Lemma find_from_Some {A} (p : nat -> A -> bool) (l : list A) from j :
  find_from p from l = Some j ->
  (from <= j)%nat /\
  exists a, l !! (j - from)%nat = Some a /\ p j a = true /\
    forall m a', (m < j - from)%nat -> l !! m = Some a' -> p (from + m)%nat a' = false.
Proof.
  revert from. induction l as [|a l IH]; intros from H; simpl in H; [discriminate|].
  destruct (p from a) eqn:E.
  - injection H as <-. split; [lia|]. exists a. rewrite Nat.sub_diag.
    split; [reflexivity|]. split; [exact E|]. intros m a' Hm. lia.
  - apply IH in H as (Hle & a0 & Hl & Hp & Hfirst). split; [lia|].
    exists a0. replace (j - from)%nat with (S (j - S from)) by lia.
    split; [exact Hl|]. split; [exact Hp|].
    intros [|m] a' Hm Hl'.
    + simpl in Hl'. injection Hl' as <-. rewrite Nat.add_0_r. exact E.
    + simpl in Hl'. replace (from + S m)%nat with (S from + m)%nat by lia.
      apply Hfirst; [lia | exact Hl'].
Qed.

Lemma find_from_None {A} (p : nat -> A -> bool) (l : list A) from :
  find_from p from l = None ->
  forall m a, l !! m = Some a -> p (from + m)%nat a = false.
Proof.
  revert from. induction l as [|a l IH]; intros from H m a' Hl; [discriminate Hl|].
  simpl in H. destruct (p from a) eqn:E; [discriminate|].
  destruct m as [|m]; simpl in Hl.
  - injection Hl as <-. rewrite Nat.add_0_r. exact E.
  - replace (from + S m)%nat with (S from + m)%nat by lia. eapply IH; eassumption.
Qed.

(** A search from the start returns the first index that passes. *)
Lemma find_first {A} (p : nat -> A -> bool) (l : list A) j :
  find_from p 0 l = Some j ->
  exists a, l !! j = Some a /\ p j a = true /\
    forall m a', (m < j)%nat -> l !! m = Some a' -> p m a' = false.
Proof.
  intros H. apply find_from_Some in H as (_ & a & Hl & Hp & Hfirst).
  rewrite Nat.sub_0_r in Hl, Hfirst. exists a.
  split; [exact Hl|]. split; [exact Hp|].
  intros m a' Hm Hl'. exact (Hfirst m a' Hm Hl').
Qed.

Lemma find_exists {A} (p : nat -> A -> bool) (l : list A) m a :
  l !! m = Some a -> p m a = true -> exists j, find_from p 0 l = Some j.
Proof.
  intros Hl Hp. destruct (find_from p 0 l) as [j|] eqn:E; [now exists j|].
  pose proof (find_from_None p l 0 E m a Hl) as H. simpl in H. congruence.
Qed.

Lemma eligibleMate_spec c i j other :
  eligibleMate c i j other = true <-> is_mate_for c i j other.
Proof.
  unfold eligibleMate, is_mate_for.
  destruct (alive other); simpl; [|intuition congruence].
  destruct (Nat.eqb_spec j i); [intuition congruence|].
  destruct (Z.eqb_spec (speciesId other) (speciesId c)); simpl; [|intuition congruence].
  destruct (bool_decide_reflect (sex other = sex c)); [intuition congruence|].
  destruct (Z.ltb_spec 1 (Z.abs (x other - x c))); simpl; [intuition (try congruence; lia)|].
  destruct (Z.ltb_spec 1 (Z.abs (y other - y c))); simpl; [intuition (try congruence; lia)|].
  destruct (Qltb _ _) eqn:E; [apply Qltb_true in E | apply Qltb_false in E].
  - split; [discriminate|]. intros (_ & _ & _ & _ & _ & _ & Hen). lra.
  - intuition.
Qed.

Lemma nearby_spec c i r2 j other :
  nearby c i r2 j other = true ->
  alive other = true /\ j <> i /\
  ((x other - x c) * (x other - x c) + (y other - y c) * (y other - y c) <= r2)%Z.
Proof.
  unfold nearby. destruct (alive other); simpl; [|discriminate].
  destruct (Nat.eqb_spec j i); [discriminate|].
  intros H. apply Z.leb_le in H. auto.
Qed.

(** ** Reproduction *)

Section Registry.

Variable world : list (list Biome).
Variable speciesList : list Species.

Lemma mixTraits_Some a b k :
  exists t, mixTraits a b k = Some (t, S (S (S (S k)))) /\
            forall key, num t key = (num a key + num b key) / 2.
Proof. unfold mixTraits, bind. rewrite !random_Some. eexists. split; reflexivity. Qed.

Lemma makeChild_Some creature mate k child k' :
  makeChild speciesList creature mate k = Some (child, k') ->
  is_child_of speciesList creature mate child.
Proof.
  unfold makeChild. intros H.
  apply bind_Some in H as (r & k1 & _ & H).
  apply bind_Some in H as (t & k2 & Ht & H).
  apply bind_Some in H as (r' & k3 & _ & H).
  apply bind_Some in H as (t' & k4 & Ht' & H).
  destruct (index speciesList (speciesId creature)) as [species|] eqn:E; [|discriminate].
  injection H as <- <-. exists species. eexists _, t'.
  split; [exact E|]. split; [reflexivity|].
  intros key Hkey Hm.
  destruct (mixTraits_Some (traits creature) (traits mate) k1) as (t0 & Ht0 & Hmean).
  rewrite Ht0 in Ht. injection Ht as <- <-.
  rewrite <- Hmean. destruct (Qltb r' 0.4).
  - eapply applyMutation_others; eassumption.
  - injection Ht' as <- <-. reflexivity.
Qed.

Lemma makeChild_total creature mate k species :
  unit_draws -> index speciesList (speciesId creature) = Some species ->
  exists child k', makeChild speciesList creature mate k = Some (child, k').
Proof.
  intros Hu Hs. unfold makeChild. unfold bind at 1. rewrite random_Some.
  unfold bind at 1.
  destruct (mixTraits_Some (traits creature) (traits mate) (S k)) as (t & -> & _).
  unfold bind at 1. rewrite random_Some. unfold bind at 1. rewrite Hs.
  destruct (Qltb _ 0.4).
  - destruct (applyMutation_total t (S (S (S (S (S (S k)))))) Hu) as (t' & k' & ->).
    eexists _, _. reflexivity.
  - eexists _, _. reflexivity.
Qed.

Lemma spawnOffspring_Some n creature mate cs k cs' k' :
  spawnOffspring speciesList n creature mate cs k = Some (cs', k') ->
  exists children,
    cs' = cs ++ children /\ length children = n /\
    Forall (is_child_of speciesList creature mate) children.
Proof.
  revert cs k. induction n as [|n IH]; intros cs k H; simpl in H.
  - injection H as <- <-. exists []. rewrite app_nil_r. repeat split. constructor.
  - apply bind_Some in H as (child & k1 & Hc & H).
    apply IH in H as (children & -> & Hlen & Hall).
    exists (child :: children). rewrite <- app_assoc. simpl.
    split; [reflexivity|]. split; [now rewrite Hlen|].
    constructor; [eapply makeChild_Some; exact Hc | exact Hall].
Qed.

Lemma spawnOffspring_total n creature mate cs k species :
  unit_draws -> index speciesList (speciesId creature) = Some species ->
  exists cs' k', spawnOffspring speciesList n creature mate cs k = Some (cs', k').
Proof.
  intros Hu Hs. revert cs k. induction n as [|n IH]; intros cs k; simpl.
  - eexists _, _. reflexivity.
  - unfold bind.
    destruct (makeChild_total creature mate k species Hu Hs) as (child & k1 & ->).
    apply IH.
Qed.

(** What [attemptReproduction] does when it returns: nothing, or it
    appends the children and halves the energy of both parents. *)
Lemma attemptReproduction_shape i cs k cs' k' :
  attemptReproduction speciesList i cs k = Some (cs', k') ->
  cs' = cs \/
  exists creature j mate children,
    cs !! i = Some creature /\ alive creature = true /\
    rem_nonzero (inject_Z (age creature)) (num (traits creature) repro_cooldown) = false /\
    findMate cs creature i = Some j /\ cs !! j = Some mate /\
    is_mate_for creature i j mate /\
    length children = Z.to_nat (offspringCount creature mate) /\
    Forall (is_child_of speciesList creature mate) children /\
    cs' = <[j := halved mate]> (<[i := halved creature]> (cs ++ children)).
Proof.
  unfold attemptReproduction. intros H.
  destruct (cs !! i) as [creature|] eqn:Ei; [|injection H as <- <-; now left].
  destruct (alive creature) eqn:Ea; simpl in H; [|injection H as <- <-; now left].
  destruct (rem_nonzero _ _) eqn:Er; [injection H as <- <-; now left|].
  destruct (findMate cs creature i) as [j|] eqn:Em; [|injection H as <- <-; now left].
  pose proof (find_first _ _ _ Em) as (mate & Hj & He & _).
  rewrite Hj in H. apply bind_Some in H as (cs1 & k1 & Hs & H).
  injection H as <- <-.
  apply spawnOffspring_Some in Hs as (children & -> & Hlen & Hall).
  right. exists creature, j, mate, children.
  apply eligibleMate_spec in He. repeat split; try assumption; apply He.
Qed.

Lemma reproduction_shape i cs k cs' k' :
  reproduction speciesList i cs k = Some (cs', k') ->
  cs' = cs \/
  exists creature j mate children,
    cs !! i = Some creature /\ alive creature = true /\
    num (traits creature) stomach_capacity * 0.7 < energy creature /\
    cs !! j = Some mate /\ is_mate_for creature i j mate /\
    Forall (is_child_of speciesList creature mate) children /\
    cs' = <[j := halved mate]> (<[i := halved creature]> (cs ++ children)).
Proof.
  unfold reproduction. intros H.
  destruct (cs !! i) as [c|] eqn:Ei; [|injection H as <- <-; now left].
  destruct (Qltb _ _) eqn:E; [|injection H as <- <-; now left].
  apply Qltb_true in E.
  apply attemptReproduction_shape in H as [->|H]; [now left|].
  destruct H as (creature & j & mate & children & Hi & Ha & _ & _ & Hj & Hm & _ & Hall & ->).
  rewrite Ei in Hi. injection Hi as <-.
  right. exists c, j, mate, children. repeat split; try assumption; apply Hm.
Qed.

(** What the predation block does when it returns: nothing, or one attack
    on another living creature. *)
Lemma predation_shape i cs k cs' k' :
  predation i cs k = Some (cs', k') ->
  cs' = cs \/
  exists c j target,
    cs !! i = Some c /\ cs !! j = Some target /\ j <> i /\
    alive target = true /\
    (dietType c = carnivore \/ dietType c = omnivore) /\
    (speciesId target <> speciesId c \/ isCannibal c = true) /\
    cs' = <[j := snd (resolveAttack c target)]>
            (<[i := fst (resolveAttack c target)]> cs).
Proof.
  unfold predation. intros H.
  destruct (cs !! i) as [c|] eqn:Ei; [|injection H as <- <-; now left].
  apply bind_Some in H as (r & k1 & _ & H).
  destruct (Qltb r _); [|injection H as <- <-; now left].
  destruct (findNearbyCreature cs c i 1) as [j|] eqn:En; [|injection H as <- <-; now left].
  destruct (cs !! j) as [target|] eqn:Ej; [|injection H as <- <-; now left].
  destruct (alive target) eqn:Ea; simpl in H; [|injection H as <- <-; now left].
  destruct (Nat.eqb_spec j i) as [->|Hne]; simpl in H; [injection H as <- <-; now left|].
  match type of H with (if ?b then _ else _) _ = _ => destruct b eqn:Eb end;
    [|injection H as <- <-; now left].
  injection H as <- <-. right. exists c, j, target.
  apply andb_true_iff in Eb as [Ed Es].
  split; [reflexivity|]. split; [exact Ej|]. split; [exact Hne|]. split; [exact Ea|].
  split.
  { apply orb_true_iff in Ed as [Ed|Ed]; apply bool_decide_eq_true in Ed; auto. }
  split.
  { destruct (Z.eqb_spec (speciesId target) (speciesId c)) as [E|E]; simpl in Es.
    - right. destruct (isCannibal c); [reflexivity | discriminate Es].
    - left. exact E. }
  unfold resolveAttack_at. rewrite Ei, Ej.
  destruct (resolveAttack c target). reflexivity.
Qed.

Lemma predation_total i cs k : exists cs' k', predation i cs k = Some (cs', k').
Proof.
  unfold predation. destruct (cs !! i) as [c|]; [|eexists _, _; reflexivity].
  unfold bind. rewrite random_Some.
  repeat match goal with
         | |- context [match ?t with _ => _ end] => destruct t
         end; eexists _, _; reflexivity.
Qed.

(** What a tick does when it returns. *)
Lemma stepCreature_shape i cs k cs' k' :
  stepCreature world speciesList i cs k = Some (cs', k') ->
  (cs' = cs /\ (cs !! i = None \/ exists c, cs !! i = Some c /\ alive c = false)) \/
  (exists c, cs !! i = Some c /\ alive c = true /\
             dies (ageAndHunger c) = true /\
             cs' = <[i := set_alive false (ageAndHunger c)]> cs) \/
  (exists c c2 k2 cs1 k3,
     cs !! i = Some c /\ alive c = true /\ dies (ageAndHunger c) = false /\
     movement world (regenerate (ageAndHunger c)) k = Some (c2, k2) /\
     predation i (<[i := feed (getBiome world (x c) (y c)) c2]> cs) k2 = Some (cs1, k3) /\
     reproduction speciesList i cs1 k3 = Some (cs', k')).
Proof.
  unfold stepCreature. intros H.
  destruct (cs !! i) as [c|] eqn:Ei; [|injection H as <- <-; left; auto].
  destruct (alive c) eqn:Ea; simpl in H;
    [|injection H as <- <-; left; split; [reflexivity|]; right; eauto].
  destruct (dies (ageAndHunger c)) eqn:Ed.
  - injection H as <- <-. right; left. exists c.
    split; [reflexivity|]. split; [exact Ea|]. split; [exact Ed | reflexivity].
  - apply bind_Some in H as (c2 & k2 & Hm & H).
    apply bind_Some in H as (cs1 & k3 & Hp & H).
    right; right. exists c, c2, k2, cs1, k3.
    split; [reflexivity|]. split; [exact Ea|]. split; [exact Ed|].
    split; [exact Hm|]. split; [exact Hp | exact H].
Qed.

(** ** Feeding *)

Lemma feed_energy b c :
  energy (feed b c) ==
    Qmin (num (traits c) stomach_capacity)
         (energy c + biomeFoodValue b (dietType c) * 0.5 * num (traits c) food_efficiency) /\
  set_energy 0 (feed b c) = set_energy 0 c.
Proof.
  unfold feed. cbn [set_energy energy traits dietType].
  destruct (Qltb _ _) eqn:E; [apply Qltb_true in E | apply Qltb_false in E];
    cbn [set_energy energy traits dietType]; (split; [|reflexivity]); qminmax; lra.
Qed.

Lemma destination_moves_only_position c nx ny :
  set_pos 0 0 (moveTo world c nx ny) = set_pos 0 0 c.
Proof.
  destruct (moveTo_cases world c nx ny) as [[-> _]|[-> _]]; reflexivity.
Qed.

Lemma movement_keeps_body c k c' k' :
  movement world c k = Some (c', k') -> set_pos 0 0 c' = set_pos 0 0 c.
Proof.
  destruct (movement_cases world c k) as [[_ ->]|[_ ->]]; intros H; injection H as <- <-.
  - reflexivity.
  - apply destination_moves_only_position.
Qed.

(** C4 (as the code has it). In every tick that reaches the feeding stage,
    the energy after feeding is the energy after the movement plus
    biomeFoodValue(b, diet) * 0.5 * food_efficiency, clamped to
    stomach_capacity, where b is the biome of the tile on which the
    creature stood when the tick began, before the movement of the same
    tick; biomeFoodValue is the table of the specification.  The tick goes
    on to predation and reproduction from the creature so fed. *)
Theorem feeding_uses_tile_before_move i cs c k :
  cs !! i = Some c -> alive c = true -> dies (ageAndHunger c) = false ->
  let b := getBiome world (x c) (y c) in
  exists moved k2 fed,
    movement world (regenerate (ageAndHunger c)) k = Some (moved, k2) /\
    energy fed ==
      Qmin (num (traits c) stomach_capacity)
           (energy moved
            + biomeFoodValue b (dietType c) * 0.5 * num (traits c) food_efficiency) /\
    set_energy 0 fed = set_energy 0 moved /\
    stepCreature world speciesList i cs k =
      (let* cs1 := predation i (<[i := fed]> cs) in
       reproduction speciesList i cs1) k2 /\
    forall b' diet, biomeFoodValue b' diet = food_table b' diet.
Proof.
  intros Hi Ha Hd b.
  destruct (movement_total world (regenerate (ageAndHunger c)) k) as (moved & k2 & Hm).
  pose proof (movement_keeps_body _ _ _ _ Hm) as Hbody.
  exists moved, k2, (feed b moved).
  split; [exact Hm|].
  destruct (feed_energy b moved) as [He Hf].
  assert (Ht : traits moved = traits c /\ dietType moved = dietType c).
  { split.
    - change (traits (set_pos 0 0 moved) = traits c). rewrite Hbody. reflexivity.
    - change (dietType (set_pos 0 0 moved) = dietType c). rewrite Hbody. reflexivity. }
  destruct Ht as [Ht Hdiet]. rewrite Ht, Hdiet in He.
  split; [exact He|]. split; [exact Hf|]. split.
  - unfold stepCreature. rewrite Hi, Ha. cbn [negb]. rewrite Hd.
    unfold bind at 1. rewrite Hm. reflexivity.
  - intros b' diet. destruct b', diet; reflexivity.
Qed.

(** ** Reproduction with the first eligible mate *)

Lemma rem_multiple a b (m : Z) :
  ~ b == 0 -> a == inject_Z m * b -> rem_nonzero a b = false.
Proof.
  intros Hb Ha. unfold rem_nonzero, js_rem.
  destruct (Qeq_bool b 0) eqn:E; [apply Qeq_bool_iff in E; contradiction|].
  assert (Hq : a / b == inject_Z m).
  { rewrite Ha. field. exact Hb. }
  assert (Ht : Qtrunc (a / b) = m).
  { unfold Qtrunc. destruct (Qlt_le_dec (a / b) 0).
    - rewrite Hq. apply Qceiling_Z.
    - rewrite Hq. apply Qfloor_Z. }
  rewrite Ht. apply negb_false_iff. apply Qeq_bool_iff. rewrite Ha. ring.
Qed.

(** C6 (as the code has it). Let the creature at index i be alive, with
    energy above 70% of its stomach_capacity at the reproduction stage of
    its tick and an age that is a multiple of its repro_cooldown, and let
    some other living creature of the same species and the opposite sex
    stand within Chebyshev distance 1 with energy at least 50% of its
    capacity.  Then reproduction succeeds with the first such creature of
    the array as the mate: it appends max(0, round((o1 + o2) / 2)) children,
    o1 and o2 being the offspring_per_cycle of the creature and of that
    mate, each child born at the creature's position and of the species the
    list holds at the creature's species id, and it halves the energy of
    the creature and of the mate once, whatever the number of children. *)
Theorem reproduction_with_first_mate i cs creature species k :
  unit_draws ->
  cs !! i = Some creature -> alive creature = true ->
  num (traits creature) stomach_capacity * 0.7 < energy creature ->
  ~ num (traits creature) repro_cooldown == 0 ->
  (exists m : Z,
     inject_Z (age creature) == inject_Z m * num (traits creature) repro_cooldown) ->
  index speciesList (speciesId creature) = Some species ->
  (exists j other, cs !! j = Some other /\ is_mate_for creature i j other) ->
  exists j mate children cs' k',
    cs !! j = Some mate /\ is_mate_for creature i j mate /\
    (forall m other, (m < j)%nat -> cs !! m = Some other ->
                     ~ is_mate_for creature i m other) /\
    reproduction speciesList i cs k = Some (cs', k') /\
    cs' = <[j := halved mate]> (<[i := halved creature]> (cs ++ children)) /\
    cs' !! i = Some (halved creature) /\ cs' !! j = Some (halved mate) /\
    energy (halved creature) == energy creature / 2 /\
    energy (halved mate) == energy mate / 2 /\
    Z.of_nat (length children)
      = Z.max 0 (Math_round ((num (traits creature) offspring_per_cycle
                              + num (traits mate) offspring_per_cycle) / 2)) /\
    Forall (fun child =>
              exists sx t,
                child = new_Creature species (x creature) (y creature) sx t)
           children.
Proof.
  intros Hu Hi Ha Hgate Hcd (m & Hage) Hsp (j0 & other & Hj0 & Hmate0).
  apply eligibleMate_spec in Hmate0.
  destruct (find_exists (eligibleMate creature i) cs j0 other Hj0 Hmate0) as (j & Hfind).
  destruct (find_first _ _ _ Hfind) as (mate & Hj & He & Hfirst).
  apply eligibleMate_spec in He.
  destruct (spawnOffspring_total (Z.to_nat (offspringCount creature mate))
              creature mate cs k species Hu Hsp) as (cs1 & k' & Hspawn).
  destruct (spawnOffspring_Some _ _ _ _ _ _ _ Hspawn) as (children & -> & Hlen & Hall).
  assert (Hij : j <> i) by apply He.
  assert (Hilt : (i < length cs)%nat) by (eapply lookup_lt_Some; exact Hi).
  assert (Hjlt : (j < length cs)%nat) by (eapply lookup_lt_Some; exact Hj).
  exists j, mate, children,
    (<[j := halved mate]> (<[i := halved creature]> (cs ++ children))), k'.
  split; [exact Hj|]. split; [exact He|]. split.
  { intros m' other' Hm' Hl' Hmate'. apply eligibleMate_spec in Hmate'.
    rewrite (Hfirst m' other' Hm' Hl') in Hmate'. discriminate. }
  split.
  { unfold reproduction. rewrite Hi.
    apply Qltb_true in Hgate. rewrite Hgate.
    unfold attemptReproduction. rewrite Hi, Ha. cbn [negb].
    rewrite (rem_multiple _ _ m Hcd Hage).
    unfold findMate in Hfind. unfold findMate. rewrite Hfind, Hj.
    unfold bind. rewrite Hspawn. reflexivity. }
  split; [reflexivity|]. split.
  { rewrite list_lookup_insert_ne by exact Hij.
    apply list_lookup_insert_eq. rewrite length_app. lia. }
  split.
  { apply list_lookup_insert_eq. rewrite length_insert, length_app. lia. }
  split; [unfold halved; cbn [set_energy energy]; field|].
  split; [unfold halved; cbn [set_energy energy]; field|].
  split.
  { rewrite Hlen. unfold offspringCount. lia. }
  eapply Forall_impl; [exact Hall|].
  intros child (species' & sx & t & Hs' & -> & _).
  rewrite Hsp in Hs'. injection Hs' as <-. eauto.
Qed.

(** ** Energy bounds *)

Lemma biomeFoodValue_pos b diet : 0 < biomeFoodValue b diet.
Proof. destruct b, diet; reflexivity. Qed.

(** What an attack does to the energies and to the liveness. *)
Lemma resolveAttack_energy attacker target :
  let a' := fst (resolveAttack attacker target) in
  let t' := snd (resolveAttack attacker target) in
  traits a' = traits attacker /\ traits t' = traits target /\
  alive a' = alive attacker /\ (alive t' = true -> alive target = true) /\
  energy t' <= energy target /\
  (energy a' <= energy attacker \/ energy a' <= num (traits attacker) stomach_capacity) /\
  (alive t' = true -> t' = target \/ 0 < energy t') /\
  (num (traits target) spine_damage <= 0 ->
   0 <= num (traits attacker) food_efficiency ->
   0 < num (traits attacker) stomach_capacity ->
   0 < energy attacker -> 0 < energy a').
Proof.
  cbv zeta. unfold resolveAttack. cbv zeta.
  generalize (Q.max_spec 0 (num (traits attacker) attack_damage + num (traits attacker) bite_force
            - (num (traits target) armor + num (traits target) shell_hardness * 2))).
  generalize (Qmax 0 (num (traits attacker) attack_damage + num (traits attacker) bite_force
            - (num (traits target) armor + num (traits target) shell_hardness * 2))).
  intros d _.
  destruct (Qleb d 0) eqn:E0; [apply Qleb_true in E0 | apply Qleb_false in E0].
  { cbn [fst snd]. repeat split; try tauto; try lra; try (left; lra). }
  cbn [set_energy set_alive energy traits alive fst snd].
  destruct (Qltb 0 (num (traits target) spine_damage)) eqn:Es;
    [apply Qltb_true in Es | apply Qltb_false in Es];
    cbn [set_energy set_alive energy traits alive fst snd];
    destruct (flag (traits attacker) has_venom) eqn:Ef; cbn [andb];
    try (destruct (Qltb 0 (num (traits attacker) venom_power)) eqn:Ev;
         [apply Qltb_true in Ev | apply Qltb_false in Ev]);
    cbn [set_energy set_alive energy traits alive fst snd];
    match goal with |- context [Qleb ?e 0] => destruct (Qleb e 0) eqn:Ek end;
    (apply Qleb_true in Ek || apply Qleb_false in Ek);
    cbn [set_energy set_alive energy traits alive fst snd].
  all: split; [reflexivity|]; split; [reflexivity|]; split; [reflexivity|].
  all: split; [intros; first [assumption | discriminate]|].
  all: split; [lra|].
  all: split; [first [left; lra | right; apply Q.le_min_l]|].
  all: split; [intros; first [discriminate | right; lra]|].
  all: intros; qminmax; lra.
Qed.

Lemma resolveAttack_capped attacker target :
  capped attacker -> capped target ->
  capped (fst (resolveAttack attacker target)) /\
  capped (snd (resolveAttack attacker target)).
Proof.
  intros [Ha1 Ha2] [Ht1 Ht2].
  destruct (resolveAttack_energy attacker target)
    as (Eta & Ett & Eaa & Eat & Het & Hea & _ & _).
  unfold capped. rewrite Eta, Ett, Eaa. split; split; try assumption.
  - intros H. specialize (Ha2 H). destruct Hea; lra.
  - intros H. specialize (Ht2 (Eat H)). lra.
Qed.

Lemma resolveAttack_lively attacker target :
  capped attacker -> benign attacker -> benign target ->
  lively attacker -> lively target ->
  lively (fst (resolveAttack attacker target)) /\
  lively (snd (resolveAttack attacker target)).
Proof.
  intros [Hc _] (_ & Hfood & _) (_ & _ & Hspine) Hla Hlt.
  destruct (resolveAttack_energy attacker target)
    as (Eta & Ett & Eaa & Eat & Het & Hea & Hpos & Hatt).
  unfold lively. rewrite Eaa. split.
  - intros H. apply Hatt; try assumption; [lra | exact (Hla H)].
  - intros H. destruct (Hpos H) as [E|E]; [|exact E].
    rewrite E in *. exact (Hlt H).
Qed.

(** The creature as the tick leaves it after feeding. *)
Lemma fed_creature_bounds c k moved k2 b :
  alive c = true -> dies (ageAndHunger c) = false ->
  movement world (regenerate (ageAndHunger c)) k = Some (moved, k2) ->
  let fed := feed b moved in
  traits fed = traits c /\ alive fed = true /\
  energy fed <= num (traits c) stomach_capacity /\
  (0 < num (traits c) stomach_capacity -> benign c -> 0 < energy fed).
Proof.
  intros Ha Hd Hm fed.
  pose proof (movement_keeps_body _ _ _ _ Hm) as Hbody.
  assert (Ht : traits moved = traits c /\ alive moved = true /\
               energy moved = energy (regenerate (ageAndHunger c)) /\
               dietType moved = dietType c).
  { split; [|split; [|split]].
    - change (traits (set_pos 0 0 moved) = traits c). rewrite Hbody. reflexivity.
    - change (alive (set_pos 0 0 moved) = true). rewrite Hbody. exact Ha.
    - change (energy (set_pos 0 0 moved) = energy (regenerate (ageAndHunger c))).
      rewrite Hbody. reflexivity.
    - change (dietType (set_pos 0 0 moved) = dietType c). rewrite Hbody. reflexivity. }
  destruct Ht as (Ht & Hal & Hen & Hdiet).
  destruct (feed_energy b moved) as [He Hf].
  assert (Htf : traits fed = traits c).
  { change (traits (set_energy 0 fed) = traits c). subst fed. rewrite Hf. exact Ht. }
  assert (Haf : alive fed = true).
  { change (alive (set_energy 0 fed) = true). subst fed. rewrite Hf. exact Hal. }
  split; [exact Htf|]. split; [exact Haf|].
  fold fed in He. rewrite Ht, Hdiet, Hen in He.
  unfold dies in Hd. apply orb_false_iff in Hd as [_ Hd]. apply Qleb_false in Hd.
  cbn [ageAndHunger set_energy set_age energy traits] in Hd.
  unfold regenerate, ageAndHunger in He.
  cbn [set_energy set_age energy traits dietType] in He.
  pose proof (biomeFoodValue_pos b (dietType c)) as Hfood.
  split.
  - rewrite He. apply Q.le_min_l.
  - intros Hcap (Hregen & Heff & _). rewrite He.
    revert Hd. generalize (energy c - hungerIncrease
                 (set_age (age c + 1) c)). intros e Hd.
    qminmax; try lra; try nra.
Qed.

Lemma halved_bounds c :
  capped c -> capped (halved c) /\ (lively c -> lively (halved c)).
Proof.
  intros [H1 H2]. unfold capped, lively, halved. cbn [set_energy energy traits alive].
  split; [split; [exact H1|]|].
  - intros H. specialize (H2 H). lra.
  - intros Hl H. specialize (Hl H). lra.
Qed.

Lemma stomach_capacity_not_mutable :
  (stomach_capacity ∉ MUTABLE_NUMERIC_TRAITS) /\ stomach_capacity <> metabolism_rate.
Proof.
  split; [|discriminate]. unfold MUTABLE_NUMERIC_TRAITS. intros H.
  repeat (apply elem_of_cons in H as [H|H]; [discriminate H|]).
  inversion H.
Qed.

Lemma child_bounds parent mate child :
  capped parent -> capped mate ->
  is_child_of speciesList parent mate child ->
  capped child /\ lively child.
Proof.
  intros [Hp _] [Hm _] (species & sx & t & _ & -> & Hmean).
  destruct stomach_capacity_not_mutable as [H1 H2].
  specialize (Hmean stomach_capacity H1 H2).
  unfold capped, lively, new_Creature. cbn [energy traits alive]. rewrite Hmean.
  assert (Hhalf : (num (traits parent) stomach_capacity
                   + num (traits mate) stomach_capacity) / 2
                  == num (traits parent) stomach_capacity * 0.5
                     + num (traits mate) stomach_capacity * 0.5) by field.
  revert Hhalf. generalize ((num (traits parent) stomach_capacity
                   + num (traits mate) stomach_capacity) / 2). intros v Hv.
  split; [split|]; intros; lra.
Qed.

(** The bounds through the predation block, the reproduction block and the
    whole tick. *)
Lemma predation_bounds i cs k cs' k' :
  predation i cs k = Some (cs', k') ->
  Forall capped cs ->
  Forall capped cs' /\
  (Forall benign cs -> Forall lively cs -> Forall lively cs').
Proof.
  intros H Hc. apply predation_shape in H as [->|H]; [tauto|].
  destruct H as (c & j & target & Hi & Hj & Hne & _ & _ & _ & ->).
  pose proof (Forall_lookup_1 _ _ _ _ Hc Hi) as Hci.
  pose proof (Forall_lookup_1 _ _ _ _ Hc Hj) as Hcj.
  destruct (resolveAttack_capped c target Hci Hcj) as [Ha Ht].
  split.
  - apply Forall_insert; [apply Forall_insert|]; assumption.
  - intros Hb Hl.
    pose proof (Forall_lookup_1 _ _ _ _ Hb Hi) as Hbi.
    pose proof (Forall_lookup_1 _ _ _ _ Hb Hj) as Hbj.
    pose proof (Forall_lookup_1 _ _ _ _ Hl Hi) as Hli.
    pose proof (Forall_lookup_1 _ _ _ _ Hl Hj) as Hlj.
    destruct (resolveAttack_lively c target Hci Hbi Hbj Hli Hlj) as [Ha' Ht'].
    apply Forall_insert; [apply Forall_insert|]; assumption.
Qed.

Lemma reproduction_bounds i cs k cs' k' :
  reproduction speciesList i cs k = Some (cs', k') ->
  Forall capped cs ->
  Forall capped cs' /\ (Forall lively cs -> Forall lively cs').
Proof.
  intros H Hc. apply reproduction_shape in H as [->|H]; [tauto|].
  destruct H as (c & j & mate & children & Hi & _ & _ & Hj & _ & Hall & ->).
  pose proof (Forall_lookup_1 _ _ _ _ Hc Hi) as Hci.
  pose proof (Forall_lookup_1 _ _ _ _ Hc Hj) as Hcj.
  assert (Hkids : Forall capped children /\ Forall lively children).
  { split; eapply Forall_impl; try exact Hall; intros child Hchild;
      apply (child_bounds c mate child Hci Hcj Hchild). }
  split.
  - apply Forall_insert; [apply Forall_insert|]; try apply halved_bounds; try assumption.
    apply Forall_app. tauto.
  - intros Hl.
    pose proof (Forall_lookup_1 _ _ _ _ Hl Hi) as Hli.
    pose proof (Forall_lookup_1 _ _ _ _ Hl Hj) as Hlj.
    apply Forall_insert; [apply Forall_insert|]; try (apply halved_bounds; assumption).
    apply Forall_app. tauto.
Qed.

(** The upper bound through the creature loop, through whole steps, and
    at the start. *)
Lemma creatureLoop_capped fuel i cs k cs' k' :
  creatureLoop world speciesList fuel i cs k = Some (cs', k') ->
  Forall capped cs -> Forall capped cs'.
Proof.
  revert i cs k. induction fuel as [|fuel IH]; intros i cs k H Hc; simpl in H.
  - destruct (cs !! i); [discriminate|]. injection H as <- <-. exact Hc.
  - destruct (cs !! i) as [c|] eqn:Ei; [|injection H as <- <-; exact Hc].
    apply bind_Some in H as (cs1 & k1 & Hstep & H).
    apply (IH _ _ _ H). destruct (alive c).
    + apply stepCreature_shape in Hstep as [[-> _]|[Hs|Hs]]; [exact Hc| |].
      * destruct Hs as (c0 & Hi & _ & _ & ->).
        pose proof (Forall_lookup_1 _ _ _ _ Hc Hi) as [Hci _].
        apply Forall_insert; [exact Hc|]. split; [exact Hci | discriminate].
      * destruct Hs as (c0 & c2 & k2 & cs2 & k3 & Hi & Ha & Hd & Hm & Hp & Hr).
        pose proof (Forall_lookup_1 _ _ _ _ Hc Hi) as [Hci _].
        destruct (fed_creature_bounds c0 k c2 k2 (getBiome world (x c0) (y c0)) Ha Hd Hm)
          as (Ht & _ & Hle & _).
        assert (Hc1 : Forall capped (<[i := feed (getBiome world (x c0) (y c0)) c2]> cs)).
        { apply Forall_insert; [exact Hc|]. unfold capped. rewrite Ht.
          split; [exact Hci|]. intros _. exact Hle. }
        destruct (predation_bounds _ _ _ _ _ Hp Hc1) as [Hc2 _].
        exact (proj1 (reproduction_bounds _ _ _ _ _ Hr Hc2)).
    + injection Hstep as <- <-. exact Hc.
Qed.

Lemma stepSimulations_capped fuel n st k st' k' :
  stepSimulations world speciesList fuel n st k = Some (st', k') ->
  Forall capped (creatures st) -> Forall capped (creatures st').
Proof.
  revert st k. induction n as [|n IH]; intros st k H Hc; simpl in H.
  - injection H as <- <-. exact Hc.
  - apply bind_Some in H as (st1 & k1 & Hstep & H). apply (IH _ _ H).
    unfold stepSimulation in Hstep.
    apply bind_Some in Hstep as (cs1 & k2 & Hloop & Hstep).
    injection Hstep as <- <-. cbn [creatures].
    pose proof (creatureLoop_capped _ _ _ _ _ _ Hloop Hc) as Hc1.
    destruct (rem5_is_zero (year st)); [|exact Hc1].
    apply List.Forall_forall. intros c Hin. apply List.filter_In in Hin as [Hin _].
    rewrite List.Forall_forall in Hc1. exact (Hc1 c Hin).
Qed.

Lemma spawnIndividual_capped species k c k' :
  spawnIndividual world species k = Some (c, k') -> capped c /\ lively c.
Proof.
  unfold spawnIndividual. intros H.
  apply bind_Some in H as (pos & k1 & _ & H).
  apply bind_Some in H as (r & k2 & _ & H).
  apply bind_Some in H as (r1 & k3 & _ & H).
  apply bind_Some in H as (r2 & k4 & _ & H).
  apply bind_Some in H as (r3 & k5 & _ & H).
  injection H as <- <-. unfold capped, lively, new_Creature.
  cbn [energy traits alive].
  repeat (rewrite num_set_num_ne by discriminate).
  split; [split|]; intros; vm_compute; congruence.
Qed.

Lemma spawnIndividuals_S n species k :
  spawnIndividuals world (S n) species k =
    (let* c := spawnIndividual world species in
     let* rest := spawnIndividuals world n species in
     ret (c :: rest)) k.
Proof. reflexivity. Qed.

Lemma spawnIndividuals_capped n species k cs k' :
  spawnIndividuals world n species k = Some (cs, k') ->
  Forall capped cs /\ Forall lively cs.
Proof.
  revert k cs. induction n as [|n IHn]; intros k cs H.
  - injection H as <- <-. split; constructor.
  - rewrite spawnIndividuals_S in H.
    apply bind_Some in H as (c & k2 & Hc & H).
    apply bind_Some in H as (rest & k3 & Hrest & H). injection H as <- <-.
    apply spawnIndividual_capped in Hc as [Hcc Hcl].
    apply IHn in Hrest as [Hrc Hrl]. split; constructor; assumption.
Qed.

Lemma spawnForEach_cons species l k :
  spawnForEach world (species :: l) k =
    (let* cs := spawnIndividuals world 15 species in
     let* rest := spawnForEach world l in
     ret (cs ++ rest)) k.
Proof. reflexivity. Qed.

Lemma spawnInitialCreatures_capped k cs k' :
  spawnInitialCreatures world speciesList k = Some (cs, k') ->
  Forall capped cs /\ Forall lively cs.
Proof.
  unfold spawnInitialCreatures. generalize speciesList. intros l. revert k cs.
  induction l as [|species l IH]; intros k cs H;
    [|rewrite spawnForEach_cons in H].
  - injection H as <- <-. split; constructor.
  - apply bind_Some in H as (cs1 & k1 & H1 & H).
    apply bind_Some in H as (rest & k2 & H2 & H). injection H as <- <-.
    apply IH in H2 as [Hc2 Hl2].
    destruct (spawnIndividuals_capped _ _ _ _ _ H1) as [Hc1 Hl1].
    split; apply Forall_app; split; assumption.
Qed.

(** C1 (as the code has it). After every attack resolution and after every
    tick, every living creature has an energy of at most its
    stomach_capacity, provided this held before and every capacity is at
    least 50 (the energy of a newborn), which the tick also preserves; it
    holds of the creatures of a reset and so after any number of steps.
    The lower bound is kept in this form only: every living creature has
    positive energy after the attack or the tick if this held before and no
    creature involved has a negative regen_rate, a negative food_efficiency
    or a positive spine_damage.  A creature that the tick or the attack
    kills keeps its energy, zero or negative, for as long as it stays in
    the array. *)
Theorem energy_bounds_of_the_living :
  (forall attacker target,
     capped attacker -> capped target ->
     (capped (fst (resolveAttack attacker target)) /\
      capped (snd (resolveAttack attacker target))) /\
     (benign attacker -> benign target -> lively attacker -> lively target ->
      lively (fst (resolveAttack attacker target)) /\
      lively (snd (resolveAttack attacker target)))) /\
  (forall i cs k cs' k',
     stepCreature world speciesList i cs k = Some (cs', k') ->
     Forall capped cs ->
     Forall capped cs' /\
     (Forall benign cs -> Forall lively cs -> Forall lively cs')) /\
  (forall k cs k',
     spawnInitialCreatures world speciesList k = Some (cs, k') ->
     Forall capped cs /\ Forall lively cs) /\
  (forall fuel n st k st' k',
     stepSimulations world speciesList fuel n st k = Some (st', k') ->
     Forall capped (creatures st) -> Forall capped (creatures st')).
Proof.
  split; [|split; [|split]].
  { intros attacker target Ha Ht. split.
    - apply resolveAttack_capped; assumption.
    - intros. apply resolveAttack_lively; assumption. }
  2: { exact spawnInitialCreatures_capped. }
  2: { exact stepSimulations_capped. }
  intros i cs k cs' k' H Hc.
  apply stepCreature_shape in H as [[-> _]|[H|H]]; [tauto| |].
  - destruct H as (c & Hi & Ha & Hd & ->).
    pose proof (Forall_lookup_1 _ _ _ _ Hc Hi) as [Hci _].
    split.
    + apply Forall_insert; [exact Hc|]. split; [exact Hci | discriminate].
    + intros _ Hl. apply Forall_insert; [exact Hl | discriminate].
  - destruct H as (c & c2 & k2 & cs1 & k3 & Hi & Ha & Hd & Hm & Hp & Hr).
    pose proof (Forall_lookup_1 _ _ _ _ Hc Hi) as [Hci _].
    destruct (fed_creature_bounds c k c2 k2 (getBiome world (x c) (y c)) Ha Hd Hm)
      as (Ht & Hal & Hle & Hpos).
    assert (Hc1 : Forall capped (<[i := feed (getBiome world (x c) (y c)) c2]> cs)).
    { apply Forall_insert; [exact Hc|]. unfold capped. rewrite Ht. split; [exact Hci|].
      intros _. exact Hle. }
    destruct (predation_bounds _ _ _ _ _ Hp Hc1) as [Hc2 Hl2].
    destruct (reproduction_bounds _ _ _ _ _ Hr Hc2) as [Hc3 Hl3].
    split; [exact Hc3|]. intros Hb Hl. apply Hl3, Hl2.
    + apply Forall_insert; [exact Hb|].
      pose proof (Forall_lookup_1 _ _ _ _ Hb Hi) as Hbi.
      unfold benign. rewrite Ht. exact Hbi.
    + apply Forall_insert; [exact Hl|]. intros _. apply Hpos; [lra|].
      exact (Forall_lookup_1 _ _ _ _ Hb Hi).
Qed.

(** ** Movement-mode containment *)

Lemma resolveAttack_same_place attacker target :
  same_place attacker (fst (resolveAttack attacker target)) /\
  same_place target (snd (resolveAttack attacker target)).
Proof.
  unfold resolveAttack. cbv zeta.
  repeat match goal with
         | |- context [if ?b then _ else _] => destruct b
         end; cbn; unfold same_place; cbn; tauto.
Qed.

Lemma movement_same_species c k c' k' :
  movement world c k = Some (c', k') ->
  speciesId c' = speciesId c /\ movementMode c' = movementMode c.
Proof.
  intros H. pose proof (movement_keeps_body _ _ _ _ H) as Hbody. split.
  - change (speciesId (set_pos 0 0 c') = speciesId c). rewrite Hbody. reflexivity.
  - change (movementMode (set_pos 0 0 c') = movementMode c). rewrite Hbody. reflexivity.
Qed.

Lemma moveTo_contained c nx ny :
  contained world c ->
  movementMode c = aquatic \/ in_grid nx ny ->
  contained world (moveTo world c nx ny).
Proof.
  intros Hc Hor.
  destruct (moveTo_cases world c nx ny) as [[-> _]|[-> Hok]]; [exact Hc|].
  assert (Hin : in_grid nx ny).
  { destruct Hor as [Ha|Hin]; [|exact Hin].
    rewrite Ha in Hok. apply (getBiome_water_in_grid world). exact Hok. }
  destruct (clamp_in_grid nx ny Hin) as [-> ->].
  unfold contained. cbn [set_pos movementMode x y]. exact Hok.
Qed.

(** An aquatic creature on Water is on Water after any attempt to move. *)
Lemma moveTo_afloat c nx ny : afloat world c -> afloat world (moveTo world c nx ny).
Proof.
  intros Hc.
  destruct (moveTo_cases world c nx ny) as [[-> _]|[-> Hok]]; [exact Hc|].
  unfold afloat, afloat_ok. cbn [set_pos movementMode x y]. intros Ha.
  rewrite Ha in Hok. simpl in Hok.
  destruct (clamp_in_grid nx ny (getBiome_water_in_grid world nx ny Hok)) as [-> ->].
  exact Hok.
Qed.

Section Situated.

(** A constraint [ok] on mode and biome, and a condition [may_move] on the
    creature and the cursor under which a step of the random walk keeps
    it. *)
Variable ok : MovementMode -> Biome -> Prop.
Variable may_move : Creature -> nat -> Prop.

Hypothesis may_move_same_place :
  forall c c' k, same_place c c' -> may_move c k -> may_move c' k.

Hypothesis moveTo_ok :
  forall c k nx ny,
    ok (movementMode c) (getBiome world (x c) (y c)) ->
    may_move c k ->
    (nx, ny) = attempted_destination c k ->
    ok (movementMode (moveTo world c nx ny))
       (getBiome world (x (moveTo world c nx ny)) (y (moveTo world c nx ny))).

Lemma situated_same_place c c' :
  same_place c c' ->
  situated ok world speciesList c -> situated ok world speciesList c'.
Proof.
  intros (Hs & Hm & Hx & Hy) [Hc Hk]. unfold situated, species_consistent.
  rewrite Hs, Hm, Hx, Hy. split; assumption.
Qed.

Lemma movement_situated c k c' k' :
  movement world c k = Some (c', k') ->
  situated ok world speciesList c ->
  (rnd k < 0.2 + num (traits c) curiosity * 0.3 -> may_move c k) ->
  situated ok world speciesList c'.
Proof.
  intros H [Hc Hk] Hmay. destruct (movement_same_species _ _ _ _ H) as [Hs Hm].
  split.
  - destruct (movement_cases world c k) as [[_ E]|[Hlt E]];
      rewrite E in H; injection H as <- _; [exact Hc|].
    apply (moveTo_ok c k); [exact Hc | exact (Hmay Hlt)|].
    unfold attempted_destination. destruct (destination _ _ _). reflexivity.
  - unfold species_consistent. rewrite Hs, Hm. exact Hk.
Qed.

Lemma child_situated parent mate child :
  wf_species speciesList ->
  situated ok world speciesList parent ->
  is_child_of speciesList parent mate child ->
  situated ok world speciesList child.
Proof.
  intros Hwf [Hc Hk] (species & sx & t & Hs & -> & _).
  pose proof (Hwf _ _ Hs) as Hid. pose proof (Hk _ Hs) as Hmode.
  unfold situated, species_consistent, new_Creature.
  cbn [movementMode speciesId x y]. rewrite Hid, Hmode. split; [exact Hc|].
  intros sp Hsp. rewrite Hs in Hsp. injection Hsp as <-. exact Hmode.
Qed.

(** A tick keeps every creature situated when the ticking creature may
    move if it takes a step. *)
Lemma stepCreature_situated i cs k cs' k' :
  stepCreature world speciesList i cs k = Some (cs', k') ->
  wf_species speciesList ->
  Forall (situated ok world speciesList) cs ->
  (forall c, cs !! i = Some c -> walks c k -> may_move c k) ->
  Forall (situated ok world speciesList) cs'.
Proof.
  intros H Hwf Hp Hdest.
  apply stepCreature_shape in H as [[-> _]|[H|H]]; [exact Hp| |].
  - destruct H as (c & Hi & _ & _ & ->).
    apply Forall_insert; [exact Hp|].
    apply (situated_same_place c); [|exact (Forall_lookup_1 _ _ _ _ Hp Hi)].
    unfold same_place. cbn. tauto.
  - destruct H as (c & c2 & k2 & cs1 & k3 & Hi & Hal & Hd & Hm & Hpred & Hr).
    pose proof (Forall_lookup_1 _ _ _ _ Hp Hi) as Hpi.
    assert (Hsame : same_place c (regenerate (ageAndHunger c))).
    { unfold same_place. cbn. tauto. }
    assert (Hp2 : situated ok world speciesList c2).
    { apply (movement_situated _ _ _ _ Hm).
      - apply (situated_same_place c); assumption.
      - intros Hlt. apply (may_move_same_place c); [exact Hsame|].
        apply (Hdest c Hi). split; [exact Hal|]. split; [exact Hd | exact Hlt]. }
    assert (Hp3 : Forall (situated ok world speciesList)
                         (<[i := feed (getBiome world (x c) (y c)) c2]> cs)).
    { apply Forall_insert; [exact Hp|].
      apply (situated_same_place c2); [|exact Hp2].
      destruct (feed_energy (getBiome world (x c) (y c)) c2) as [_ Hf].
      unfold same_place.
      change (speciesId (set_energy 0 (feed (getBiome world (x c) (y c)) c2)) = speciesId c2 /\
              movementMode (set_energy 0 (feed (getBiome world (x c) (y c)) c2)) = movementMode c2 /\
              x (set_energy 0 (feed (getBiome world (x c) (y c)) c2)) = x c2 /\
              y (set_energy 0 (feed (getBiome world (x c) (y c)) c2)) = y c2).
      rewrite Hf. cbn. tauto. }
    assert (Hp4 : Forall (situated ok world speciesList) cs1).
    { apply predation_shape in Hpred as [->|Hpred]; [exact Hp3|].
      destruct Hpred as (a & j & target & Ha & Hj & _ & _ & _ & _ & ->).
      destruct (resolveAttack_same_place a target) as [Hsa Hst].
      apply Forall_insert; [apply Forall_insert; [exact Hp3|]|].
      - exact (situated_same_place _ _ Hsa (Forall_lookup_1 _ _ _ _ Hp3 Ha)).
      - exact (situated_same_place _ _ Hst (Forall_lookup_1 _ _ _ _ Hp3 Hj)). }
    apply reproduction_shape in Hr as [->|Hr]; [exact Hp4|].
    destruct Hr as (parent & j & mate & children & Hpa & _ & _ & Hj & _ & Hall & ->).
    pose proof (Forall_lookup_1 _ _ _ _ Hp4 Hpa) as Hpp.
    pose proof (Forall_lookup_1 _ _ _ _ Hp4 Hj) as Hpm.
    apply Forall_insert; [apply Forall_insert; [apply Forall_app; split; [exact Hp4|]|]|].
    + eapply Forall_impl; [exact Hall|]. intros child Hchild.
      exact (child_situated parent mate child Hwf Hpp Hchild).
    + apply (situated_same_place parent); [|exact Hpp]. unfold same_place. cbn. tauto.
    + apply (situated_same_place mate); [|exact Hpm]. unfold same_place. cbn. tauto.
Qed.

End Situated.

(** Aquatic creatures stay on Water through the creature loop and through
    whole steps, whatever the draws. *)
Lemma stepCreature_afloat i cs k cs' k' :
  stepCreature world speciesList i cs k = Some (cs', k') ->
  wf_species speciesList ->
  Forall (situated afloat_ok world speciesList) cs ->
  Forall (situated afloat_ok world speciesList) cs'.
Proof.
  intros H Hwf Hp.
  apply (stepCreature_situated afloat_ok (fun _ _ => True)) with (i := i) (cs := cs) (k := k) (k' := k');
    auto.
  intros c k0 nx ny Hok _ _. apply (moveTo_afloat c nx ny). exact Hok.
Qed.

Lemma creatureLoop_afloat fuel i cs k cs' k' :
  creatureLoop world speciesList fuel i cs k = Some (cs', k') ->
  wf_species speciesList ->
  Forall (situated afloat_ok world speciesList) cs ->
  Forall (situated afloat_ok world speciesList) cs'.
Proof.
  intros H Hwf. revert i cs k H.
  induction fuel as [|fuel IH]; intros i cs k H Hp; simpl in H.
  - destruct (cs !! i); [discriminate|]. injection H as <- <-. exact Hp.
  - destruct (cs !! i) as [c|] eqn:Ei; [|injection H as <- <-; exact Hp].
    apply bind_Some in H as (cs1 & k1 & Hstep & H).
    apply (IH _ _ _ H). destruct (alive c).
    + exact (stepCreature_afloat _ _ _ _ _ Hstep Hwf Hp).
    + injection Hstep as <- <-. exact Hp.
Qed.

Lemma stepSimulations_afloat fuel n st k st' k' :
  stepSimulations world speciesList fuel n st k = Some (st', k') ->
  wf_species speciesList ->
  Forall (situated afloat_ok world speciesList) (creatures st) ->
  Forall (situated afloat_ok world speciesList) (creatures st').
Proof.
  intros H Hwf. revert st k H. induction n as [|n IH]; intros st k H Hp; simpl in H.
  - injection H as <- <-. exact Hp.
  - apply bind_Some in H as (st1 & k1 & Hstep & H). apply (IH _ _ H).
    unfold stepSimulation in Hstep.
    apply bind_Some in Hstep as (cs1 & k2 & Hloop & Hstep).
    injection Hstep as <- <-. cbn [creatures].
    pose proof (creatureLoop_afloat _ _ _ _ _ _ Hloop Hwf Hp) as Hp1.
    destruct (rem5_is_zero (year st)); [|exact Hp1].
    apply List.Forall_forall. intros c Hin. apply List.filter_In in Hin as [Hin _].
    rewrite List.Forall_forall in Hp1. exact (Hp1 c Hin).
Qed.

(** The search for a tile returns the first tile of its attempts that the
    mode of the species allows. *)
Lemma findRandomTile_loop_found n species k :
  unit_draws -> (0 < WORLD_WIDTH)%Z -> (0 < WORLD_HEIGHT)%Z ->
  (exists j, (j < n)%nat /\
     mode_ok (s_movementMode species)
             (world_at world (fst (attempted_tile k j)) (snd (attempted_tile k j)))) ->
  exists pos k',
    findRandomTile_loop world n species k = Some (pos, k') /\
    in_grid (fst pos) (snd pos) /\
    mode_ok (s_movementMode species) (getBiome world (fst pos) (snd pos)).
Proof.
  intros Hu HW HH. revert k. induction n as [|n IH]; intros k (j & Hj & Hok); [lia|].
  simpl. unfold bind at 1. rewrite randomInt_Some.
  unfold bind at 1. rewrite randomInt_Some.
  set (tx := Qfloor (rnd k * inject_Z WORLD_WIDTH)).
  set (ty := Qfloor (rnd (S k) * inject_Z WORLD_HEIGHT)).
  assert (Hin : in_grid tx ty).
  { split; apply randomInt_range; assumption. }
  assert (Hhere : mode_ok (s_movementMode species) (world_at world tx ty) ->
    exists pos k',
      (match s_movementMode species with
       | terrestrial =>
           if negb (bool_decide (world_at world tx ty = water))
           then ret (tx, ty) else findRandomTile_loop world n species
       | aquatic =>
           if bool_decide (world_at world tx ty = water)
           then ret (tx, ty) else findRandomTile_loop world n species
       end) (S (S k)) = Some (pos, k') /\
      in_grid (fst pos) (snd pos) /\
      mode_ok (s_movementMode species) (getBiome world (fst pos) (snd pos))).
  { intros Hm. exists (tx, ty), (S (S k)). cbn [fst snd].
    rewrite (getBiome_inside world tx ty Hin).
    split; [|split; [exact Hin | exact Hm]].
    destruct (s_movementMode species); simpl in Hm.
    - destruct (bool_decide_reflect (world_at world tx ty = water)); [contradiction|].
      reflexivity.
    - rewrite Hm. reflexivity. }
  destruct j as [|j].
  - apply Hhere. unfold attempted_tile in Hok. cbn [fst snd] in Hok.
    replace (k + 2 * 0)%nat with k in Hok by lia.
    replace (k + 1)%nat with (S k) in Hok by lia. exact Hok.
  - assert (Hrec : exists pos k',
               findRandomTile_loop world n species (S (S k)) = Some (pos, k') /\
               in_grid (fst pos) (snd pos) /\
               mode_ok (s_movementMode species) (getBiome world (fst pos) (snd pos))).
    { apply IH. exists j. split; [lia|]. unfold attempted_tile in *.
      cbn [fst snd] in *.
      replace (S (S k) + 2 * j)%nat with (k + 2 * S j)%nat by lia. exact Hok. }
    destruct (s_movementMode species) eqn:Em.
    + destruct (bool_decide_reflect (world_at world tx ty = water)) as [E|E]; simpl.
      * exact Hrec.
      * apply Hhere. exact E.
    + destruct (bool_decide_reflect (world_at world tx ty = water)) as [E|E]; simpl.
      * apply Hhere. exact E.
      * exact Hrec.
Qed.

(** C2 (as the code has it). Initial placement puts a creature on a tile
    its movement mode allows whenever one of the 1000 attempts draws such
    a tile (after 1000 failures the creature is put anywhere).  A tick
    keeps every creature of the array on a tile its mode allows - an
    aquatic creature on Water, a terrestrial creature off Water - when the
    ticking creature is aquatic or the destination its random walk tries
    lies inside the grid; a tick in which the walk takes no step tries no
    destination, so it keeps them whatever the next draw is.  Children
    are born on their parent's tile with their parent's mode.  Aquatic
    creatures that are on Water stay on Water through any number of steps,
    whatever the draws. *)
Theorem containment_by_placement_and_tick :
  (forall species k,
     unit_draws -> (0 < WORLD_WIDTH)%Z -> (0 < WORLD_HEIGHT)%Z ->
     (exists j, (j < 1000)%nat /\
        mode_ok (s_movementMode species)
                (world_at world (fst (attempted_tile k j)) (snd (attempted_tile k j)))) ->
     exists pos k',
       findRandomTileForSpecies world species k = Some (pos, k') /\
       in_grid (fst pos) (snd pos) /\
       forall sx t, contained world (new_Creature species (fst pos) (snd pos) sx t)) /\
  (forall i cs k cs' k',
     stepCreature world speciesList i cs k = Some (cs', k') ->
     wf_species speciesList ->
     Forall (contained world) cs ->
     Forall (species_consistent speciesList) cs ->
     (forall c, cs !! i = Some c -> walks c k ->
        movementMode c = aquatic
        \/ in_grid (fst (attempted_destination c k)) (snd (attempted_destination c k))) ->
     Forall (contained world) cs' /\ Forall (species_consistent speciesList) cs') /\
  (forall fuel n st k st' k',
     stepSimulations world speciesList fuel n st k = Some (st', k') ->
     wf_species speciesList ->
     Forall (afloat world) (creatures st) ->
     Forall (species_consistent speciesList) (creatures st) ->
     Forall (afloat world) (creatures st') /\
     Forall (species_consistent speciesList) (creatures st')).
Proof.
  split; [|split].
  { intros species k Hu HW HH Hex.
    destruct (findRandomTile_loop_found 1000 species k Hu HW HH Hex)
      as (pos & k' & Hf & Hin & Hok).
    exists pos, k'. split; [exact Hf|]. split; [exact Hin|].
    intros sx t. exact Hok. }
  - intros i cs k cs' k' H Hwf Hc Hk Hdest.
    assert (Hp : Forall (situated mode_ok world speciesList) cs).
    { apply Forall_and. split; assumption. }
    assert (Hgoal : Forall (situated mode_ok world speciesList) cs');
      [|apply Forall_and in Hgoal; exact Hgoal].
    apply (stepCreature_situated mode_ok
             (fun c k => movementMode c = aquatic
                         \/ in_grid (fst (attempted_destination c k))
                                    (snd (attempted_destination c k))))
      with (i := i) (cs := cs) (k := k) (k' := k'); try assumption.
    + intros c c' k0 (_ & Hm & Hx & Hy). unfold attempted_destination.
      rewrite Hm, Hx, Hy. tauto.
    + intros c k0 nx ny Hok Hor Hdst. apply (moveTo_contained c nx ny Hok).
      rewrite <- Hdst in Hor. exact Hor.
  - intros fuel n st k st' k' H Hwf Hc Hk.
    assert (Hp : Forall (situated afloat_ok world speciesList) (creatures st)).
    { apply Forall_and. split; assumption. }
    apply Forall_and. exact (stepSimulations_afloat _ _ _ _ _ _ H Hwf Hp).
Qed.

(** ** The tick returns *)

Lemma reproduction_total i cs k :
  unit_draws ->
  (forall c, cs !! i = Some c -> is_Some (index speciesList (speciesId c))) ->
  exists cs' k', reproduction speciesList i cs k = Some (cs', k').
Proof.
  intros Hu Hs. unfold reproduction.
  destruct (cs !! i) as [c|] eqn:Ei; [|eexists _, _; reflexivity].
  destruct (Qltb _ _); [|eexists _, _; reflexivity].
  unfold attemptReproduction. rewrite Ei.
  destruct (negb (alive c)); [eexists _, _; reflexivity|].
  destruct (rem_nonzero _ _); [eexists _, _; reflexivity|].
  destruct (findMate cs c i) as [j|]; [|eexists _, _; reflexivity].
  destruct (cs !! j) as [mate|]; [|eexists _, _; reflexivity].
  destruct (Hs c eq_refl) as [species Hsp].
  destruct (spawnOffspring_total (Z.to_nat (offspringCount c mate)) c mate cs k
              species Hu Hsp) as (cs1 & k1 & Hspawn).
  unfold bind. rewrite Hspawn. eexists _, _. reflexivity.
Qed.

(** With draws in the unit interval, a tick of a creature whose species id
    is in the species list returns. *)
Lemma stepCreature_total i cs k :
  unit_draws ->
  (forall c, cs !! i = Some c -> is_Some (index speciesList (speciesId c))) ->
  exists cs' k', stepCreature world speciesList i cs k = Some (cs', k').
Proof.
  intros Hu Hs. unfold stepCreature.
  destruct (cs !! i) as [c|] eqn:Ei; [|eexists _, _; reflexivity].
  destruct (negb (alive c)); [eexists _, _; reflexivity|].
  destruct (dies (ageAndHunger c)); [eexists _, _; reflexivity|].
  destruct (movement_total world (regenerate (ageAndHunger c)) k) as (c2 & k2 & Hm).
  unfold bind at 1. rewrite Hm.
  pose proof (movement_keeps_body _ _ _ _ Hm) as Hbody.
  set (fed := feed (getBiome world (x (regenerate (ageAndHunger c)))
                                    (y (regenerate (ageAndHunger c)))) c2).
  assert (Hfed : speciesId fed = speciesId c).
  { destruct (feed_energy (getBiome world (x (regenerate (ageAndHunger c)))
                                          (y (regenerate (ageAndHunger c)))) c2)
      as [_ Hf].
    change (speciesId (set_pos 0 0 (set_energy 0 fed)) = speciesId c).
    subst fed. rewrite Hf. change (speciesId (set_pos 0 0 c2) = speciesId c).
    rewrite Hbody. reflexivity. }
  destruct (predation_total i (<[i := fed]> cs) k2) as (cs1 & k3 & Hp).
  unfold bind at 1. rewrite Hp.
  apply reproduction_total; [exact Hu|].
  intros c1 Hc1.
  assert (Hilt : (i < length cs)%nat) by (eapply lookup_lt_Some; exact Ei).
  apply predation_shape in Hp as [->|Hp].
  - rewrite list_lookup_insert_eq in Hc1 by exact Hilt. injection Hc1 as <-.
    rewrite Hfed. exact (Hs c eq_refl).
  - destruct Hp as (a & j & target & Ha & Hj & Hne & _ & _ & _ & ->).
    rewrite list_lookup_insert_eq in Ha by exact Hilt. injection Ha as <-.
    rewrite list_lookup_insert_ne in Hc1 by exact Hne.
    rewrite list_lookup_insert_eq in Hc1 by (rewrite length_insert; exact Hilt).
    injection Hc1 as <-.
    destruct (resolveAttack_same_place fed target) as [(E & _) _].
    rewrite E, Hfed. exact (Hs c eq_refl).
Qed.

(** ** The creature loop *)

(** What a tick does to the ages and the liveness of the array: the
    creature at [i] ages by one if it was alive, nobody else ages, nobody
    comes back to life, and the creatures it appends are newborn and stand
    behind the former end of the array. *)
Lemma insert_lookup_cases (cs : list Creature) j v m c' :
  <[j := v]> cs !! m = Some c' ->
  (m = j /\ c' = v) \/ (m <> j /\ cs !! m = Some c').
Proof.
  intros H. destruct (decide (m = j)) as [->|Hne].
  - left. split; [reflexivity|].
    assert (Hlt : (j < length cs)%nat).
    { apply lookup_lt_Some in H. rewrite length_insert in H. exact H. }
    rewrite list_lookup_insert_eq in H by exact Hlt. congruence.
  - right. split; [exact Hne|]. rewrite list_lookup_insert_ne in H by congruence.
    exact H.
Qed.

Lemma quiet_refl c : quiet c c.
Proof. split; auto. Qed.

Lemma quiet_trans c1 c2 c3 : quiet c1 c2 -> quiet c2 c3 -> quiet c1 c3.
Proof. intros [A1 L1] [A2 L2]. split; [congruence | auto]. Qed.

Lemma resolveAttack_quiet attacker target :
  quiet attacker (fst (resolveAttack attacker target)) /\
  quiet target (snd (resolveAttack attacker target)).
Proof.
  unfold resolveAttack. cbv zeta.
  repeat match goal with
         | |- context [if ?b then _ else _] => destruct b
         end; cbn; unfold quiet; cbn; split; split; auto; discriminate.
Qed.

Lemma predation_quiet i cs k cs' k' :
  predation i cs k = Some (cs', k') ->
  length cs' = length cs /\
  forall m c', cs' !! m = Some c' -> exists c, cs !! m = Some c /\ quiet c c'.
Proof.
  intros H. apply predation_shape in H as [->|H].
  { split; [reflexivity|]. intros m c' Hm. exists c'. split; [exact Hm | apply quiet_refl]. }
  destruct H as (a & j & target & Ha & Hj & Hne & _ & _ & _ & ->).
  destruct (resolveAttack_quiet a target) as [Hqa Hqt].
  split; [now rewrite !length_insert|].
  intros m c' Hm.
  apply insert_lookup_cases in Hm as [[-> ->]|[Hmj Hm]].
  - exists target. split; assumption.
  - apply insert_lookup_cases in Hm as [[-> ->]|[Hmi Hm]].
    + exists a. split; assumption.
    + exists c'. split; [exact Hm | apply quiet_refl].
Qed.

Lemma child_newborn parent mate child :
  is_child_of speciesList parent mate child -> age child = 0%Z /\ alive child = true.
Proof. intros (species & sx & t & _ & -> & _). split; reflexivity. Qed.

Lemma reproduction_quiet i cs k cs' k' :
  reproduction speciesList i cs k = Some (cs', k') ->
  (length cs <= length cs')%nat /\
  forall m c', cs' !! m = Some c' ->
    (exists c, cs !! m = Some c /\ quiet c c') \/
    ((length cs <= m)%nat /\ age c' = 0%Z /\ alive c' = true).
Proof.
  intros H. apply reproduction_shape in H as [->|H].
  { split; [lia|]. intros m c' Hm. left. exists c'.
    split; [exact Hm | apply quiet_refl]. }
  destruct H as (parent & j & mate & children & Hp & _ & _ & Hj & _ & Hall & ->).
  split; [rewrite !length_insert, length_app; lia|].
  intros m c' Hm.
  apply insert_lookup_cases in Hm as [[-> ->]|[Hmj Hm]].
  { left. exists mate. split; [exact Hj|]. unfold quiet, halved. cbn. auto. }
  apply insert_lookup_cases in Hm as [[-> ->]|[Hmi Hm]].
  { left. exists parent. split; [exact Hp|]. unfold quiet, halved. cbn. auto. }
  destruct (decide (m < length cs)%nat) as [Hlt|Hge].
  - rewrite lookup_app_l in Hm by exact Hlt. left. exists c'.
    split; [exact Hm | apply quiet_refl].
  - right. split; [lia|]. rewrite lookup_app_r in Hm by lia.
    apply list_elem_of_lookup_2 in Hm.
    rewrite Forall_forall in Hall. exact (child_newborn _ _ _ (Hall _ Hm)).
Qed.

Lemma stepCreature_ages i cs k cs' k' :
  stepCreature world speciesList i cs k = Some (cs', k') ->
  (length cs <= length cs')%nat /\
  forall m c', cs' !! m = Some c' ->
    (exists c, cs !! m = Some c /\ (alive c' = true -> alive c = true) /\
       age c' = if decide (m = i)
                then (if alive c then age c + 1 else age c)%Z
                else age c) \/
    ((length cs <= m)%nat /\ (i < m)%nat /\ age c' = 0%Z /\ alive c' = true).
Proof.
  intros H. apply stepCreature_shape in H as [[-> Hor]|[H|H]].
  - split; [lia|]. intros m c' Hm. left. exists c'. split; [exact Hm|].
    split; [auto|]. destruct (decide (m = i)) as [->|]; [|reflexivity].
    destruct Hor as [E|(c & E & Ha)]; rewrite E in Hm; [discriminate|].
    injection Hm as <-. rewrite Ha. reflexivity.
  - destruct H as (c & Hi & Ha & _ & ->). split; [rewrite length_insert; lia|].
    intros m c' Hm. left.
    apply insert_lookup_cases in Hm as [[-> ->]|[Hne Hm]].
    + exists c. split; [exact Hi|]. split; [discriminate|].
      destruct (decide (i = i)); [|congruence]. rewrite Ha. reflexivity.
    + exists c'. split; [exact Hm|]. split; [auto|].
      destruct (decide (m = i)); [congruence | reflexivity].
  - destruct H as (c & c2 & k2 & cs1 & k3 & Hi & Ha & _ & Hm & Hp & Hr).
    pose proof (movement_keeps_body _ _ _ _ Hm) as Hbody.
    destruct (feed_energy (getBiome world (x c) (y c)) c2) as [_ Hf].
    set (fed := feed (getBiome world (x c) (y c)) c2) in *.
    assert (Hfed : age fed = (age c + 1)%Z /\ alive fed = true).
    { split.
      - change (age (set_pos 0 0 (set_energy 0 fed)) = (age c + 1)%Z).
        rewrite Hf. change (age (set_pos 0 0 c2) = (age c + 1)%Z).
        rewrite Hbody. reflexivity.
      - change (alive (set_pos 0 0 (set_energy 0 fed)) = true).
        rewrite Hf. change (alive (set_pos 0 0 c2) = true).
        rewrite Hbody. exact Ha. }
    destruct (predation_quiet _ _ _ _ _ Hp) as [Hlen1 Hq1].
    destruct (reproduction_quiet _ _ _ _ _ Hr) as [Hlen2 Hq2].
    rewrite length_insert in Hlen1.
    assert (Hilt : (i < length cs)%nat) by (eapply lookup_lt_Some; exact Hi).
    split; [lia|]. intros m c' Hm'.
    destruct (Hq2 m c' Hm') as [(c1 & Hc1 & Hq)|(Hge & Hage & Hal)].
    + left. destruct (Hq1 m c1 Hc1) as (c0 & Hc0 & Hq0).
      pose proof (quiet_trans _ _ _ Hq0 Hq) as [Hage Hal].
      apply insert_lookup_cases in Hc0 as [[-> ->]|[Hne Hc0]].
      * exists c. split; [exact Hi|]. split; [intros _; exact Ha|].
        destruct (decide (i = i)); [|congruence]. rewrite Ha, Hage. apply Hfed.
      * exists c0. split; [exact Hc0|]. split; [exact Hal|].
        destruct (decide (m = i)); [congruence | exact Hage].
    + right. rewrite Hlen1 in Hge. repeat split; try assumption; lia.
Qed.

(** The loop keeps the creatures that were born in the running step in two
    groups: behind the loop index they have had their turn, from the loop
    index on they are as the constructor left them. *)
Lemma creatureLoop_newborns n0 fuel i cs k cs' k' :
  creatureLoop world speciesList fuel i cs k = Some (cs', k') ->
  (n0 <= length cs)%nat ->
  (forall m c, cs !! m = Some c -> (n0 <= m)%nat ->
     ((m < i)%nat -> ticked_newborn c) /\ ((i <= m)%nat -> unticked c)) ->
  (length cs <= length cs')%nat /\
  forall m c', cs' !! m = Some c' -> (n0 <= m)%nat -> ticked_newborn c'.
Proof.
  revert i cs k. induction fuel as [|fuel IH]; intros i cs k H Hn0 Hinv.
  - simpl in H. destruct (cs !! i) as [c|] eqn:Ei; [discriminate|].
    injection H as <- <-. split; [lia|]. intros m c' Hm Hge.
    apply (Hinv m c' Hm Hge).
    apply lookup_lt_Some in Hm. apply lookup_ge_None in Ei. lia.
  - simpl in H. destruct (cs !! i) as [c|] eqn:Ei.
    2:{ injection H as <- <-. split; [lia|]. intros m c' Hm Hge.
        apply (Hinv m c' Hm Hge).
        apply lookup_lt_Some in Hm. apply lookup_ge_None in Ei. lia. }
    apply bind_Some in H as (cs1 & k1 & Hstep & H).
    assert (Hstep' : (length cs <= length cs1)%nat /\
      forall m c', cs1 !! m = Some c' -> (n0 <= m)%nat ->
        ((m < S i)%nat -> ticked_newborn c') /\ ((S i <= m)%nat -> unticked c')).
    { destruct (alive c) eqn:Ea.
      - destruct (stepCreature_ages _ _ _ _ _ Hstep) as [Hlen Hages].
        split; [exact Hlen|]. intros m c' Hm Hge.
        destruct (Hages m c' Hm) as [(c0 & Hc0 & Hal & Hage)|(Hnew & Him & Hage & Hal)].
        + destruct (Hinv m c0 Hc0 Hge) as [Hbehind Hahead].
          destruct (decide (m = i)) as [->|Hne].
          * rewrite Ei in Hc0. injection Hc0 as <-. rewrite Ea in Hage.
            split; [|lia]. intros _. left. rewrite Hage.
            rewrite (Hahead (Nat.le_refl i)). reflexivity.
          * split.
            -- intros Hlt. destruct (Hbehind ltac:(lia)) as [E|[E1 E2]].
               ++ left. congruence.
               ++ right. split; [congruence|].
                  destruct (alive c'); [|reflexivity]. rewrite Hal in E2; congruence.
            -- intros Hle. unfold unticked. rewrite Hage. apply Hahead. lia.
        + split; [lia|]. intros _. exact Hage.
      - injection Hstep as <- <-. split; [lia|]. intros m c' Hm Hge.
        destruct (Hinv m c' Hm Hge) as [Hbehind Hahead].
        split.
        + intros Hlt. destruct (decide (m = i)) as [->|Hne].
          * rewrite Ei in Hm. injection Hm as <-. right.
            split; [apply Hahead; lia | exact Ea].
          * apply Hbehind. lia.
        + intros Hle. apply Hahead. lia. }
    destruct Hstep' as [Hlen1 Hinv1].
    destruct (IH (S i) cs1 k1 H ltac:(lia) Hinv1) as [Hlen2 Hfin].
    split; [lia | exact Hfin].
Qed.

(** C5 (as the code has it). The creature loop of a step reads the length
    of the array again at every turn: it goes on as long as its index is
    inside the array as it is then, so the creatures that reproduction
    appends during the step have their turn in that same step.  When the
    loop is over, every creature behind the initial end of the array has
    been ticked once (its age is 1) unless it was dead when its turn came.
    A tick appends only behind its own index, so a child has its turn
    after the tick of its parent. *)
Theorem creature_loop_reaches_appended_creatures :
  (forall fuel i cs c k,
     cs !! i = Some c ->
     creatureLoop world speciesList (S fuel) i cs k =
       (let* cs1 := if alive c then stepCreature world speciesList i cs else ret cs in
        creatureLoop world speciesList fuel (S i) cs1) k) /\
  (forall fuel i cs k,
     cs !! i = None -> creatureLoop world speciesList fuel i cs k = Some (cs, k)) /\
  (forall i cs k cs' k' m c',
     stepCreature world speciesList i cs k = Some (cs', k') ->
     (length cs <= m)%nat -> cs' !! m = Some c' ->
     (i < m)%nat /\ age c' = 0%Z /\ alive c' = true) /\
  (forall fuel cs k cs' k',
     creatureLoop world speciesList fuel 0 cs k = Some (cs', k') ->
     (length cs <= length cs')%nat /\
     forall m c', (length cs <= m)%nat -> cs' !! m = Some c' ->
       age c' = 1%Z \/ (age c' = 0%Z /\ alive c' = false)).
Proof.
  split; [|split; [|split]].
  - intros fuel i cs c k Hi. simpl. rewrite Hi. reflexivity.
  - intros fuel i cs k Hi. destruct fuel; simpl; rewrite Hi; reflexivity.
  - intros i cs k cs' k' m c' H Hge Hm.
    destruct (stepCreature_ages _ _ _ _ _ H) as [_ Hages].
    destruct (Hages m c' Hm) as [(c0 & Hc0 & _)|(_ & Him & Hage & Hal)].
    + apply lookup_lt_Some in Hc0. lia.
    + auto.
  - intros fuel cs k cs' k' H.
    destruct (creatureLoop_newborns (length cs) fuel 0 cs k cs' k' H (Nat.le_refl _))
      as [Hlen Hfin].
    + intros m c Hm Hge. apply lookup_lt_Some in Hm. lia.
    + split; [exact Hlen|]. intros m c' Hge Hm. exact (Hfin m c' Hm Hge).
Qed.

(** ** Compaction *)

Lemma filter_alive_spec (cs : list Creature) :
  Forall (fun c => alive c = true) (List.filter alive cs) /\
  (forall c, c ∈ List.filter alive cs <-> c ∈ cs /\ alive c = true) /\
  (Forall (fun c => alive c = true) cs -> List.filter alive cs = cs).
Proof.
  split; [|split].
  - apply List.Forall_forall. intros c Hc. apply List.filter_In in Hc. tauto.
  - intros c. rewrite !list_elem_of_In. apply List.filter_In.
  - induction cs as [|c cs IH]; intros H; [reflexivity|].
    inversion H as [|? ? Hc Hcs]; subst. simpl. rewrite Hc. f_equal. exact (IH Hcs).
Qed.

End Registry.

(** * Further properties of the engine *)

(** ** The generated grid *)

Lemma upto_lookup n (v : Z) : (0 <= v < n)%Z -> upto n !! Z.to_nat v = Some v.
Proof.
  intros H. unfold upto. rewrite lookup_seqZ_lt by lia. f_equal. lia.
Qed.

(** The tile [(tx, ty)] of the generated grid holds the biome of the seed
    that the scan selects for it. *)
Lemma generateGrid_lookup seeds grid tx ty :
  generateGrid seeds = Some grid -> in_grid tx ty ->
  exists s, bestSeed seeds tx ty = Some s /\ world_at grid tx ty = biome s.
Proof.
  intros Hg [Hx Hy]. unfold generateGrid in Hg. apply mapM_Some_1 in Hg.
  destruct (Forall2_lookup_l _ _ _ _ _ Hg (upto_lookup _ _ Hy)) as (row & Hrow & Hr).
  unfold generateRow in Hr. apply mapM_Some_1 in Hr.
  destruct (Forall2_lookup_l _ _ _ _ _ Hr (upto_lookup _ _ Hx)) as (b & Hb & Hbest).
  destruct (bestSeed seeds tx ty) as [s|]; [|discriminate].
  simpl in Hbest. injection Hbest as <-.
  exists s. split; [reflexivity|]. unfold world_at. rewrite Hrow, Hb. reflexivity.
Qed.

(** The state of the scan after the seeds [seeds]: the best seed so far is
    at minimal distance, and strictly nearer than every seed before it. *)
Lemma bestSeed_scan tx ty seeds :
  match fold_left (bestSeed_step tx ty) seeds (None, None) with
  | (None, None) => seeds = []
  | (Some s, Some d) =>
      d = seed_dist2 tx ty s /\
      exists j, seeds !! j = Some s /\
        (forall m s', seeds !! m = Some s' -> (d <= seed_dist2 tx ty s')%Z) /\
        (forall m s', (m < j)%nat -> seeds !! m = Some s' -> (d < seed_dist2 tx ty s')%Z)
  | _ => False
  end.
Proof.
  induction seeds as [|a seeds IH] using rev_ind; [reflexivity|].
  rewrite fold_left_app. simpl.
  destruct (fold_left (bestSeed_step tx ty) seeds (None, None)) as [[s|] [d|]];
    try contradiction.
  - destruct IH as (-> & j & Hj & Hmin & Hfirst).
    unfold bestSeed_step. cbn [snd].
    fold (seed_dist2 tx ty a).
    destruct (Z.ltb_spec (seed_dist2 tx ty a) (seed_dist2 tx ty s)) as [Hlt|Hge].
    + split; [reflexivity|]. exists (length seeds). split.
      { rewrite lookup_app_r by lia. rewrite Nat.sub_diag. reflexivity. }
      split.
      * intros m s' Hm. apply lookup_snoc_Some in Hm as [[_ Hm]|[_ <-]]; [|lia].
        specialize (Hmin m s' Hm). lia.
      * intros m s' Hlt' Hm. rewrite lookup_app_l in Hm by exact Hlt'.
        specialize (Hmin m s' Hm). lia.
    + split; [reflexivity|]. exists j.
      assert (Hjlt : (j < length seeds)%nat) by (eapply lookup_lt_Some; exact Hj).
      split; [rewrite lookup_app_l by exact Hjlt; exact Hj|]. split.
      * intros m s' Hm. apply lookup_snoc_Some in Hm as [[_ Hm]|[_ <-]]; [|lia].
        exact (Hmin m s' Hm).
      * intros m s' Hlt' Hm. rewrite lookup_app_l in Hm by lia.
        exact (Hfirst m s' Hlt' Hm).
  - subst seeds. unfold bestSeed_step. cbn [snd]. fold (seed_dist2 tx ty a).
    split; [reflexivity|]. exists 0%nat. split; [reflexivity|]. split.
    + intros [|m] s' Hm; simpl in Hm; [injection Hm as <-; lia | discriminate].
    + intros m s' Hlt. lia.
Qed.

Lemma bestSeed_nearest seeds tx ty s :
  bestSeed seeds tx ty = Some s ->
  exists j, seeds !! j = Some s /\
    (forall m s', seeds !! m = Some s' ->
       (seed_dist2 tx ty s <= seed_dist2 tx ty s')%Z) /\
    (forall m s', (m < j)%nat -> seeds !! m = Some s' ->
       (seed_dist2 tx ty s < seed_dist2 tx ty s')%Z).
Proof.
  unfold bestSeed. intros H. pose proof (bestSeed_scan tx ty seeds) as Hscan.
  destruct (fold_left (bestSeed_step tx ty) seeds (None, None)) as [[s0|] [d|]];
    try contradiction; simpl in H; try discriminate.
  injection H as ->. destruct Hscan as (-> & Hscan). exact Hscan.
Qed.



(** The first seed is a Water seed on a tile of the grid. *)
Lemma generateSeeds_first allowed n k seeds k' :
  unit_draws -> (0 < WORLD_WIDTH)%Z -> (0 < WORLD_HEIGHT)%Z ->
  generateSeeds allowed (S n) 0 k = Some (seeds, k') ->
  exists s0 rest,
    seeds = s0 :: rest /\ biome s0 = water /\ in_grid (seed_x s0) (seed_y s0).
Proof.
  intros Hu Hw Hh H. simpl in H.
  apply bind_Some in H as (s0 & k1 & Hs0 & H).
  apply bind_Some in H as (rest & k2 & _ & H).
  injection H as <- _. exists s0, rest. split; [reflexivity|].
  unfold generateSeed in Hs0.
  apply bind_Some in Hs0 as (sx & k3 & Hsx & Hs0).
  apply bind_Some in Hs0 as (sy & k4 & Hsy & Hs0).
  apply bind_Some in Hs0 as (b & k5 & Hb & Hs0).
  injection Hb as <- _. injection Hs0 as <- _.
  rewrite randomInt_Some in Hsx, Hsy.
  apply Some_pair_eq in Hsx as [<- _]. apply Some_pair_eq in Hsy as [<- _].
  split; [reflexivity|]. cbn [seed_x seed_y]. split; apply randomInt_range; assumption.
Qed.

(** X2. A generated world always has Water: the first seed is a Water seed
    and no other seed is strictly nearer to the tile it was drawn on, so
    that tile is a Water tile of the grid. *)
Theorem generated_world_has_water fuel k pal grid k' :
  unit_draws -> (0 < WORLD_WIDTH)%Z -> (0 < WORLD_HEIGHT)%Z ->
  generateWorld fuel k = Some ((pal, grid), k') ->
  exists tx ty, in_grid tx ty /\ getBiome grid tx ty = water.
Proof.
  intros Hu Hw Hh H. unfold generateWorld in H.
  apply bind_Some in H as (allowed & k1 & Hpal & H).
  apply bind_Some in H as (g & k2 & Hgrid & H).
  injection H as <- <- <-.
  destruct (generateBiomes_spec _ _ _ _ Hu Hpal) as (_ & _ & Hlen & _).
  unfold generateWorldFrom in Hgrid.
  apply bind_Some in Hgrid as (seeds & k3 & Hseeds & Hgrid).
  destruct (generateGrid seeds) as [g'|] eqn:Hg; [|discriminate].
  injection Hgrid as <- <-.
  destruct (length allowed * 3)%nat as [|n] eqn:En; [lia|].
  destruct (generateSeeds_first _ _ _ _ _ Hu Hw Hh Hseeds) as (s0 & rest & -> & Hb & Hin).
  exists (seed_x s0), (seed_y s0). split; [exact Hin|].
  rewrite getBiome_inside by exact Hin.
  destruct (generateGrid_lookup _ _ _ _ Hg Hin) as (s & Hbest & ->).
  destruct (bestSeed_nearest _ _ _ _ Hbest) as (j & Hj & _ & Hfirst).
  destruct j as [|j].
  - simpl in Hj. injection Hj as <-. exact Hb.
  - specialize (Hfirst 0%nat s0 ltac:(lia) eq_refl).
    unfold seed_dist2 in Hfirst. rewrite !Z.sub_diag in Hfirst. exfalso.
    pose proof (Z.square_nonneg (seed_x s0 - seed_x s)).
    pose proof (Z.square_nonneg (seed_y s0 - seed_y s)). lia.
Qed.

(** ** The species list and the initial population *)

Lemma generateSpecies_Some i k sp k' :
  generateSpecies i k = Some (sp, k') -> id sp = i /\ k' = S (S (S k)).
Proof.
  unfold generateSpecies. intros H.
  apply bind_Some in H as (mode & k1 & Hm & H). apply randomChoice_Some in Hm as [_ ->].
  apply bind_Some in H as (diet & k2 & Hd & H). apply randomChoice_Some in Hd as [_ ->].
  apply bind_Some in H as (r & k3 & Hr & H). rewrite random_Some in Hr.
  apply Some_pair_eq in Hr as [_ <-]. injection H as <- <-. split; reflexivity.
Qed.

Lemma generateSpecies_total i k :
  unit_draws -> exists sp, generateSpecies i k = Some (sp, S (S (S k))).
Proof.
  intros Hu. unfold generateSpecies.
  destruct (randomChoice_total [terrestrial; aquatic] k Hu ltac:(discriminate))
    as (mode & Hm & _).
  destruct (randomChoice_total [herbivore; carnivore; omnivore] (S k) Hu
              ltac:(discriminate)) as (diet & Hd & _).
  unfold bind at 1. rewrite Hm. unfold bind at 1. rewrite Hd.
  unfold bind at 1. rewrite random_Some. eexists. reflexivity.
Qed.

Lemma generateSpecies_loop_spec n i k l k' :
  generateSpecies_loop n i k = Some (l, k') ->
  length l = n /\ k' = (k + 3 * n)%nat /\
  forall m sp, l !! m = Some sp -> id sp = (i + Z.of_nat m)%Z.
Proof.
  revert i k l k'. induction n as [|n IH]; intros i k l k' H; simpl in H.
  - injection H as <- <-. split; [reflexivity|]. split; [lia|].
    intros m sp Hm. rewrite lookup_nil in Hm. discriminate.
  - apply bind_Some in H as (s & k1 & Hs & H).
    apply bind_Some in H as (rest & k2 & Hrest & H). injection H as <- <-.
    apply generateSpecies_Some in Hs as [Hid ->].
    apply IH in Hrest as (Hlen & -> & Hids).
    split; [simpl; now rewrite Hlen|]. split; [lia|].
    intros [|m] sp Hm; simpl in Hm.
    + injection Hm as <-. lia.
    + rewrite (Hids m sp Hm). lia.
Qed.

Lemma generateSpecies_loop_total n i k :
  unit_draws -> exists l k', generateSpecies_loop n i k = Some (l, k').
Proof.
  intros Hu. revert i k. induction n as [|n IH]; intros i k; simpl.
  - eexists _, _. reflexivity.
  - destruct (generateSpecies_total i k Hu) as (sp & Hsp).
    unfold bind at 1. rewrite Hsp.
    destruct (IH (i + 1)%Z (S (S (S k)))) as (l & k' & Hl).
    unfold bind at 1. rewrite Hl. eexists _, _. reflexivity.
Qed.

Lemma generateSpeciesList_wf k l k' :
  generateSpeciesList k = Some (l, k') ->
  length l = 10%nat /\ k' = (k + 30)%nat /\ wf_species l /\
  forall sp, sp ∈ l -> index l (id sp) = Some sp.
Proof.
  unfold generateSpeciesList. intros Hl.
  destruct (generateSpecies_loop_spec _ _ _ _ _ Hl) as (Hlen & -> & Hids).
  split; [exact Hlen|]. split; [reflexivity|]. split.
  - intros n sp. unfold index. destruct (n <? 0)%Z eqn:E; [discriminate|].
    apply Z.ltb_ge in E. intros Hn. rewrite (Hids _ _ Hn). lia.
  - intros sp Hin. apply list_elem_of_lookup in Hin as [m Hm].
    rewrite (Hids _ _ Hm). unfold index.
    destruct (0 + Z.of_nat m <? 0)%Z eqn:E; [apply Z.ltb_lt in E; lia|].
    replace (Z.to_nat (0 + Z.of_nat m)) with m by lia. exact Hm.
Qed.

(** X3. [generateSpeciesList] draws thirty numbers and returns ten species;
    the species at index n has id n, so that [speciesList[c.speciesId]]
    finds the species of a creature that was made from the list. *)
Theorem species_list_is_indexed_by_id k :
  unit_draws ->
  exists l,
    generateSpeciesList k = Some (l, (k + 30)%nat) /\
    length l = 10%nat /\
    wf_species l /\
    forall sp, sp ∈ l -> index l (id sp) = Some sp.
Proof.
  intros Hu.
  destruct (generateSpecies_loop_total 10 0%Z k Hu) as (l & k' & Hl).
  change (generateSpeciesList k = Some (l, k')) in Hl.
  destruct (generateSpeciesList_wf _ _ _ Hl) as (Hlen & -> & Hwf & Hidx).
  exists l. repeat split; assumption.
Qed.

Section Population.

Variable world : list (list Biome).
Variable speciesList : list Species.

(** A placement always ends on a tile of the grid, be it an attempt or the
    fallback. *)
Lemma findRandomTile_loop_in_grid n species k :
  unit_draws -> (0 < WORLD_WIDTH)%Z -> (0 < WORLD_HEIGHT)%Z ->
  exists pos k',
    findRandomTile_loop world n species k = Some (pos, k') /\
    in_grid (fst pos) (snd pos).
Proof.
  intros Hu HW HH. revert k. induction n as [|n IH]; intros k; simpl;
    unfold bind at 1; rewrite randomInt_Some;
    unfold bind at 1; rewrite randomInt_Some.
  - eexists _, _. split; [reflexivity|]. split; apply randomInt_range; assumption.
  - assert (Hin : in_grid (Qfloor (rnd k * inject_Z WORLD_WIDTH))
                          (Qfloor (rnd (S k) * inject_Z WORLD_HEIGHT))).
    { split; apply randomInt_range; assumption. }
    destruct (s_movementMode species);
      destruct (bool_decide _); simpl;
      first [apply IH | eexists _, _; split; [reflexivity | exact Hin]].
Qed.

Lemma findRandomTileForSpecies_in_grid species k :
  unit_draws -> (0 < WORLD_WIDTH)%Z -> (0 < WORLD_HEIGHT)%Z ->
  exists pos k',
    findRandomTileForSpecies world species k = Some (pos, k') /\
    in_grid (fst pos) (snd pos).
Proof.
  intros Hu HW HH.
  destruct (findRandomTile_loop_in_grid 1000 species k Hu HW HH)
    as (pos & k' & Hf & Hin).
  exists pos, k'. split; [exact Hf | exact Hin].
Qed.

Lemma initial_variation_within t : initial_variation t -> within_clamps t.
Proof.
  intros ([Hs1 Hs2] & [Ha1 Ha2] & Harm & Hother & _). unfold within_clamps.
  rewrite (Hother size), (Hother offspring_per_cycle), (Hother repro_cooldown),
    (Hother vision_radius) by discriminate.
  cbn [num createBaselineTraits]. repeat split; lra.
Qed.

Lemma spawnIndividual_spec species k c k' :
  spawnIndividual world species k = Some (c, k') ->
  born_of species c /\
  (unit_draws -> initial_variation (traits c)) /\
  (unit_draws -> (0 < WORLD_WIDTH)%Z -> (0 < WORLD_HEIGHT)%Z -> in_grid (x c) (y c)).
Proof.
  unfold spawnIndividual. intros H.
  apply bind_Some in H as (pos & k1 & Hpos & H).
  apply bind_Some in H as (r & k2 & _ & H).
  apply bind_Some in H as (r1 & k3 & Hr1 & H).
  apply bind_Some in H as (r2 & k4 & Hr2 & H).
  apply bind_Some in H as (r3 & k5 & Hr3 & H).
  rewrite random_Some in Hr1, Hr2, Hr3.
  apply Some_pair_eq in Hr1 as [<- <-]. apply Some_pair_eq in Hr2 as [<- <-].
  apply Some_pair_eq in Hr3 as [<- <-].
  injection H as <- <-. split; [|split].
  - unfold born_of, new_Creature. cbn. repeat split; reflexivity.
  - intros Hu. unfold new_Creature. cbn [traits].
    destruct (Hu k2) as [? ?], (Hu (S k2)) as [? ?], (Hu (S (S k2))) as [? ?].
    unfold initial_variation.
    repeat (first [rewrite num_set_num_eq | rewrite num_set_num_ne by discriminate]).
    cbn [num createBaselineTraits].
    split; [split; lra|]. split; [split; lra|]. split; [lra|]. split.
    + intros key Hk1 Hk2 Hk3. rewrite !num_set_num_ne by assumption. reflexivity.
    + intros key. reflexivity.
  - intros Hu HW HH. unfold new_Creature. cbn [x y].
    destruct (findRandomTileForSpecies_in_grid species k Hu HW HH)
      as (pos' & k' & Hpos' & Hin).
    rewrite Hpos' in Hpos. apply Some_pair_eq in Hpos as [<- _]. exact Hin.
Qed.

Lemma spawnIndividuals_Forall (P : Creature -> Prop) n species k cs k' :
  (forall k c k', spawnIndividual world species k = Some (c, k') -> P c) ->
  spawnIndividuals world n species k = Some (cs, k') ->
  length cs = n /\ Forall P cs.
Proof.
  intros HP. revert k cs. induction n as [|n IHn]; intros k cs H.
  - injection H as <- <-. split; [reflexivity | constructor].
  - rewrite spawnIndividuals_S in H.
    apply bind_Some in H as (c & k2 & Hc & H).
    apply bind_Some in H as (rest & k3 & Hrest & H). injection H as <- <-.
    apply IHn in Hrest as [Hlen Hall]. split; [simpl; now rewrite Hlen|].
    constructor; [exact (HP _ _ _ Hc) | exact Hall].
Qed.

Lemma spawnForEach_Forall (P : Creature -> Prop) l k cs k' :
  (forall species k c k', species ∈ l ->
     spawnIndividual world species k = Some (c, k') -> P c) ->
  spawnForEach world l k = Some (cs, k') -> Forall P cs.
Proof.
  revert k cs. induction l as [|species l IH]; intros k cs HP H;
    [|rewrite spawnForEach_cons in H].
  - injection H as <- <-. constructor.
  - apply bind_Some in H as (cs1 & k1 & H1 & H).
    apply bind_Some in H as (rest & k2 & H2 & H). injection H as <- <-.
    apply Forall_app. split.
    + apply (spawnIndividuals_Forall P) in H1 as [_ H1]; [exact H1|].
      intros k0 c k0'. apply HP. left.
    + apply (IH _ _) in H2; [exact H2|].
      intros sp k0 c k0' Hin. apply HP. right. exact Hin.
Qed.

Lemma spawnForEach_blocks (P : Species -> Creature -> Prop) l k cs k' :
  (forall species k c k',
     spawnIndividual world species k = Some (c, k') -> P species c) ->
  spawnForEach world l k = Some (cs, k') ->
  length cs = (15 * length l)%nat /\
  forall q sp r, l !! q = Some sp -> (r < 15)%nat ->
    exists c, cs !! (15 * q + r)%nat = Some c /\ P sp c.
Proof.
  intros HP. revert k cs. induction l as [|species l IH]; intros k cs H;
    [|rewrite spawnForEach_cons in H].
  - injection H as <- <-. split; [reflexivity|]. intros q sp r Hq.
    rewrite lookup_nil in Hq. discriminate.
  - apply bind_Some in H as (cs1 & k1 & H1 & H).
    apply bind_Some in H as (rest & k2 & H2 & H). injection H as <- <-.
    apply (spawnIndividuals_Forall (P species)) in H1 as [Hlen1 Hall1];
      [|intros k0 c k0'; apply HP].
    apply IH in H2 as [Hlen2 Hall2].
    split; [rewrite length_app, Hlen1, Hlen2; simpl; lia|].
    intros [|q] sp r Hq Hr; simpl in Hq.
    + injection Hq as <-.
      destruct (lookup_lt_is_Some_2 cs1 r ltac:(lia)) as [c Hc].
      exists c. replace (15 * 0 + r)%nat with r by lia.
      split; [rewrite lookup_app_l by lia; exact Hc|].
      exact (Forall_lookup_1 _ _ _ _ Hall1 Hc).
    + destruct (Hall2 q sp r Hq Hr) as (c & Hc & HPc). exists c.
      split; [|exact HPc]. rewrite lookup_app_r by lia.
      replace (15 * S q + r - length cs1)%nat with (15 * q + r)%nat by lia.
      exact Hc.
Qed.

(** X4. The initial population has fifteen creatures per species, in the
    order of the species list: the creatures 15 q .. 15 q + 14 are made
    from the species at index q, with its id, mode, diet and cannibalism,
    at age 0, with energy 50 and alive.  With draws in the unit interval
    every one of them stands on a tile of the grid. *)
Theorem initial_population_census k cs k' :
  spawnInitialCreatures world speciesList k = Some (cs, k') ->
  length cs = (15 * length speciesList)%nat /\
  (forall q sp r, speciesList !! q = Some sp -> (r < 15)%nat ->
     exists c, cs !! (15 * q + r)%nat = Some c /\ born_of sp c) /\
  (unit_draws -> (0 < WORLD_WIDTH)%Z -> (0 < WORLD_HEIGHT)%Z ->
   Forall (fun c => in_grid (x c) (y c)) cs).
Proof.
  unfold spawnInitialCreatures. intros H.
  destruct (spawnForEach_blocks born_of _ _ _ _
              (fun sp k0 c k0' Hc => proj1 (spawnIndividual_spec sp k0 c k0' Hc)) H)
    as [Hlen Hblocks].
  split; [exact Hlen|]. split; [exact Hblocks|].
  intros Hu HW HH. apply (spawnForEach_Forall _ _ _ _ _) with (2 := H).
  intros sp k0 c k0' _ Hc.
  exact (proj2 (proj2 (spawnIndividual_spec sp k0 c k0' Hc)) Hu HW HH).
Qed.

(** X5. The genomes of the initial population: max_speed and attack_damage
    lie between 0.8 and 1.2, armor is 0 whatever its factor (the baseline
    armor is 0), every other trait has its baseline value, and the genome
    is within the clamp table of the mutation system. *)
Theorem initial_population_genomes k cs k' :
  unit_draws ->
  spawnInitialCreatures world speciesList k = Some (cs, k') ->
  Forall (fun c => initial_variation (traits c) /\ within_clamps (traits c)) cs.
Proof.
  unfold spawnInitialCreatures. intros Hu H.
  apply (spawnForEach_Forall _ _ _ _ _) with (2 := H).
  intros sp k0 c k0' _ Hc.
  pose proof (proj1 (proj2 (spawnIndividual_spec sp k0 c k0' Hc)) Hu) as Hv.
  split; [exact Hv | exact (initial_variation_within _ Hv)].
Qed.

End Population.

(** ** What a pass of the creature loop does to each creature *)

Section Lives.

Variable world : list (list Biome).
Variable speciesList : list Species.

Lemma set_pos_fields c c' :
  set_pos 0 0 c' = set_pos 0 0 c ->
  same_self c c' /\ age c' = age c /\ alive c' = alive c.
Proof.
  intros H. unfold same_self. repeat split.
  - exact (f_equal speciesId H).
  - exact (f_equal movementMode H).
  - exact (f_equal dietType H).
  - exact (f_equal isCannibal H).
  - exact (f_equal sex H).
  - exact (f_equal traits H).
  - exact (f_equal age H).
  - exact (f_equal alive H).
Qed.

Lemma set_energy_fields c c' :
  set_energy 0 c' = set_energy 0 c ->
  same_self c c' /\ same_tile c c' /\ age c' = age c /\ alive c' = alive c.
Proof.
  intros H. unfold same_self, same_tile. repeat split.
  - exact (f_equal speciesId H).
  - exact (f_equal movementMode H).
  - exact (f_equal dietType H).
  - exact (f_equal isCannibal H).
  - exact (f_equal sex H).
  - exact (f_equal traits H).
  - exact (f_equal x H).
  - exact (f_equal y H).
  - exact (f_equal age H).
  - exact (f_equal alive H).
Qed.

Lemma same_self_refl c : same_self c c.
Proof. unfold same_self. tauto. Qed.

Lemma same_self_trans c1 c2 c3 : same_self c1 c2 -> same_self c2 c3 -> same_self c1 c3.
Proof. unfold same_self. intros H1 H2. repeat split; etransitivity; (apply H2 || apply H1). Qed.

Lemma same_tile_refl c : same_tile c c.
Proof. unfold same_tile. tauto. Qed.

Lemma same_tile_trans c1 c2 c3 : same_tile c1 c2 -> same_tile c2 c3 -> same_tile c1 c3.
Proof. unfold same_tile. intros [? ?] [? ?]. split; congruence. Qed.

Lemma passed_over_refl c : passed_over c c.
Proof.
  split; [apply same_self_refl|]. split; [apply same_tile_refl|]. auto.
Qed.

Lemma passed_over_trans c1 c2 c3 :
  passed_over c1 c2 -> passed_over c2 c3 -> passed_over c1 c3.
Proof.
  intros (S1 & T1 & A1 & L1 & D1) (S2 & T2 & A2 & L2 & D2).
  split; [exact (same_self_trans _ _ _ S1 S2)|].
  split; [exact (same_tile_trans _ _ _ T1 T2)|].
  split; [congruence|]. split; [auto|].
  intros Hd. pose proof (D1 Hd) as ->. exact (D2 Hd).
Qed.

Lemma passed_over_then_ticked c1 c2 c3 :
  passed_over c1 c2 -> ticked c2 c3 -> ticked c1 c3.
Proof.
  intros (S1 & [Tx Ty] & A1 & L1 & _) (S2 & L2 & A2 & O2 & N2).
  split; [exact (same_self_trans _ _ _ S1 S2)|].
  split; [auto|]. split; [congruence|]. split; [exact O2|].
  intros Hin. rewrite <- Tx, <- Ty in Hin. specialize (N2 Hin).
  unfold near in *. rewrite <- Tx, <- Ty. exact N2.
Qed.

Lemma ticked_then_passed_over c1 c2 c3 :
  ticked c1 c2 -> passed_over c2 c3 -> ticked c1 c3.
Proof.
  intros (S1 & L1 & A1 & O1 & N1) (S2 & [Tx Ty] & A2 & L2 & _).
  split; [exact (same_self_trans _ _ _ S1 S2)|].
  split; [exact L1|]. split; [congruence|]. split.
  - intros Ha. destruct S2 as (_ & _ & _ & _ & _ & ->). rewrite A2. auto.
  - intros Hin. specialize (N1 Hin). unfold near in *. rewrite Tx, Ty. exact N1.
Qed.

Lemma resolveAttack_touch attacker target :
  (same_self attacker (fst (resolveAttack attacker target)) /\
   same_tile attacker (fst (resolveAttack attacker target)) /\
   age (fst (resolveAttack attacker target)) = age attacker /\
   alive (fst (resolveAttack attacker target)) = alive attacker) /\
  (same_self target (snd (resolveAttack attacker target)) /\
   same_tile target (snd (resolveAttack attacker target)) /\
   age (snd (resolveAttack attacker target)) = age target /\
   (alive (snd (resolveAttack attacker target)) = true -> alive target = true)).
Proof.
  unfold resolveAttack. cbv zeta.
  repeat match goal with
         | |- context [if ?b then _ else _] => destruct b
         end; cbn; unfold same_self, same_tile; cbn;
    repeat split; auto; discriminate.
Qed.

(** The predation block touches two creatures at most, the attacker at
    [i] and a living target; it moves nobody and revives nobody. *)
Lemma predation_touch i cs k cs' k' :
  predation i cs k = Some (cs', k') ->
  length cs' = length cs /\
  forall m c, cs !! m = Some c ->
    exists c', cs' !! m = Some c' /\
      same_self c c' /\ same_tile c c' /\ age c' = age c /\
      (alive c' = true -> alive c = true) /\
      (m = i -> alive c' = alive c) /\
      (m <> i -> alive c = false -> c' = c).
Proof.
  intros H. apply predation_shape in H as [->|H].
  { split; [reflexivity|]. intros m c Hm. exists c. split; [exact Hm|].
    split; [apply same_self_refl|]. split; [apply same_tile_refl|]. auto. }
  destruct H as (a & j & target & Ha & Hj & Hne & Hal & _ & _ & ->).
  destruct (resolveAttack_touch a target)
    as [(Sa & Ta & Aa & La) (St & Tt & At & Lt)].
  split; [now rewrite !length_insert|].
  assert (Hilt : (i < length cs)%nat) by (eapply lookup_lt_Some; exact Ha).
  assert (Hjlt : (j < length cs)%nat) by (eapply lookup_lt_Some; exact Hj).
  intros m c Hm. destruct (decide (m = j)) as [->|Hmj].
  - rewrite Hj in Hm. injection Hm as <-. eexists.
    split; [apply list_lookup_insert_eq; rewrite length_insert; exact Hjlt|].
    repeat split; try assumption; try apply St; try apply Tt;
      intros; congruence.
  - rewrite list_lookup_insert_ne by congruence.
    destruct (decide (m = i)) as [->|Hmi].
    + rewrite Ha in Hm. injection Hm as <-. eexists.
      split; [apply list_lookup_insert_eq; exact Hilt|].
      repeat split; try assumption; try apply Sa; try apply Ta;
        intros; congruence.
    + rewrite list_lookup_insert_ne by congruence. exists c.
      split; [exact Hm|]. split; [apply same_self_refl|].
      split; [apply same_tile_refl|]. auto.
Qed.

(** Reproduction touches the two parents, both alive, and appends
    newborns. *)
Lemma reproduction_touch i cs k cs' k' :
  reproduction speciesList i cs k = Some (cs', k') ->
  (length cs <= length cs')%nat /\
  (forall m c, cs !! m = Some c ->
     exists c', cs' !! m = Some c' /\
       same_self c c' /\ same_tile c c' /\ age c' = age c /\
       alive c' = alive c /\ (alive c = false -> c' = c)) /\
  (forall m c', (length cs <= m)%nat -> cs' !! m = Some c' ->
     age c' = 0%Z /\ alive c' = true).
Proof.
  intros H. apply reproduction_shape in H as [->|H].
  { split; [lia|]. split.
    - intros m c Hm. exists c. split; [exact Hm|].
      split; [apply same_self_refl|]. split; [apply same_tile_refl|]. auto.
    - intros m c' Hge Hm. apply lookup_lt_Some in Hm. lia. }
  destruct H as (parent & j & mate & children & Hp & Hpa & _ & Hj & Hmate & Hall & ->).
  assert (Hilt : (i < length cs)%nat) by (eapply lookup_lt_Some; exact Hp).
  assert (Hjlt : (j < length cs)%nat) by (eapply lookup_lt_Some; exact Hj).
  destruct Hmate as (Hma & Hji & _).
  split; [rewrite !length_insert, length_app; lia|]. split.
  - intros m c Hm. destruct (decide (m = j)) as [->|Hmj].
    + rewrite Hj in Hm. injection Hm as <-. exists (halved mate). split.
      { apply list_lookup_insert_eq. rewrite length_insert, length_app. lia. }
      unfold halved, same_self, same_tile. cbn. repeat split; auto.
      intros E. congruence.
    + rewrite list_lookup_insert_ne by congruence.
      destruct (decide (m = i)) as [->|Hmi].
      * rewrite Hp in Hm. injection Hm as <-. exists (halved parent). split.
        { apply list_lookup_insert_eq. rewrite length_app. lia. }
        unfold halved, same_self, same_tile. cbn. repeat split; auto.
        intros E. congruence.
      * rewrite list_lookup_insert_ne by congruence.
        rewrite lookup_app_l by (eapply lookup_lt_Some; exact Hm).
        exists c. split; [exact Hm|]. split; [apply same_self_refl|].
        split; [apply same_tile_refl|]. auto.
  - intros m c' Hge Hm.
    rewrite list_lookup_insert_ne in Hm by lia.
    rewrite list_lookup_insert_ne in Hm by lia.
    rewrite lookup_app_r in Hm by lia.
    apply list_elem_of_lookup_2 in Hm. rewrite Forall_forall in Hall.
    exact (child_newborn speciesList _ _ _ (Hall _ Hm)).
Qed.

Lemma destination_near cx cy dir :
  (Z.abs (fst (destination cx cy dir) - cx) <= 1)%Z /\
  (Z.abs (snd (destination cx cy dir) - cy) <= 1)%Z.
Proof.
  unfold destination.
  repeat match goal with
         | |- context [(dir =? ?n)%Z] => destruct (Z.eqb_spec dir n)
         end; cbn [fst snd]; lia.
Qed.

(** The random walk takes a creature of the grid to its own tile or to
    one of the eight tiles around it. *)
Lemma movement_near c k c' k' :
  movement world c k = Some (c', k') -> in_grid (x c) (y c) -> near c c'.
Proof.
  intros H [Hx Hy]. unfold near.
  destruct (movement_cases world c k) as [[_ E]|[_ E]];
    rewrite E in H; apply Some_pair_eq in H as [<- _]; [lia|].
  destruct (destination_near (x c) (y c) (Qfloor (rnd (S k) * inject_Z 8)))
    as [Hdx Hdy].
  destruct (moveTo_cases world c
              (fst (destination (x c) (y c) (Qfloor (rnd (S k) * inject_Z 8))))
              (snd (destination (x c) (y c) (Qfloor (rnd (S k) * inject_Z 8)))))
    as [[-> _]|[-> _]]; [lia|].
  cbn [set_pos x y]. unfold clampX, clampY. lia.
Qed.

(** What a tick does to the array, creature by creature. *)
Lemma stepCreature_effect i cs k cs' k' :
  stepCreature world speciesList i cs k = Some (cs', k') ->
  (length cs <= length cs')%nat /\
  (forall m c, cs !! m = Some c ->
     exists c', cs' !! m = Some c' /\ (passed_over c c' \/ (m = i /\ ticked c c'))) /\
  (forall m c', (length cs <= m)%nat -> cs' !! m = Some c' ->
     age c' = 0%Z /\ alive c' = true).
Proof.
  intros H. destruct (stepCreature_ages world speciesList _ _ _ _ _ H) as [Hlen Hages].
  split; [exact Hlen|]. split.
  2:{ intros m c' Hge Hm.
      destruct (Hages m c' Hm) as [(c & Hc & _)|(_ & _ & Hage & Hal)]; [|auto].
      apply lookup_lt_Some in Hc. lia. }
  clear Hlen Hages.
  apply stepCreature_shape in H as [[-> _]|[H|H]].
  - intros m c Hm. exists c. split; [exact Hm|]. left. apply passed_over_refl.
  - destruct H as (c0 & Hi & Ha & _ & ->).
    assert (Hilt : (i < length cs)%nat) by (eapply lookup_lt_Some; exact Hi).
    intros m c Hm. destruct (decide (m = i)) as [->|Hmi].
    + rewrite Hi in Hm. injection Hm as <-. eexists.
      split; [apply list_lookup_insert_eq; exact Hilt|]. right.
      split; [reflexivity|]. unfold ticked, same_self, near. cbn.
      repeat split; auto; try discriminate; intros; lia.
    + rewrite list_lookup_insert_ne by congruence. exists c.
      split; [exact Hm|]. left. apply passed_over_refl.
  - destruct H as (c0 & c2 & k2 & cs1 & k3 & Hi & Ha & Hd & Hm & Hp & Hr).
    assert (Hilt : (i < length cs)%nat) by (eapply lookup_lt_Some; exact Hi).
    destruct (set_pos_fields _ _ (movement_keeps_body world _ _ _ _ Hm))
      as (S2 & A2 & L2).
    pose proof (movement_near _ _ _ _ Hm) as N2.
    destruct (set_energy_fields _ _
                (proj2 (feed_energy (getBiome world (x c0) (y c0)) c2)))
      as (S3 & T3 & A3 & L3).
    set (fed := feed (getBiome world (x c0) (y c0)) c2) in *.
    destruct (predation_touch _ _ _ _ _ Hp) as [Hlen1 Ht1].
    destruct (reproduction_touch _ _ _ _ _ Hr) as (_ & Ht2 & _).
    intros m c Hmc. destruct (decide (m = i)) as [->|Hmi].
    + rewrite Hi in Hmc. injection Hmc as <-.
      destruct (Ht1 i fed) as (a1 & Ha1 & S4 & T4 & A4 & _ & L4 & _).
      { apply list_lookup_insert_eq. exact Hilt. }
      destruct (Ht2 i a1 Ha1) as (c' & Hc' & S5 & T5 & A5 & L5 & _).
      exists c'. split; [exact Hc'|]. right. split; [reflexivity|].
      assert (Hself : same_self c0 c').
      { apply (same_self_trans _ a1); [|exact S5].
        apply (same_self_trans _ fed); [|exact S4].
        apply (same_self_trans _ c2); [|exact S3]. exact S2. }
      assert (Hage : age c' = (age c0 + 1)%Z).
      { rewrite A5, A4, A3, A2. reflexivity. }
      split; [exact Hself|]. split; [exact Ha|]. split; [exact Hage|]. split.
      * intros _. destruct Hself as (_ & _ & _ & _ & _ & ->). rewrite Hage.
        unfold dies in Hd. apply orb_false_iff in Hd as [Hd _].
        apply Qltb_false in Hd. exact Hd.
      * intros Hin. specialize (N2 Hin). unfold near in *.
        destruct T3 as [T3x T3y], T4 as [T4x T4y], T5 as [T5x T5y].
        rewrite T5x, T5y, T4x, T4y, T3x, T3y. exact N2.
    + destruct (Ht1 m c) as (c1 & Hc1 & S4 & T4 & A4 & L4 & _ & D4).
      { rewrite list_lookup_insert_ne by congruence. exact Hmc. }
      destruct (Ht2 m c1 Hc1) as (c' & Hc' & S5 & T5 & A5 & L5 & D5).
      exists c'. split; [exact Hc'|]. left.
      split; [exact (same_self_trans _ _ _ S4 S5)|].
      split; [exact (same_tile_trans _ _ _ T4 T5)|].
      split; [congruence|]. split; [intros E; apply L4; congruence|].
      intros E. pose proof (D4 Hmi E) as ->. exact (D5 E).
Qed.

(** What the creature loop does from index [i] on: a creature of the array
    is passed over or, from [i] on, ticked once; a creature that the loop
    appends has not yet been ticked or is not older than its max_age. *)
Lemma creatureLoop_effect fuel i cs k cs' k' :
  creatureLoop world speciesList fuel i cs k = Some (cs', k') ->
  (length cs <= length cs')%nat /\
  (forall m c, cs !! m = Some c ->
     exists c', cs' !! m = Some c' /\
       (passed_over c c' \/ ((i <= m)%nat /\ ticked c c'))) /\
  (forall m c', (length cs <= m)%nat -> cs' !! m = Some c' -> seasoned c').
Proof.
  revert i cs k. induction fuel as [|fuel IH]; intros i cs k H; simpl in H.
  - destruct (cs !! i); [discriminate|]. injection H as <- <-.
    split; [lia|]. split.
    + intros m c Hm. exists c. split; [exact Hm|]. left. apply passed_over_refl.
    + intros m c' Hge Hm. apply lookup_lt_Some in Hm. lia.
  - destruct (cs !! i) as [c0|] eqn:Ei.
    2:{ injection H as <- <-. split; [lia|]. split.
        - intros m c Hm. exists c. split; [exact Hm|]. left. apply passed_over_refl.
        - intros m c' Hge Hm. apply lookup_lt_Some in Hm. lia. }
    apply bind_Some in H as (cs1 & k1 & Hstep & H).
    assert (E1 : (length cs <= length cs1)%nat /\
      (forall m c, cs !! m = Some c ->
         exists c1, cs1 !! m = Some c1 /\ (passed_over c c1 \/ (m = i /\ ticked c c1))) /\
      (forall m c1, (length cs <= m)%nat -> cs1 !! m = Some c1 ->
         age c1 = 0%Z /\ alive c1 = true)).
    { destruct (alive c0).
      - exact (stepCreature_effect _ _ _ _ _ Hstep).
      - injection Hstep as <- <-. split; [lia|]. split.
        + intros m c Hm. exists c. split; [exact Hm|]. left. apply passed_over_refl.
        + intros m c' Hge Hm. apply lookup_lt_Some in Hm. lia. }
    destruct E1 as (Hlen1 & Hold1 & Hnew1).
    destruct (IH _ _ _ H) as (Hlen2 & Hold2 & Hnew2).
    split; [lia|]. split.
    + intros m c Hm. destruct (Hold1 m c Hm) as (c1 & Hc1 & Hr1).
      destruct (Hold2 m c1 Hc1) as (c' & Hc' & Hr2).
      exists c'. split; [exact Hc'|].
      destruct Hr1 as [P1|[-> T1]], Hr2 as [P2|[Hle T2]].
      * left. exact (passed_over_trans _ _ _ P1 P2).
      * right. split; [lia|]. exact (passed_over_then_ticked _ _ _ P1 T2).
      * right. split; [lia|]. exact (ticked_then_passed_over _ _ _ T1 P2).
      * lia.
    + intros m c' Hge Hm. destruct (decide (m < length cs1)%nat) as [Hlt|Hnlt].
      * destruct (lookup_lt_is_Some_2 cs1 m Hlt) as [c1 Hc1].
        destruct (Hnew1 m c1 Hge Hc1) as [Hage _].
        destruct (Hold2 m c1 Hc1) as (c'' & Hc'' & Hr2).
        rewrite Hm in Hc''. injection Hc'' as <-. intros Hal.
        destruct Hr2 as [(_ & _ & A & _)|[_ (_ & _ & _ & O & _)]].
        -- left. congruence.
        -- right. exact (O Hal).
      * apply (Hnew2 m c'); [lia | exact Hm].
Qed.

(** C3 (as the code has it). Dead creatures leave the array only at the
    end of a step, after the creature loop, and only in a step that starts
    with a year whose remainder by 5 is zero, as the first step after a
    reset does (year 0).  Nothing is removed in the middle of a step: a
    tick, and so the whole pass of the creature loop, only appends to the
    array, every creature keeps its index, and a creature that is dead
    stays as it is.  A step that compacts removes all the dead, those that
    were dead when it started and those that died in it, and keeps the
    living in their order.  Any other step keeps every creature at its
    index, the dead unchanged.  Every step adds 0.01 to the year. *)
Theorem compaction_is_gated_by_the_year :
  (forall i cs k cs' k',
     stepCreature world speciesList i cs k = Some (cs', k') ->
     (length cs <= length cs')%nat /\
     forall m c, cs !! m = Some c ->
       exists c', cs' !! m = Some c' /\ same_self c c' /\
                  (alive c = false -> c' = c)) /\
  (forall fuel (st : Sim) k st' k',
     stepSimulation world speciesList fuel st k = Some (st', k') ->
     exists cs1,
       creatureLoop world speciesList fuel 0 (creatures st) k = Some (cs1, k') /\
       year st' = (year st + year_step)%float /\
       (length (creatures st) <= length cs1)%nat /\
       (forall m c, creatures st !! m = Some c ->
          exists c', cs1 !! m = Some c' /\ same_self c c' /\
                     (alive c = false -> c' = c)) /\
       (rem5_is_zero (year st) = true ->
          creatures st' = List.filter alive cs1 /\
          Forall (fun c => alive c = true) (creatures st') /\
          (forall c, c ∈ creatures st' <-> c ∈ cs1 /\ alive c = true) /\
          (forall c, c ∈ creatures st -> alive c = false -> c ∉ creatures st')) /\
       (rem5_is_zero (year st) = false ->
          creatures st' = cs1 /\
          (length (creatures st) <= length (creatures st'))%nat /\
          forall m c, creatures st !! m = Some c ->
            exists c', creatures st' !! m = Some c' /\ same_self c c' /\
                       (alive c = false -> c' = c))) /\
  rem5_is_zero 0%float = true.
Proof.
  split; [|split; [|reflexivity]].
  - intros i cs k cs' k' H.
    destruct (stepCreature_effect _ _ _ _ _ H) as (Hlen & Hold & _).
    split; [exact Hlen|]. intros m c Hm.
    destruct (Hold m c Hm) as (c' & Hc' & Hr). exists c'. split; [exact Hc'|].
    destruct Hr as [(Hs & _ & _ & _ & Hd)|[_ (Hs & Ha & _)]].
    + split; assumption.
    + split; [exact Hs | congruence].
  - intros fuel st k st' k' H. unfold stepSimulation in H.
    apply bind_Some in H as (cs1 & k1 & Hloop & H). injection H as <- <-.
    destruct (creatureLoop_effect _ _ _ _ _ _ Hloop) as (Hlen & Hold & _).
    assert (Hkept : forall m c, creatures st !! m = Some c ->
              exists c', cs1 !! m = Some c' /\ same_self c c' /\
                         (alive c = false -> c' = c)).
    { intros m c Hm.
      destruct (Hold m c Hm) as (c' & Hc' & Hr). exists c'. split; [exact Hc'|].
      destruct Hr as [(Hs & _ & _ & _ & Hd)|[_ (Hs & Ha & _)]].
      - split; assumption.
      - split; [exact Hs | congruence]. }
    exists cs1. split; [exact Hloop|]. split; [reflexivity|]. cbn [creatures].
    split; [exact Hlen|]. split; [exact Hkept|]. split.
    + intros E. rewrite E. split; [reflexivity|].
      destruct (filter_alive_spec cs1) as (H1 & H2 & _).
      split; [exact H1|]. split; [exact H2|].
      intros c _ Hdead Hin. apply H2 in Hin as [_ Hal]. congruence.
    + intros E. rewrite E. split; [reflexivity|]. split; [exact Hlen | exact Hkept].
Qed.

(** X6. The dead are left alone.  A pass of the creature loop changes
    nothing of a creature that is dead when the pass starts: it is not
    ticked, no attack is resolved against it and it is nobody's mate; a
    step that does not end with a compaction leaves it at its index as it
    was. *)
Theorem the_dead_are_left_alone :
  (forall fuel i cs k cs' k' m c,
     creatureLoop world speciesList fuel i cs k = Some (cs', k') ->
     cs !! m = Some c -> alive c = false -> cs' !! m = Some c) /\
  (forall fuel st k st' k' m c,
     stepSimulation world speciesList fuel st k = Some (st', k') ->
     rem5_is_zero (year st) = false ->
     creatures st !! m = Some c -> alive c = false ->
     creatures st' !! m = Some c).
Proof.
  assert (Hloop : forall fuel i cs k cs' k' m c,
     creatureLoop world speciesList fuel i cs k = Some (cs', k') ->
     cs !! m = Some c -> alive c = false -> cs' !! m = Some c).
  { intros fuel i cs k cs' k' m c H Hm Hd.
    destruct (creatureLoop_effect _ _ _ _ _ _ H) as (_ & Hold & _).
    destruct (Hold m c Hm) as (c' & Hc' & [(_ & _ & _ & _ & D)|[_ (_ & L & _)]]).
    - rewrite (D Hd) in Hc'. exact Hc'.
    - congruence. }
  split; [exact Hloop|].
  intros fuel st k st' k' m c H Hz Hm Hd. unfold stepSimulation in H.
  apply bind_Some in H as (cs1 & k1 & Hl & H). injection H as <- <-.
  cbn [creatures]. rewrite Hz. exact (Hloop _ _ _ _ _ _ _ _ Hl Hm Hd).
Qed.

(** X7. In one pass of the creature loop a creature keeps its index, its
    species, mode, diet, sex and its whole genome; it does not come back
    to life; it ages by one tick at most; and if it stands on the grid it
    ends the pass on its tile or on one of the eight tiles around it. *)
Theorem a_pass_ages_and_moves_by_one fuel i cs k cs' k' m c :
  creatureLoop world speciesList fuel i cs k = Some (cs', k') ->
  cs !! m = Some c ->
  exists c',
    cs' !! m = Some c' /\ same_self c c' /\
    (alive c' = true -> alive c = true) /\
    (age c' = age c \/ age c' = (age c + 1)%Z) /\
    (in_grid (x c) (y c) -> near c c').
Proof.
  intros H Hm. destruct (creatureLoop_effect _ _ _ _ _ _ H) as (_ & Hold & _).
  destruct (Hold m c Hm)
    as (c' & Hc' & [(S & [Tx Ty] & A & L & _)|[_ (S & L & A & _ & N)]]);
    exists c'; (split; [exact Hc'|]); (split; [exact S|]).
  - split; [exact L|]. split; [left; exact A|].
    intros _. unfold near. rewrite Tx, Ty. lia.
  - split; [auto|]. split; [right; exact A | exact N].
Qed.

(** X8. No living creature is older than its max_age once it has been
    ticked: if this holds of the array when the steps start (as it does
    of creatures of age 0), it holds after any number of steps. *)
Theorem the_living_are_not_older_than_max_age fuel n st k st' k' :
  stepSimulations world speciesList fuel n st k = Some (st', k') ->
  Forall seasoned (creatures st) -> Forall seasoned (creatures st').
Proof.
  revert st k. induction n as [|n IH]; intros st k H Hs; simpl in H.
  - injection H as <- <-. exact Hs.
  - apply bind_Some in H as (st1 & k1 & Hstep & H). apply (IH _ _ H).
    unfold stepSimulation in Hstep.
    apply bind_Some in Hstep as (cs1 & k2 & Hloop & Hstep).
    injection Hstep as <- <-. cbn [creatures].
    assert (Hs1 : Forall seasoned cs1).
    { destruct (creatureLoop_effect _ _ _ _ _ _ Hloop) as (_ & Hold & Hnew).
      apply Forall_lookup_2. intros m c' Hm.
      destruct (decide (m < length (creatures st))%nat) as [Hlt|Hge].
      - destruct (lookup_lt_is_Some_2 _ m Hlt) as [c Hc].
        destruct (Hold m c Hc) as (c'' & Hc'' & Hr).
        rewrite Hm in Hc''. injection Hc'' as <-.
        pose proof (Forall_lookup_1 _ _ _ _ Hs Hc) as Hsc. intros Hal.
        destruct Hr as [(S & _ & A & L & _)|[_ (_ & _ & _ & O & _)]].
        + destruct S as (_ & _ & _ & _ & _ & ->). rewrite A. exact (Hsc (L Hal)).
        + right. exact (O Hal).
      - apply (Hnew m c'); [lia | exact Hm]. }
    destruct (rem5_is_zero (year st)); [|exact Hs1].
    apply List.Forall_forall. intros c Hin. apply List.filter_In in Hin as [Hin _].
    rewrite List.Forall_forall in Hs1. exact (Hs1 c Hin).
Qed.

(** ** What the population inherits *)

Lemma makeChild_born_to creature mate k child k' :
  makeChild speciesList creature mate k = Some (child, k') ->
  born_to speciesList creature mate child.
Proof.
  unfold makeChild. intros H.
  apply bind_Some in H as (r & k1 & _ & H).
  apply bind_Some in H as (mixed & k2 & Hmix & H).
  apply bind_Some in H as (r' & k3 & _ & H).
  apply bind_Some in H as (t & k4 & Ht & H).
  destruct (index speciesList (speciesId creature)) as [species|] eqn:E; [|discriminate].
  injection H as <- <-. exists species. eexists _, mixed, k1, k2, t.
  split; [exact E|]. split; [exact Hmix|]. split; [|reflexivity].
  destruct (Qltb r' 0.4).
  - right. exists k3, k4. exact Ht.
  - left. injection Ht as <- _. reflexivity.
Qed.

Lemma spawnOffspring_born_to n creature mate cs k cs' k' :
  spawnOffspring speciesList n creature mate cs k = Some (cs', k') ->
  exists children,
    cs' = cs ++ children /\ length children = n /\
    Forall (born_to speciesList creature mate) children.
Proof.
  revert cs k. induction n as [|n IH]; intros cs k H; simpl in H.
  - injection H as <- <-. exists []. rewrite app_nil_r. repeat split. constructor.
  - apply bind_Some in H as (child & k1 & Hc & H).
    apply IH in H as (children & -> & Hlen & Hall).
    exists (child :: children). rewrite <- app_assoc. simpl.
    split; [reflexivity|]. split; [now rewrite Hlen|].
    constructor; [eapply makeChild_born_to; exact Hc | exact Hall].
Qed.

(** What [attemptReproduction] does when it appends: the conditions under
    which it does, the number of children and how they are made. *)
Lemma attemptReproduction_births i cs k cs' k' :
  attemptReproduction speciesList i cs k = Some (cs', k') ->
  cs' = cs \/
  exists creature j mate children,
    cs !! i = Some creature /\ alive creature = true /\
    rem_nonzero (inject_Z (age creature)) (num (traits creature) repro_cooldown) = false /\
    cs !! j = Some mate /\ is_mate_for creature i j mate /\
    length children = Z.to_nat (offspringCount creature mate) /\
    Forall (born_to speciesList creature mate) children /\
    cs' = <[j := halved mate]> (<[i := halved creature]> (cs ++ children)).
Proof.
  unfold attemptReproduction. intros H.
  destruct (cs !! i) as [creature|] eqn:Ei; [|injection H as <- <-; now left].
  destruct (alive creature) eqn:Ea; simpl in H; [|injection H as <- <-; now left].
  destruct (rem_nonzero _ _) eqn:Er; [injection H as <- <-; now left|].
  destruct (findMate cs creature i) as [j|] eqn:Em; [|injection H as <- <-; now left].
  pose proof (find_first _ _ _ Em) as (mate & Hj & He & _).
  rewrite Hj in H. apply bind_Some in H as (cs1 & k1 & Hs & H).
  injection H as <- <-.
  apply spawnOffspring_born_to in Hs as (children & -> & Hlen & Hall).
  right. exists creature, j, mate, children.
  apply eligibleMate_spec in He. repeat split; try assumption; apply He.
Qed.

Lemma reproduction_births i cs k cs' k' :
  reproduction speciesList i cs k = Some (cs', k') ->
  cs' = cs \/
  exists creature j mate children,
    cs !! i = Some creature /\ alive creature = true /\
    num (traits creature) stomach_capacity * 0.7 < energy creature /\
    rem_nonzero (inject_Z (age creature)) (num (traits creature) repro_cooldown) = false /\
    cs !! j = Some mate /\ is_mate_for creature i j mate /\
    length children = Z.to_nat (offspringCount creature mate) /\
    Forall (born_to speciesList creature mate) children /\
    cs' = <[j := halved mate]> (<[i := halved creature]> (cs ++ children)).
Proof.
  unfold reproduction. intros H.
  destruct (cs !! i) as [c|] eqn:Ei; [|injection H as <- <-; now left].
  destruct (Qltb _ _) eqn:E; [|injection H as <- <-; now left].
  apply Qltb_true in E.
  apply attemptReproduction_births in H as [->|H]; [now left|].
  destruct H as (creature & j & mate & children & Hi & Ha & Hr & Hj & Hm & Hlen & Hall & ->).
  rewrite Ei in Hi. injection Hi as <-.
  right. exists c, j, mate, children. repeat split; try assumption; apply Hm.
Qed.

Section Hereditary.

(** A property of creatures that depends on what the constructor fixes and
    on the tile only, that the random walk keeps, and that a child has
    when its two parents have it. *)
Variable P : Creature -> Prop.

Hypothesis P_self :
  forall c c', same_self c c' -> same_tile c c' -> P c -> P c'.

Hypothesis P_move : forall c nx ny, P c -> P (moveTo world c nx ny).

Hypothesis P_child :
  forall parent mate child,
    P parent -> P mate -> born_to speciesList parent mate child -> P child.

Lemma stepCreature_keeps i cs k cs' k' :
  stepCreature world speciesList i cs k = Some (cs', k') ->
  Forall P cs -> Forall P cs'.
Proof.
  intros H Hp.
  apply stepCreature_shape in H as [[-> _]|[H|H]]; [exact Hp| |].
  - destruct H as (c & Hi & _ & _ & ->).
    apply Forall_insert; [exact Hp|].
    apply (P_self c); [| |exact (Forall_lookup_1 _ _ _ _ Hp Hi)].
    + unfold same_self. cbn. tauto.
    + unfold same_tile. cbn. tauto.
  - destruct H as (c & c2 & k2 & cs1 & k3 & Hi & _ & _ & Hm & Hpred & Hr).
    pose proof (Forall_lookup_1 _ _ _ _ Hp Hi) as Hpi.
    assert (Hp2 : P c2).
    { destruct (movement_cases world (regenerate (ageAndHunger c)) k) as [[_ E]|[_ E]];
        rewrite E in Hm; apply Some_pair_eq in Hm as [<- _].
      - apply (P_self c); [| |exact Hpi].
        + unfold same_self. cbn. tauto.
        + unfold same_tile. cbn. tauto.
      - apply P_move. apply (P_self c); [| |exact Hpi].
        + unfold same_self. cbn. tauto.
        + unfold same_tile. cbn. tauto. }
    assert (Hp3 : Forall P (<[i := feed (getBiome world (x c) (y c)) c2]> cs)).
    { apply Forall_insert; [exact Hp|].
      destruct (set_energy_fields _ _
                  (proj2 (feed_energy (getBiome world (x c) (y c)) c2)))
        as (S3 & T3 & _).
      exact (P_self _ _ S3 T3 Hp2). }
    assert (Hp4 : Forall P cs1).
    { apply predation_shape in Hpred as [->|Hpred]; [exact Hp3|].
      destruct Hpred as (a & j & target & Ha & Hj & _ & _ & _ & _ & ->).
      destruct (resolveAttack_touch a target) as [(Sa & Ta & _) (St & Tt & _)].
      apply Forall_insert; [apply Forall_insert; [exact Hp3|]|].
      - exact (P_self _ _ Sa Ta (Forall_lookup_1 _ _ _ _ Hp3 Ha)).
      - exact (P_self _ _ St Tt (Forall_lookup_1 _ _ _ _ Hp3 Hj)). }
    apply reproduction_births in Hr as [->|Hr]; [exact Hp4|].
    destruct Hr as (parent & j & mate & children & Hpa & _ & _ & _ & Hj & _ & _ & Hall & ->).
    pose proof (Forall_lookup_1 _ _ _ _ Hp4 Hpa) as Hpp.
    pose proof (Forall_lookup_1 _ _ _ _ Hp4 Hj) as Hpm.
    apply Forall_insert; [apply Forall_insert; [apply Forall_app; split; [exact Hp4|]|]|].
    + eapply Forall_impl; [exact Hall|]. intros child Hchild.
      exact (P_child parent mate child Hpp Hpm Hchild).
    + apply (P_self parent); [| |exact Hpp].
      * unfold same_self. cbn. tauto.
      * unfold same_tile. cbn. tauto.
    + apply (P_self mate); [| |exact Hpm].
      * unfold same_self. cbn. tauto.
      * unfold same_tile. cbn. tauto.
Qed.

Lemma creatureLoop_keeps fuel i cs k cs' k' :
  creatureLoop world speciesList fuel i cs k = Some (cs', k') ->
  Forall P cs -> Forall P cs'.
Proof.
  revert i cs k.
  induction fuel as [|fuel IH]; intros i cs k H Hp; simpl in H.
  - destruct (cs !! i); [discriminate|]. injection H as <- <-. exact Hp.
  - destruct (cs !! i) as [c|] eqn:Ei; [|injection H as <- <-; exact Hp].
    apply bind_Some in H as (cs1 & k1 & Hstep & H).
    apply (IH _ _ _ H). destruct (alive c).
    + exact (stepCreature_keeps _ _ _ _ _ Hstep Hp).
    + injection Hstep as <- <-. exact Hp.
Qed.

Lemma stepSimulation_keeps fuel st k st' k' :
  stepSimulation world speciesList fuel st k = Some (st', k') ->
  Forall P (creatures st) -> Forall P (creatures st').
Proof.
  intros Hstep Hp. unfold stepSimulation in Hstep.
  apply bind_Some in Hstep as (cs1 & k2 & Hloop & Hstep).
  injection Hstep as <- <-. cbn [creatures].
  pose proof (creatureLoop_keeps _ _ _ _ _ _ Hloop Hp) as Hp1.
  destruct (rem5_is_zero (year st)); [|exact Hp1].
  apply List.Forall_forall. intros c Hin. apply List.filter_In in Hin as [Hin _].
  rewrite List.Forall_forall in Hp1. exact (Hp1 c Hin).
Qed.

Lemma stepSimulations_keeps fuel n st k st' k' :
  stepSimulations world speciesList fuel n st k = Some (st', k') ->
  Forall P (creatures st) -> Forall P (creatures st').
Proof.
  revert st k. induction n as [|n IH]; intros st k H Hp; simpl in H.
  - injection H as <- <-. exact Hp.
  - apply bind_Some in H as (st1 & k1 & Hstep & H). apply (IH _ _ H).
    exact (stepSimulation_keeps _ _ _ _ _ Hstep Hp).
Qed.

End Hereditary.

(** A property of the genome alone that mixing and mutation keep is kept
    by the population. *)
Lemma genomes_keep (good : Traits -> Prop) fuel n st k st' k' :
  (forall a b k0 t k1, good a -> good b -> mixTraits a b k0 = Some (t, k1) -> good t) ->
  (forall t k0 t' k1, good t -> applyMutation t k0 = Some (t', k1) -> good t') ->
  stepSimulations world speciesList fuel n st k = Some (st', k') ->
  Forall (fun c => good (traits c)) (creatures st) ->
  Forall (fun c => good (traits c)) (creatures st').
Proof.
  intros Hmix Hmut. apply stepSimulations_keeps.
  - intros c c' (_ & _ & _ & _ & _ & ->) _ H. exact H.
  - intros c nx ny H.
    destruct (set_pos_fields _ _ (destination_moves_only_position world c nx ny))
      as ((_ & _ & _ & _ & _ & ->) & _). exact H.
  - intros parent mate child Hp Hm (sp & sx & mixed & k0 & k1 & t & _ & Hmixed & Ht & ->).
    unfold new_Creature. cbn [traits].
    pose proof (Hmix _ _ _ _ _ Hp Hm Hmixed) as Hg.
    destruct Ht as [->|(k2 & k3 & Ht)]; [exact Hg|].
    exact (Hmut _ _ _ _ Hg Ht).
Qed.

Lemma Qmean_ge a b lo : lo <= a -> lo <= b -> lo <= (a + b) / 2.
Proof.
  intros. assert (E : (a + b) / 2 == a * (1 # 2) + b * (1 # 2)) by field.
  rewrite E. lra.
Qed.

Lemma Qmean_le a b hi : a <= hi -> b <= hi -> (a + b) / 2 <= hi.
Proof.
  intros. assert (E : (a + b) / 2 == a * (1 # 2) + b * (1 # 2)) by field.
  rewrite E. lra.
Qed.

Lemma mixTraits_within a b k t k' :
  within_clamps a -> within_clamps b -> mixTraits a b k = Some (t, k') ->
  within_clamps t.
Proof.
  intros Ha Hb H. destruct (mixTraits_Some a b k) as (t0 & Ht0 & Hmean).
  rewrite Ht0 in H. apply Some_pair_eq in H as [<- _].
  unfold within_clamps in *. rewrite !Hmean.
  destruct Ha as ([? ?] & [? ?] & [? ?] & ? & [? ?] & [? ?] & [? ?]).
  destruct Hb as ([? ?] & [? ?] & [? ?] & ? & [? ?] & [? ?] & [? ?]).
  repeat split; first [apply Qmean_ge | apply Qmean_le]; assumption.
Qed.

(** X9. The whole population stays within the clamp table of the mutation
    system: a child's genome is the mean of two genomes within the table,
    mutated or not, and no tick changes the genome of a creature. *)
Theorem population_stays_within_clamps fuel n st k st' k' :
  stepSimulations world speciesList fuel n st k = Some (st', k') ->
  Forall (fun c => within_clamps (traits c)) (creatures st) ->
  Forall (fun c => within_clamps (traits c)) (creatures st').
Proof.
  apply (genomes_keep within_clamps).
  - intros a b k0 t k1. apply mixTraits_within.
  - intros t k0 t' k1 Ht H. exact (applyMutation_within _ _ _ _ H Ht).
Qed.

(** X10. The traits that are not in the list of mutable traits never
    evolve: in a population that starts with the baseline values for them
    every creature of every later generation has these values; the
    stomach capacity is 60, the bite force 1 and the shell hardness 0 for
    ever. *)
Theorem unlisted_traits_never_evolve fuel n st k st' k' :
  stepSimulations world speciesList fuel n st k = Some (st', k') ->
  Forall (fun c => baseline_fixed (traits c)) (creatures st) ->
  Forall (fun c => baseline_fixed (traits c) /\
                   num (traits c) stomach_capacity == 60 /\
                   num (traits c) bite_force == 1 /\
                   num (traits c) shell_hardness == 0) (creatures st').
Proof.
  intros H Hb.
  assert (Hb' : Forall (fun c => baseline_fixed (traits c)) (creatures st')).
  { revert H Hb. apply (genomes_keep baseline_fixed).
    - intros a b k0 t k1 Ha Hb H key Hkey Hm.
      destruct (mixTraits_Some a b k0) as (t0 & Ht0 & Hmean).
      rewrite Ht0 in H. apply Some_pair_eq in H as [<- _]. rewrite Hmean.
      rewrite (Ha key Hkey Hm), (Hb key Hkey Hm). field.
    - intros t k0 t' k1 Ht H key Hkey Hm.
      rewrite (applyMutation_others _ _ _ _ key H Hkey Hm). exact (Ht key Hkey Hm). }
  eapply Forall_impl; [exact Hb'|]. intros c Hc. split; [exact Hc|].
  assert (Hk : forall key v,
            key ∉ MUTABLE_NUMERIC_TRAITS -> key <> metabolism_rate ->
            num createBaselineTraits key == v -> num (traits c) key == v).
  { intros key v H1 H2 H3. rewrite (Hc key H1 H2). exact H3. }
  repeat split; apply Hk; try discriminate; try reflexivity;
    (unfold MUTABLE_NUMERIC_TRAITS; rewrite !not_elem_of_cons;
     repeat split; try discriminate; apply not_elem_of_nil).
Qed.

(** X11. A creature never leaves the grid: the random walk clamps every
    destination it accepts, and a child is born on its parent's tile. *)
Theorem creatures_stay_on_the_grid fuel n st k st' k' :
  stepSimulations world speciesList fuel n st k = Some (st', k') ->
  Forall (fun c => in_grid (x c) (y c)) (creatures st) ->
  Forall (fun c => in_grid (x c) (y c)) (creatures st').
Proof.
  apply (stepSimulations_keeps (fun c => in_grid (x c) (y c))).
  - intros c c' _ [-> ->] H. exact H.
  - intros c nx ny H.
    destruct (moveTo_cases world c nx ny) as [[-> _]|[-> _]]; [exact H|].
    cbn [set_pos x y]. apply clamp_lands_in_grid; destruct H as [? ?]; lia.
  - intros parent mate child Hp _ (sp & sx & mixed & k0 & k1 & t & _ & _ & _ & ->).
    exact Hp.
Qed.

(** ** Who attacks whom *)

Lemma sq_sum_le_1 dx dy :
  (dx * dx + dy * dy <= 1)%Z <-> (Z.abs dx + Z.abs dy <= 1)%Z.
Proof.
  split; intros H.
  - assert (-1 <= dx <= 1)%Z by nia. assert (-1 <= dy <= 1)%Z by nia.
    assert (dx = 0 \/ dy = 0)%Z by nia. lia.
  - assert (Hx : (dx = -1 \/ dx = 0 \/ dx = 1)%Z) by lia.
    assert (Hy : (dy = -1 \/ dy = 0 \/ dy = 1)%Z) by lia.
    destruct Hx as [-> | [-> | ->]], Hy as [-> | [-> | ->]]; simpl in *; lia.
Qed.

Lemma nearby_iff c i r2 j other :
  nearby c i r2 j other = true <->
  alive other = true /\ j <> i /\
  ((x other - x c) * (x other - x c) + (y other - y c) * (y other - y c) <= r2)%Z.
Proof using.
  clear. unfold nearby. destruct (alive other); simpl;
    [|split; [discriminate | intros [? _]; discriminate]].
  destruct (Nat.eqb_spec j i) as [->|Hne].
  - split; [discriminate | intros (_ & Hn & _); congruence].
  - rewrite Z.leb_le. tauto.
Qed.

(** X12. The target of an attack is the first creature of the array, other
    than the attacker, that is alive and within squared distance 1: on the
    attacker's tile or on one of the four tiles that share an edge with
    it.  A creature on a diagonal neighbour is out of reach, although it
    can be a mate. *)
Theorem attacks_reach_the_four_neighbours cs c i :
  (forall j, findNearbyCreature cs c i 1 = Some j ->
     exists other,
       cs !! j = Some other /\ alive other = true /\ j <> i /\
       (Z.abs (x other - x c) + Z.abs (y other - y c) <= 1)%Z /\
       forall m o, (m < j)%nat -> cs !! m = Some o -> alive o = true -> m <> i ->
         (1 < Z.abs (x o - x c) + Z.abs (y o - y c))%Z) /\
  (findNearbyCreature cs c i 1 = None ->
   forall m o, cs !! m = Some o -> alive o = true -> m <> i ->
     (1 < Z.abs (x o - x c) + Z.abs (y o - y c))%Z).
Proof.
  unfold findNearbyCreature. change (1 * 1)%Z with 1%Z.
  assert (Hfar : forall m o, nearby c i 1 m o = false ->
            alive o = true -> m <> i ->
            (1 < Z.abs (x o - x c) + Z.abs (y o - y c))%Z).
  { intros m o Hn Ha Hm.
    destruct (Z.le_gt_cases (Z.abs (x o - x c) + Z.abs (y o - y c)) 1) as [Hle|Hgt];
      [|lia].
    apply sq_sum_le_1 in Hle.
    assert (Ht : nearby c i 1 m o = true) by (apply nearby_iff; auto).
    congruence. }
  split.
  - intros j H. destruct (find_first _ _ _ H) as (other & Hj & Hn & Hbefore).
    apply nearby_iff in Hn as (Ha & Hne & Hd). apply sq_sum_le_1 in Hd.
    exists other. repeat split; try assumption.
    intros m o Hlt Hm. apply Hfar. exact (Hbefore m o Hlt Hm).
  - intros H m o Hm. apply Hfar. exact (find_from_None _ _ _ H m o Hm).
Qed.

(** X13. A herbivore attacks nobody, and a creature that is not a cannibal
    attacks nobody of its own species: whatever the draws, the tick of
    such a creature leaves every other creature concerned as it was, or
    with half of its energy if it is taken as the mate. *)
Theorem herbivores_and_kin_do_no_harm i cs k cs' k' attacker m c :
  stepCreature world speciesList i cs k = Some (cs', k') ->
  cs !! i = Some attacker -> cs !! m = Some c -> m <> i ->
  dietType attacker = herbivore
  \/ (isCannibal attacker = false /\ speciesId c = speciesId attacker) ->
  cs' !! m = Some c \/ cs' !! m = Some (halved c).
Proof.
  intros H Hi Hm Hmi Hor.
  apply stepCreature_shape in H as [[-> _]|[H|H]]; [left; exact Hm| |].
  - destruct H as (c0 & _ & _ & _ & ->). left.
    rewrite list_lookup_insert_ne by congruence. exact Hm.
  - destruct H as (c0 & c2 & k2 & cs1 & k3 & Hi' & _ & _ & Hmv & Hp & Hr).
    rewrite Hi in Hi'. injection Hi' as <-.
    destruct (set_pos_fields _ _ (movement_keeps_body world _ _ _ _ Hmv))
      as (S2 & _).
    destruct (set_energy_fields _ _
                (proj2 (feed_energy (getBiome world (x attacker) (y attacker)) c2)))
      as (S3 & _).
    set (fed := feed (getBiome world (x attacker) (y attacker)) c2) in *.
    assert (Hfed : same_self attacker fed).
    { apply (same_self_trans _ c2); [exact S2 | exact S3]. }
    destruct Hfed as (Hsp & _ & Hdiet & Hcan & _).
    assert (Hilt : (i < length cs)%nat) by (eapply lookup_lt_Some; exact Hi).
    assert (Hm1 : cs1 !! m = Some c).
    { apply predation_shape in Hp as [->|Hp].
      - rewrite list_lookup_insert_ne by congruence. exact Hm.
      - destruct Hp as (a & j & target & Ha & Hj & Hne & _ & Hcarn & Hkin & ->).
        rewrite list_lookup_insert_eq in Ha by exact Hilt. injection Ha as <-.
        rewrite list_lookup_insert_ne in Hj by congruence.
        destruct (decide (m = j)) as [->|Hmj].
        + rewrite Hm in Hj. injection Hj as <-. exfalso.
          destruct Hor as [Hh|[Hnc Hsame]].
          * rewrite Hdiet, Hh in Hcarn. destruct Hcarn; discriminate.
          * rewrite Hsp, Hcan in Hkin. destruct Hkin; congruence.
        + rewrite !list_lookup_insert_ne by congruence. exact Hm. }
    apply reproduction_shape in Hr as [->|Hr]; [left; exact Hm1|].
    destruct Hr as (parent & j & mate & children & _ & _ & _ & Hj & _ & _ & ->).
    assert (Hjlt : (j < length cs1)%nat) by (eapply lookup_lt_Some; exact Hj).
    destruct (decide (m = j)) as [->|Hmj].
    + right. rewrite Hm1 in Hj. injection Hj as <-.
      apply list_lookup_insert_eq. rewrite length_insert, length_app. lia.
    + left. rewrite !list_lookup_insert_ne by congruence.
      rewrite lookup_app_l by (eapply lookup_lt_Some; exact Hm1). exact Hm1.
Qed.

(** ** Births *)

Lemma rem_nonzero_false a b :
  rem_nonzero a b = false -> ~ b == 0 /\ exists q : Z, a == inject_Z q * b.
Proof.
  unfold rem_nonzero, js_rem. destruct (Qeq_bool b 0) eqn:E; [discriminate|].
  intros H. apply negb_false_iff in H. apply Qeq_bool_iff in H.
  split; [apply Qeq_bool_neq; exact E|].
  exists (Qtrunc (a / b)).
  rewrite <- (Qplus_0_r (inject_Z (Qtrunc (a / b)) * b)), <- H. ring.
Qed.

Lemma multiple_ge a (q : Z) cd :
  1 <= a -> a == inject_Z q * cd -> 80 <= cd -> 80 <= a.
Proof.
  intros Ha Hq Hcd. destruct (Z_le_gt_dec q 0) as [Hle|Hgt].
  - rewrite Zle_Qle in Hle. change (inject_Z 0) with 0 in Hle. nra.
  - assert (H1 : (1 <= q)%Z) by lia. rewrite Zle_Qle in H1.
    change (inject_Z 1) with 1 in H1. nra.
Qed.

Lemma offspringCount_bounds creature mate :
  within_clamps (traits creature) -> within_clamps (traits mate) ->
  (1 <= offspringCount creature mate <= 5)%Z.
Proof.
  intros (_ & _ & _ & _ & [? ?] & _) (_ & _ & _ & _ & [? ?] & _).
  unfold offspringCount, Math_round.
  set (v := (num (traits creature) offspring_per_cycle
             + num (traits mate) offspring_per_cycle) / 2).
  assert (Hv : 1 <= v /\ v <= 5)
    by (split; [apply Qmean_ge | apply Qmean_le]; assumption).
  destruct Hv as [Hv1 Hv5]. split.
  - apply Z.le_trans with (Qfloor (1 + 0.5)); [vm_compute; discriminate|].
    apply Qfloor_resp_le. lra.
  - apply Z.le_trans with (Qfloor (5 + 0.5)); [|vm_compute; discriminate].
    apply Qfloor_resp_le. lra.
Qed.

(** A tick that changes the length of the array is a tick with a birth:
    the creature was alive, it has reached the reproduction stage one tick
    older, with more energy than 70% of its capacity and at a multiple of
    its cooldown, and it has found a mate. *)
Lemma stepCreature_birth i cs k cs' k' c :
  stepCreature world speciesList i cs k = Some (cs', k') ->
  cs !! i = Some c -> length cs' <> length cs ->
  exists p j mate0 mate (children : list Creature),
    alive c = true /\ same_self c p /\ age p = (age c + 1)%Z /\
    num (traits p) stomach_capacity * 0.7 < energy p /\
    rem_nonzero (inject_Z (age p)) (num (traits p) repro_cooldown) = false /\
    cs !! j = Some mate0 /\ same_self mate0 mate /\
    is_mate_for p i j mate /\
    length children = Z.to_nat (offspringCount p mate) /\
    length cs' = (length cs + length children)%nat /\
    cs' !! i = Some (halved p) /\ cs' !! j = Some (halved mate).
Proof.
  intros H Hi Hlen.
  apply stepCreature_shape in H as [[-> _]|[H|H]]; [congruence| |].
  { destruct H as (c0 & _ & _ & _ & ->). rewrite length_insert in Hlen. congruence. }
  destruct H as (c0 & c2 & k2 & cs1 & k3 & Hi' & Ha & _ & Hmv & Hp & Hr).
  rewrite Hi in Hi'. injection Hi' as <-.
  assert (Hilt : (i < length cs)%nat) by (eapply lookup_lt_Some; exact Hi).
  destruct (set_pos_fields _ _ (movement_keeps_body world _ _ _ _ Hmv))
    as (S2 & A2 & _).
  destruct (set_energy_fields _ _
              (proj2 (feed_energy (getBiome world (x c) (y c)) c2)))
    as (S3 & _ & A3 & _).
  set (fed := feed (getBiome world (x c) (y c)) c2) in *.
  destruct (predation_touch _ _ _ _ _ Hp) as [Hlen1 Ht1].
  rewrite length_insert in Hlen1.
  apply reproduction_births in Hr as [->|Hr]; [congruence|].
  destruct Hr as (p & j & mate & children & Hpa & _ & He & Hrem & Hj & Hmate & Hlenc & _ & ->).
  destruct (Ht1 i fed) as (a1 & Ha1 & S4 & _ & A4 & _).
  { apply list_lookup_insert_eq. exact Hilt. }
  rewrite Hpa in Ha1. injection Ha1 as <-.
  assert (Hjlt : (j < length cs)%nat).
  { rewrite <- Hlen1. eapply lookup_lt_Some. exact Hj. }
  destruct (lookup_lt_is_Some_2 cs j Hjlt) as [mate0 Hmate0].
  assert (Hji : j <> i) by (destruct Hmate as (_ & Hji & _); exact Hji).
  destruct (Ht1 j mate0) as (m1 & Hm1 & S5 & _).
  { rewrite list_lookup_insert_ne by congruence. exact Hmate0. }
  rewrite Hj in Hm1. injection Hm1 as <-.
  exists p, j, mate0, mate, children.
  split; [exact Ha|]. split.
  { apply (same_self_trans _ fed); [|exact S4].
    apply (same_self_trans _ c2); [exact S2 | exact S3]. }
  split; [rewrite A4, A3, A2; reflexivity|].
  split; [exact He|]. split; [exact Hrem|]. split; [exact Hmate0|].
  split; [exact S5|]. split; [exact Hmate|]. split; [exact Hlenc|].
  split; [rewrite !length_insert, length_app; lia|]. split.
  - rewrite list_lookup_insert_ne by congruence.
    apply list_lookup_insert_eq. rewrite length_app. lia.
  - apply list_lookup_insert_eq. rewrite length_insert, length_app. lia.
Qed.

(** X14. A tick appends children only when the ticking creature is alive,
    has more energy than 70% of its stomach capacity at the reproduction
    stage, has found a mate, and has reached an age that is an exact
    multiple of its repro_cooldown, which is not zero.  With a cooldown of
    at least 80, the lower clamp, no creature gives birth before its 80th
    tick. *)
Theorem births_need_a_ripe_parent i cs k cs' k' c :
  stepCreature world speciesList i cs k = Some (cs', k') ->
  cs !! i = Some c -> (length cs < length cs')%nat ->
  alive c = true /\
  ~ num (traits c) repro_cooldown == 0 /\
  (exists q : Z,
     inject_Z (age c + 1) == inject_Z q * num (traits c) repro_cooldown) /\
  (exists p j mate,
     cs' !! i = Some (halved p) /\ cs' !! j = Some (halved mate) /\
     num (traits c) stomach_capacity * 0.7 < energy p /\
     is_mate_for p i j mate) /\
  (80 <= num (traits c) repro_cooldown -> (0 <= age c)%Z -> (79 <= age c)%Z).
Proof.
  intros H Hi Hlt.
  destruct (stepCreature_birth _ _ _ _ _ _ H Hi ltac:(lia))
    as (p & j & mate0 & mate & children & Ha & S & A & He & Hrem & _ & _ & Hmate
        & _ & _ & Hpi & Hpj).
  destruct S as (_ & _ & _ & _ & _ & St). rewrite St, A in *.
  apply rem_nonzero_false in Hrem as [Hnz [q Hq]].
  split; [exact Ha|]. split; [exact Hnz|]. split; [exists q; exact Hq|].
  split; [exists p, j, mate; repeat split; try assumption; apply Hmate|].
  intros Hcd Hage.
  assert (H1 : 1 <= inject_Z (age c + 1)).
  { change 1 with (inject_Z 1). rewrite <- Zle_Qle. lia. }
  pose proof (multiple_ge _ _ _ H1 Hq Hcd) as H80.
  change 80 with (inject_Z 80) in H80. rewrite <- Zle_Qle in H80. lia.
Qed.

Lemma stepCreature_growth i cs k cs' k' :
  stepCreature world speciesList i cs k = Some (cs', k') ->
  Forall (fun c => within_clamps (traits c)) cs ->
  length cs' = length cs \/
  (length cs + 1 <= length cs' /\ length cs' <= length cs + 5)%nat.
Proof.
  intros H Hw. destruct (decide (length cs' = length cs)) as [E|Hne]; [left; exact E|].
  right. destruct (cs !! i) as [c|] eqn:Ei.
  2:{ unfold stepCreature in H. rewrite Ei in H. injection H as <- _. congruence. }
  destruct (stepCreature_birth _ _ _ _ _ _ H Ei Hne)
    as (p & j & mate0 & mate & children & _ & Sp & _ & _ & _ & Hj & Sm & _
        & Hlenc & Hlen & _).
  assert (Hwp : within_clamps (traits p)).
  { destruct Sp as (_ & _ & _ & _ & _ & ->). exact (Forall_lookup_1 _ _ _ _ Hw Ei). }
  assert (Hwm : within_clamps (traits mate)).
  { destruct Sm as (_ & _ & _ & _ & _ & ->). exact (Forall_lookup_1 _ _ _ _ Hw Hj). }
  pose proof (offspringCount_bounds p mate Hwp Hwm). lia.
Qed.

(** X15. In a population within the clamp table a tick that reproduces
    appends between one and five children: the parents never pay the
    energy cost for an empty litter, and a tick never adds more than five
    creatures to the array. *)
Theorem a_litter_has_one_to_five i cs k cs' k' :
  stepCreature world speciesList i cs k = Some (cs', k') ->
  Forall (fun c => within_clamps (traits c)) cs ->
  length cs' = length cs \/
  (length cs + 1 <= length cs' /\ length cs' <= length cs + 5)%nat.
Proof. exact (stepCreature_growth i cs k cs' k'). Qed.

(** ** The creature loop comes to an end *)

Lemma viable_same_self c c' :
  same_self c c' -> viable speciesList c -> viable speciesList c'.
Proof.
  intros (Hs & _ & _ & _ & _ & Ht) [Hw Hr]. unfold viable, registered.
  rewrite Hs, Ht. split; assumption.
Qed.

Lemma viable_child parent mate child :
  wf_species speciesList ->
  viable speciesList parent -> viable speciesList mate ->
  born_to speciesList parent mate child -> viable speciesList child.
Proof.
  intros Hwf [Hwp _] [Hwm _] (sp & sx & mixed & k0 & k1 & t & Hidx & Hmix & Ht & ->).
  unfold viable, registered, new_Creature. cbn [traits speciesId]. split.
  - pose proof (mixTraits_within _ _ _ _ _ Hwp Hwm Hmix) as Hg.
    destruct Ht as [->|(k2 & k3 & Ht)]; [exact Hg|].
    exact (applyMutation_within _ _ _ _ Ht Hg).
  - rewrite (Hwf _ _ Hidx). rewrite Hidx. eexists. reflexivity.
Qed.

Lemma creatureLoop_viable fuel i cs k cs' k' :
  wf_species speciesList ->
  creatureLoop world speciesList fuel i cs k = Some (cs', k') ->
  Forall (viable speciesList) cs -> Forall (viable speciesList) cs'.
Proof.
  intros Hwf. apply creatureLoop_keeps.
  - intros c c' S _. exact (viable_same_self c c' S).
  - intros c nx ny.
    destruct (set_pos_fields _ _ (destination_moves_only_position world c nx ny))
      as (S & _).
    exact (viable_same_self _ _ S).
  - intros parent mate child. exact (viable_child parent mate child Hwf).
Qed.

Lemma stepCreature_viable i cs k cs' k' :
  wf_species speciesList ->
  stepCreature world speciesList i cs k = Some (cs', k') ->
  Forall (viable speciesList) cs -> Forall (viable speciesList) cs'.
Proof.
  intros Hwf. apply stepCreature_keeps.
  - intros c c' S _. exact (viable_same_self c c' S).
  - intros c nx ny.
    destruct (set_pos_fields _ _ (destination_moves_only_position world c nx ny))
      as (S & _).
    exact (viable_same_self _ _ S).
  - intros parent mate child. exact (viable_child parent mate child Hwf).
Qed.

(** The tick of a creature of age 0 reaches the reproduction stage at age
    1, which is no multiple of a cooldown of 80 or more. *)
Lemma newborn_tick_keeps_length i cs k cs' k' c :
  stepCreature world speciesList i cs k = Some (cs', k') ->
  cs !! i = Some c -> age c = 0%Z -> 80 <= num (traits c) repro_cooldown ->
  length cs' = length cs.
Proof.
  intros H Hi Hage Hcd.
  destruct (decide (length cs' = length cs)) as [E|Hne]; [exact E | exfalso].
  destruct (stepCreature_birth _ _ _ _ _ _ H Hi Hne)
    as (p & j & mate0 & mate & children & _ & S & A & _ & Hrem & _).
  destruct S as (_ & _ & _ & _ & _ & St). rewrite St, A, Hage in Hrem.
  apply rem_nonzero_false in Hrem as [_ [q Hq]].
  change (inject_Z (0 + 1)) with 1 in Hq.
  pose proof (multiple_ge 1 q _ ltac:(lra) Hq Hcd). lra.
Qed.

(** The loop from index [i] on: the creatures from [n0] on have not been
    ticked yet, so only the creatures before [n0] can still append, five
    children each at most. *)
Lemma creatureLoop_terminates fuel :
  forall i cs k n0,
    unit_draws -> wf_species speciesList ->
    Forall (viable speciesList) cs ->
    (n0 <= length cs)%nat ->
    (forall m c, cs !! m = Some c -> (n0 <= m)%nat -> (i <= m)%nat -> age c = 0%Z) ->
    ((length cs - i) + 5 * (n0 - i) <= fuel)%nat ->
    exists cs' k',
      creatureLoop world speciesList fuel i cs k = Some (cs', k') /\
      (length cs' <= length cs + 5 * (n0 - i))%nat.
Proof.
  induction fuel as [|fuel IH]; intros i cs k n0 Hu Hwf Hv Hn0 Hnew Hfuel.
  - assert (Ei : cs !! i = None) by (apply lookup_ge_None_2; lia).
    simpl. rewrite Ei. exists cs, k. split; [reflexivity | lia].
  - destruct (cs !! i) as [c|] eqn:Ei.
    2:{ simpl. rewrite Ei. exists cs, k. split; [reflexivity | lia]. }
    assert (Hilt : (i < length cs)%nat) by (eapply lookup_lt_Some; exact Ei).
    simpl. rewrite Ei. destruct (alive c) eqn:Ea.
    + destruct (stepCreature_total world speciesList i cs k Hu) as (cs1 & k1 & Hstep).
      { intros c0 Hc0. exact (proj2 (Forall_lookup_1 _ _ _ _ Hv Hc0)). }
      unfold bind. rewrite Hstep.
      pose proof (stepCreature_viable _ _ _ _ _ Hwf Hstep Hv) as Hv1.
      destruct (stepCreature_effect _ _ _ _ _ Hstep) as (Hlen1 & Hold & Hborn).
      assert (Hgrow : (length cs1 <= length cs + (if decide (i < n0)%nat then 5 else 0))%nat).
      { destruct (decide (i < n0)%nat) as [Hlt|Hge].
        - destruct (stepCreature_growth _ _ _ _ _ Hstep) as [E|[_ E]]; [|lia|lia].
          eapply Forall_impl; [exact Hv|]. intros c0 [Hw _]. exact Hw.
        - rewrite (newborn_tick_keeps_length _ _ _ _ _ _ Hstep Ei); [lia| |].
          + apply (Hnew i c Ei); lia.
          + destruct (Forall_lookup_1 _ _ _ _ Hv Ei) as [Hw _].
            destruct Hw as (_ & _ & _ & _ & _ & [Hcd _] & _). exact Hcd. }
      destruct (IH (S i) cs1 k1 n0 Hu Hwf Hv1) as (cs' & k' & Hloop & Hlen').
      * lia.
      * intros m c1 Hc1 Hge Hle.
        destruct (decide (m < length cs)%nat) as [Hlt|Hnlt].
        -- destruct (lookup_lt_is_Some_2 cs m Hlt) as [c0 Hc0].
           destruct (Hold m c0 Hc0) as (c1' & Hc1' & Hr).
           rewrite Hc1 in Hc1'. injection Hc1' as <-.
           destruct Hr as [(_ & _ & A & _)|[-> _]]; [|lia].
           rewrite A. apply (Hnew m c0 Hc0); lia.
        -- apply (Hborn m c1); [lia | exact Hc1].
      * destruct (decide (i < n0)%nat); lia.
      * exists cs', k'. split; [exact Hloop|].
        destruct (decide (i < n0)%nat); lia.
    + unfold bind, ret.
      destruct (IH (S i) cs k n0 Hu Hwf Hv Hn0) as (cs' & k' & Hloop & Hlen').
      * intros m c1 Hc1 Hge Hle. apply (Hnew m c1 Hc1); lia.
      * lia.
      * exists cs', k'. split; [exact Hloop | lia].
Qed.

(** X16. The creature loop always comes to an end, although its bound
    grows while it runs: with draws in the unit interval, on a population
    within the clamp table whose species are in the list, a pass over n
    creatures takes at most 6 n turns and leaves at most 6 n creatures.
    The children of a pass are ticked in that pass at age 0 and cannot
    reproduce in it; each of the n creatures appends five at most. *)
Theorem the_creature_pass_terminates fuel cs k :
  unit_draws -> wf_species speciesList ->
  Forall (viable speciesList) cs ->
  (6 * length cs <= fuel)%nat ->
  exists cs' k',
    creatureLoop world speciesList fuel 0 cs k = Some (cs', k') /\
    (length cs <= length cs')%nat /\ (length cs' <= 6 * length cs)%nat.
Proof.
  intros Hu Hwf Hv Hfuel.
  destruct (creatureLoop_terminates fuel 0 cs k (length cs) Hu Hwf Hv)
    as (cs' & k' & Hloop & Hlen).
  - lia.
  - intros m c Hm Hge _. apply lookup_lt_Some in Hm. lia.
  - lia.
  - exists cs', k'. split; [exact Hloop|].
    destruct (creatureLoop_effect _ _ _ _ _ _ Hloop) as (Hle & _). lia.
Qed.

Lemma stepSimulations_run n :
  forall fuel st k,
    unit_draws -> wf_species speciesList ->
    Forall (viable speciesList) (creatures st) ->
    (6 ^ n * length (creatures st) <= fuel)%nat ->
    exists st' k',
      stepSimulations world speciesList fuel n st k = Some (st', k') /\
      Forall (viable speciesList) (creatures st') /\
      (length (creatures st') <= 6 ^ n * length (creatures st))%nat.
Proof.
  induction n as [|n IH]; intros fuel st k Hu Hwf Hv Hfuel.
  - exists st, k. split; [reflexivity|]. split; [exact Hv | simpl; lia].
  - assert (Hpow : (1 <= 6 ^ n)%nat).
    { pose proof (Nat.pow_nonzero 6 n ltac:(lia)). lia. }
    assert (Hexp : (6 ^ S n = 6 * 6 ^ n)%nat) by reflexivity.
    destruct (creatureLoop_terminates fuel 0 (creatures st) k
                (length (creatures st)) Hu Hwf Hv)
      as (cs1 & k1 & Hloop & Hlen1).
    + lia.
    + intros m c Hm Hge _. apply lookup_lt_Some in Hm. lia.
    + nia.
    + pose proof (creatureLoop_viable _ _ _ _ _ _ Hwf Hloop Hv) as Hv1.
      set (cs2 := if rem5_is_zero (year st) then List.filter alive cs1 else cs1).
      assert (Hlen2 : (length cs2 <= length cs1)%nat).
      { subst cs2. destruct (rem5_is_zero (year st)); [apply filter_length_le | lia]. }
      assert (Hv2 : Forall (viable speciesList) cs2).
      { subst cs2. destruct (rem5_is_zero (year st)); [|exact Hv1].
        apply List.Forall_forall. intros c Hin.
        apply List.filter_In in Hin as [Hin _].
        rewrite List.Forall_forall in Hv1. exact (Hv1 c Hin). }
      destruct (IH fuel (mkSim cs2 (year st + year_step)%float) k1 Hu Hwf Hv2)
        as (st' & k' & Hrun & Hv' & Hlen').
      { cbn [creatures]. nia. }
      exists st', k'. split; [|split; [exact Hv'|]].
      * simpl. unfold stepSimulation. unfold bind at 1. unfold bind at 1.
        rewrite Hloop. exact Hrun.
      * cbn [creatures] in Hlen'. nia.
Qed.

(** X17. The simulation never hangs: with draws in the unit interval, a
    population within the clamp table whose species are in the list can
    be stepped any number of times, a step multiplies the number of
    creatures by six at most, and the population is again within the
    clamp table. *)
Theorem the_simulation_never_hangs n fuel st k :
  unit_draws -> wf_species speciesList ->
  Forall (viable speciesList) (creatures st) ->
  (6 ^ n * length (creatures st) <= fuel)%nat ->
  exists st' k',
    stepSimulations world speciesList fuel n st k = Some (st', k') /\
    Forall (viable speciesList) (creatures st') /\
    (length (creatures st') <= 6 ^ n * length (creatures st))%nat.
Proof. exact (stepSimulations_run n fuel st k). Qed.

End Lives.

(** ** Mixing and mutating a genome *)

(** X18. [mixTraits] draws four numbers and returns a genome between the
    two parents: every numeric trait is their mean, so it lies between
    the two values, and every flag is the flag of one of the two.  The
    mean of two genomes within the clamp table is within the table. *)
Theorem a_child_lies_between_its_parents a b k :
  exists t,
    mixTraits a b k = Some (t, S (S (S (S k)))) /\
    (forall key, num t key == (num a key + num b key) / 2 /\
                 Qmin (num a key) (num b key) <= num t key /\
                 num t key <= Qmax (num a key) (num b key)) /\
    (forall key, flag t key = flag a key \/ flag t key = flag b key) /\
    (within_clamps a -> within_clamps b -> within_clamps t).
Proof.
  assert (E : mixTraits a b k = mixTraits a b k) by reflexivity.
  unfold mixTraits at 2 in E. unfold bind in E. rewrite !random_Some in E.
  eexists. split; [exact E|]. split; [|split].
  - intros key. cbn [num]. split; [reflexivity|]. split.
    + apply Qmean_ge; [apply Q.le_min_l | apply Q.le_min_r].
    + apply Qmean_le; [apply Q.le_max_l | apply Q.le_max_r].
  - intros key. cbn [flag]. destruct key; destruct (Qltb _ 0.5); auto.
  - intros Ha Hb. exact (mixTraits_within _ _ _ _ _ Ha Hb E).
Qed.

Lemma clamp_close key v d t :
  within_clamps t -> 0 <= d ->
  num t key - d <= v -> v <= num t key + d ->
  num t key - d <= clamp key v /\ clamp key v <= num t key + d.
Proof.
  unfold within_clamps. intros (H1 & H2 & H3 & H4 & H5 & H6 & H7) Hd Hv1 Hv2.
  destruct key; cbn [clamp]; try (split; assumption); qminmax; split; lra.
Qed.

Lemma mutateNumeric_step t k t' k' :
  unit_draws -> within_clamps t -> mutateNumeric t k = Some (t', k') ->
  (forall key, num t key - 0.2 <= num t' key /\ num t' key <= num t key + 0.2) /\
  (forall key, flag t' key = flag t key) /\ k' = S (S k).
Proof.
  unfold mutateNumeric. intros Hu Ht H.
  apply bind_Some in H as (key0 & k1 & Hk & H).
  apply randomChoice_Some in Hk as [_ ->].
  apply bind_Some in H as (r & k2 & Hr & H). rewrite random_Some in Hr.
  apply Some_pair_eq in Hr as [<- <-]. injection H as <- <-.
  split; [|split; reflexivity].
  intros key. destruct (decide (key = key0)) as [->|Hne].
  - rewrite num_set_num_eq. destruct (Hu (S k)) as [? ?].
    apply (clamp_close key0 _ 0.2 t Ht); lra.
  - rewrite num_set_num_ne by exact Hne. split; lra.
Qed.

(** X19. A mutation is a small step.  On a genome within the clamp table
    and with draws in the unit interval, [applyMutation] draws between
    four and seven numbers, moves no numeric trait by a whole unit, leaves
    the numeric traits outside the mutable list alone, flips one flag at
    most, and sets the metabolism rate to 0.02 + 0.003 x the complexity of
    the mutated genome.  The bound on a move is 1 and not the 0.4 of two
    exact deltas: each of the one or two adjustments adds a delta between
    -0.2 and 0.2 and clamps, and a binary64 sum can exceed the exact one
    by its rounding. *)
Theorem a_mutation_is_a_small_step t k t' k' :
  unit_draws -> within_clamps t -> applyMutation t k = Some (t', k') ->
  (forall key, key <> metabolism_rate ->
     num t key - 1 < num t' key /\ num t' key < num t key + 1) /\
  (forall key, key ∉ MUTABLE_NUMERIC_TRAITS -> key <> metabolism_rate ->
     num t' key = num t key) /\
  (forall f1 f2, flag t' f1 <> flag t f1 -> flag t' f2 <> flag t f2 -> f1 = f2) /\
  num t' metabolism_rate == 0.02 + complexity t' * 0.003 /\
  (k + 4 <= k' /\ k' <= k + 7)%nat.
Proof.
  intros Hu Ht H. pose proof H as H0. unfold applyMutation in H.
  apply bind_Some in H as (r & k1 & Hr & H). rewrite random_Some in Hr.
  apply Some_pair_eq in Hr as [_ <-].
  apply bind_Some in H as (t1 & k2 & H1 & H).
  assert (Ht1 : (forall key, num t1 key = num t key) /\
                (forall f1 f2, flag t1 f1 <> flag t f1 -> flag t1 f2 <> flag t f2 ->
                               f1 = f2) /\
                (k2 = S k \/ k2 = S (S k))).
  { destruct (Qltb r 0.05).
    - apply bind_Some in H1 as (f & k3 & Hf & H1).
      apply randomChoice_Some in Hf as [_ ->]. injection H1 as <- <-.
      split; [reflexivity|]. split; [|right; reflexivity].
      intros f1 f2. unfold set_flag. cbn [flag].
      destruct (decide (f1 = f)) as [->|]; [|congruence].
      destruct (decide (f2 = f)) as [->|]; congruence.
    - injection H1 as <- <-. split; [reflexivity|]. split; [congruence|].
      left. reflexivity. }
  destruct Ht1 as (Hn1 & Hf1 & Hk2).
  assert (Hw1 : within_clamps t1).
  { unfold within_clamps in *. rewrite !Hn1. exact Ht. }
  apply bind_Some in H as (r2 & k3 & Hr2 & H). rewrite random_Some in Hr2.
  apply Some_pair_eq in Hr2 as [_ <-].
  apply bind_Some in H as (t2 & k4 & H2 & H).
  pose proof (mutateNumeric_within _ _ _ _ H2 Hw1) as Hw2.
  destruct (mutateNumeric_step _ _ _ _ Hu Hw1 H2) as (Hn2 & Hf2 & ->).
  apply bind_Some in H as (t3 & k5 & H3 & H).
  assert (Ht3 : (forall key, num t2 key - 0.2 <= num t3 key /\
                             num t3 key <= num t2 key + 0.2) /\
                (forall f, flag t3 f = flag t2 f) /\
                (k5 = S (S (S k2)) \/ k5 = S (S (S (S (S k2)))))).
  { destruct (Qltb r2 0.3).
    - destruct (mutateNumeric_step _ _ _ _ Hu Hw2 H3) as (Hn3 & Hf3 & ->).
      split; [exact Hn3|]. split; [exact Hf3|]. right. reflexivity.
    - injection H3 as <- <-. split; [intros key; split; lra|].
      split; [reflexivity|]. left. reflexivity. }
  destruct Ht3 as (Hn3 & Hf3 & Hk5).
  injection H as <- <-. split; [|split; [|split; [|split]]].
  - intros key Hkey. rewrite num_set_num_ne by exact Hkey.
    destruct (Hn2 key) as [? ?], (Hn3 key) as [? ?]. rewrite <- (Hn1 key).
    split; lra.
  - intros key Hkey Hm. exact (applyMutation_others _ _ _ _ key H0 Hkey Hm).
  - intros f1 f2. cbn [set_num flag]. rewrite !Hf3, !Hf2. apply Hf1.
  - rewrite num_set_num_eq. unfold complexity.
    repeat (rewrite num_set_num_ne by discriminate). reflexivity.
  - lia.
Qed.

(** ** A reset, and the steps after it *)

(** X20. A reset leaves the simulation ready to run.  With draws in the
    unit interval, when [initWorld] returns, the year is 0, the list has
    ten species that carry their index as id, there are 150 creatures, and
    each of them is alive, of age 0, on a tile of the grid, of a species of
    the list, with a genome within the clamp table and with the baseline
    values for the traits that cannot mutate.  From there the simulation
    can be stepped any number of times. *)
Theorem a_reset_is_ready_to_run fuel0 k w sl st k1 :
  unit_draws -> (0 < WORLD_WIDTH)%Z -> (0 < WORLD_HEIGHT)%Z ->
  initWorld fuel0 k = Some ((w, sl, st), k1) ->
  year st = 0%float /\ length sl = 10%nat /\ wf_species sl /\
  length (creatures st) = 150%nat /\
  Forall (fun c => alive c = true /\ age c = 0%Z /\ in_grid (x c) (y c) /\
                   viable sl c /\ baseline_fixed (traits c) /\ seasoned c)
         (creatures st) /\
  forall n, exists st' k',
    stepSimulations w sl (6 ^ n * 150) n st k1 = Some (st', k').
Proof.
  intros Hu HW HH H. unfold initWorld in H.
  apply bind_Some in H as (pg & k2 & _ & H).
  apply bind_Some in H as (species & k3 & Hsp & H).
  apply bind_Some in H as (cs & k4 & Hcs & H).
  injection H as <- <- <- <-. cbn [year creatures].
  destruct (generateSpeciesList_wf _ _ _ Hsp) as (Hlen & _ & Hwf & Hidx).
  unfold spawnInitialCreatures in Hcs.
  destruct (spawnForEach_blocks (snd pg) (fun _ _ => True) _ _ _ _
              (fun _ _ _ _ _ => I) Hcs) as [Hlenc _].
  rewrite Hlen in Hlenc.
  assert (Hall : Forall (fun c => alive c = true /\ age c = 0%Z /\ in_grid (x c) (y c) /\
                   viable species c /\ baseline_fixed (traits c) /\ seasoned c) cs).
  { apply (spawnForEach_Forall (snd pg) _ _ _ _ _) with (2 := Hcs).
    intros sp k0 c k0' Hin Hc.
    destruct (spawnIndividual_spec _ _ _ _ _ Hc) as (Hb & Hv & Hg).
    destruct Hb as (Hid & _ & _ & _ & Hage & _ & Hal). specialize (Hv Hu).
    split; [exact Hal|]. split; [exact Hage|]. split; [exact (Hg Hu HW HH)|].
    split; [|split].
    - split; [exact (initial_variation_within _ Hv)|].
      unfold registered. rewrite Hid, (Hidx sp Hin). eexists. reflexivity.
    - intros key Hkey _. destruct Hv as (_ & _ & _ & Hother & _).
      rewrite Hother; [reflexivity| | |]; intros ->; apply Hkey;
        unfold MUTABLE_NUMERIC_TRAITS; rewrite !elem_of_cons; tauto.
    - intros _. left. exact Hage. }
  split; [reflexivity|]. split; [exact Hlen|]. split; [exact Hwf|].
  split; [exact Hlenc|]. split; [exact Hall|].
  intros n.
  destruct (stepSimulations_run (snd pg) species n (6 ^ n * 150) (mkSim cs 0%float) k4
              Hu Hwf) as (st' & k' & Hrun & _).
  - eapply Forall_impl; [exact Hall|]. intros c (_ & _ & _ & Hv & _). exact Hv.
  - cbn [creatures]. rewrite Hlenc. lia.
  - exists st', k'. exact Hrun.
Qed.

(** ** The click on the canvas *)

Lemma scanCreatures_inv mx my cs :
  forall seen best bd,
    click_inv mx my seen best bd ->
    exists bd',
      click_inv mx my (seen ++ cs) (scanCreatures mx my (length seen) cs best bd) bd'.
Proof.
  induction cs as [|c cs IH]; intros seen best bd Hinv.
  - exists bd. rewrite app_nil_r. exact Hinv.
  - replace (seen ++ c :: cs) with ((seen ++ [c]) ++ cs) by (rewrite <- app_assoc; reflexivity).
    assert (Hlen : length (seen ++ [c]) = S (length seen)).
    { rewrite length_app. simpl. lia. }
    destruct Hinv as [Hall Hbest]. simpl.
    assert (Hkeep : forall bd0, bd0 = bd ->
              (alive c = true -> bd <= click_dist2 mx my c) ->
              click_inv mx my (seen ++ [c]) best bd0).
    { intros bd0 -> Hc. split.
      - intros m o Hm Ha. apply lookup_snoc_Some in Hm as [[_ Hm]|[_ <-]];
          [exact (Hall m o Hm Ha) | exact (Hc Ha)].
      - destruct best as [b|]; [|exact Hbest].
        destruct Hbest as (c0 & Hb & Ha & Hd & H400 & Hfirst).
        exists c0. split.
        { rewrite lookup_app_l by (eapply lookup_lt_Some; exact Hb). exact Hb. }
        split; [exact Ha|]. split; [exact Hd|]. split; [exact H400|].
        intros m o Hlt Hm. apply lookup_lt_Some in Hb.
        rewrite lookup_app_l in Hm by lia. exact (Hfirst m o Hlt Hm). }
    destruct (alive c) eqn:Ea; simpl.
    + destruct (Qltb (click_dist2 mx my c) bd) eqn:Elt.
      * apply Qltb_true in Elt. rewrite <- Hlen. apply IH. split.
        -- intros m o Hm Ha. apply lookup_snoc_Some in Hm as [[_ Hm]|[_ <-]].
           ++ specialize (Hall m o Hm Ha). lra.
           ++ lra.
        -- exists c. split.
           { rewrite lookup_app_r by lia. rewrite Nat.sub_diag. reflexivity. }
           split; [exact Ea|]. split; [reflexivity|]. split.
           { destruct best as [b|].
             - destruct Hbest as (_ & _ & _ & _ & H400 & _). lra.
             - lra. }
           intros m o Hm' Hm Ha. rewrite lookup_app_l in Hm by exact Hm'.
           specialize (Hall m o Hm Ha). lra.
      * apply Qltb_false in Elt. rewrite <- Hlen. apply IH.
        apply Hkeep; [reflexivity|]. intros _. exact Elt.
    + rewrite <- Hlen. apply IH. apply Hkeep; [reflexivity|]. discriminate.
Qed.

Lemma click_dist2_nonneg mx my c : 0 <= click_dist2 mx my c.
Proof.
  assert (H : forall a b : Q, 0 <= a * a + b * b) by (intros; nra).
  unfold click_dist2. cbv zeta. apply H.
Qed.

Lemma Qsq_sum_zero a b : a * a + b * b <= 0 -> a == 0 /\ b == 0.
Proof.
  intros H. assert (0 <= a * a) by nra. assert (0 <= b * b) by nra.
  assert (Ha : a * a == 0) by lra. assert (Hb : b * b == 0) by lra.
  split; [destruct (Qmult_integral _ _ Ha) | destruct (Qmult_integral _ _ Hb)];
    assumption.
Qed.

(** X21. A click selects the living creature whose tile centre is nearest
    to the click, if that centre is less than two tiles (20 pixels) away,
    and among the nearest ones the first of the array; a click further
    than that from every living creature clears the selection.  A click
    on the centre of the tile of a living creature selects a living
    creature of that tile. *)
Theorem a_click_selects_the_nearest_creature mx my cs :
  (forall j, onCanvasClick mx my cs = Some j ->
     exists c,
       cs !! j = Some c /\ alive c = true /\ click_dist2 mx my c < 400 /\
       (forall m o, cs !! m = Some o -> alive o = true ->
          click_dist2 mx my c <= click_dist2 mx my o) /\
       (forall m o, (m < j)%nat -> cs !! m = Some o -> alive o = true ->
          click_dist2 mx my c < click_dist2 mx my o)) /\
  (onCanvasClick mx my cs = None ->
   forall m o, cs !! m = Some o -> alive o = true -> 400 <= click_dist2 mx my o) /\
  (forall m c, cs !! m = Some c -> alive c = true ->
     mx == inject_Z (x c) * TILE_SIZE + TILE_SIZE / 2 ->
     my == inject_Z (y c) * TILE_SIZE + TILE_SIZE / 2 ->
     exists j o, onCanvasClick mx my cs = Some j /\ (j <= m)%nat /\
       cs !! j = Some o /\ alive o = true /\ x o = x c /\ y o = y c).
Proof.
  destruct (scanCreatures_inv mx my cs [] None ((TILE_SIZE * 2) * (TILE_SIZE * 2)))
    as (bd & Hall & Hbest).
  { split; [|reflexivity]. intros m o Hm. rewrite lookup_nil in Hm. discriminate. }
  change (scanCreatures mx my (length []) cs None (TILE_SIZE * 2 * (TILE_SIZE * 2)))
    with (onCanvasClick mx my cs) in Hbest.
  rewrite app_nil_l in Hall, Hbest.
  assert (Hsome : forall j, onCanvasClick mx my cs = Some j ->
     exists c,
       cs !! j = Some c /\ alive c = true /\ click_dist2 mx my c < 400 /\
       (forall m o, cs !! m = Some o -> alive o = true ->
          click_dist2 mx my c <= click_dist2 mx my o) /\
       (forall m o, (m < j)%nat -> cs !! m = Some o -> alive o = true ->
          click_dist2 mx my c < click_dist2 mx my o)).
  { intros j E. rewrite E in Hbest.
    destruct Hbest as (c & Hj & Ha & Hd & H400 & Hfirst).
    exists c. split; [exact Hj|]. split; [exact Ha|]. split; [lra|]. split.
    - intros m o Hm Hao. specialize (Hall m o Hm Hao). lra.
    - intros m o Hlt Hm Hao. specialize (Hfirst m o Hlt Hm Hao). lra. }
  assert (Hnone : onCanvasClick mx my cs = None ->
     forall m o, cs !! m = Some o -> alive o = true -> 400 <= click_dist2 mx my o).
  { intros E m o Hm Hao. rewrite E in Hbest. specialize (Hall m o Hm Hao). lra. }
  split; [exact Hsome|]. split; [exact Hnone|].
  intros m c Hm Ha Hx Hy.
  assert (Hzero : click_dist2 mx my c == 0).
  { unfold click_dist2. cbv zeta. rewrite Hx, Hy. ring. }
  destruct (onCanvasClick mx my cs) as [j|] eqn:E.
  - destruct (Hsome j eq_refl) as (o & Hj & Hao & _ & Hmin & Hfirst).
    exists j, o. split; [reflexivity|]. split.
    { destruct (le_lt_dec j m) as [Hle|Hlt]; [exact Hle|].
      specialize (Hfirst m c Hlt Hm Ha).
      pose proof (click_dist2_nonneg mx my o). lra. }
    split; [exact Hj|]. split; [exact Hao|].
    specialize (Hmin m c Hm Ha). rewrite Hzero in Hmin.
    unfold click_dist2, TILE_SIZE in Hmin. cbv zeta in Hmin.
    rewrite Hx, Hy in Hmin. unfold TILE_SIZE in Hmin.
    apply Qsq_sum_zero in Hmin as [Hdx' Hdy'].
    assert (Hdx : inject_Z (x o) == inject_Z (x c)) by lra.
    assert (Hdy : inject_Z (y o) == inject_Z (y c)) by lra.
    split; apply inject_Z_injective; assumption.
  - specialize (Hnone eq_refl m c Hm Ha). lra.
Qed.

(** ** The random walk of the first version *)

(** X22. In the first version of the file the random walk takes one step
    along one axis, and it keeps the containment by movement mode without
    any condition: a creature that stands on a tile of the grid that its
    mode allows stands on such a tile after the walk.  A destination
    outside the grid, which a terrestrial creature accepts, is clamped
    back to the tile the creature stands on. *)
Theorem the_four_direction_walk_keeps_containment world c k c' k' :
  movement4 world c k = Some (c', k') ->
  in_grid (x c) (y c) -> contained world c ->
  contained world c' /\ in_grid (x c') (y c') /\
  ((x c' = x c /\ (Z.abs (y c' - y c) <= 1)%Z) \/
   (y c' = y c /\ (Z.abs (x c' - x c) <= 1)%Z)).
Proof.
  unfold movement4. intros H Hin Hc.
  apply bind_Some in H as (r & k1 & _ & H).
  assert (Hstay : contained world c /\ in_grid (x c) (y c) /\
    ((x c = x c /\ (Z.abs (y c - y c) <= 1)%Z) \/
     (y c = y c /\ (Z.abs (x c - x c) <= 1)%Z))).
  { split; [exact Hc|]. split; [exact Hin|]. left. split; [reflexivity | lia]. }
  destruct (Qltb r _); [|injection H as <- _; exact Hstay].
  apply bind_Some in H as (dir & k2 & _ & H).
  assert (Hdest : exists nx ny,
            destination4 (x c) (y c) dir = (nx, ny) /\
            ((nx = x c /\ (Z.abs (ny - y c) <= 1)%Z) \/
             (ny = y c /\ (Z.abs (nx - x c) <= 1)%Z))).
  { unfold destination4.
    repeat match goal with
           | |- context [(dir =? ?n)%Z] => destruct (Z.eqb_spec dir n)
           end; eexists _, _; (split; [reflexivity|]); lia. }
  destruct Hdest as (nx & ny & Hd & Hstep). rewrite Hd in H. injection H as <- _.
  destruct (moveTo_cases world c nx ny) as [[-> _]|[-> Hok]]; [exact Hstay|].
  destruct (grid_cases nx ny) as [Hgrid|Hoff].
  - destruct (clamp_in_grid nx ny Hgrid) as [-> ->].
    unfold contained. cbn [set_pos movementMode x y].
    split; [exact Hok|]. split; [exact Hgrid | exact Hstep].
  - assert (Hback : clampX nx = x c /\ clampY ny = y c).
    { destruct Hin as [? ?]. unfold off_grid in Hoff. unfold clampX, clampY. lia. }
    destruct Hback as [Ex Ey].
    unfold contained. cbn [set_pos movementMode x y]. rewrite Ex, Ey.
    split; [exact Hc|]. split; [exact Hin|]. left. split; [reflexivity | lia].
Qed.

(** ** The canvas *)

Lemma drawCreatures_from_spec sel cs :
  forall j0,
    length (List.filter is_disc (drawCreatures_from sel j0 cs))
      = length (List.filter alive cs) /\
    forall d, d ∈ drawCreatures_from sel j0 cs <->
      exists j c, cs !! j = Some c /\ alive c = true /\
        (d = disc_of c \/ (sel = Some (j0 + j)%nat /\ d = circle_of c)).
Proof.
  induction cs as [|c cs IH]; intros j0.
  - split; [reflexivity|]. intros d. split.
    + intros H. apply elem_of_nil in H. contradiction.
    + intros (j & c & Hj & _). rewrite lookup_nil in Hj. discriminate.
  - destruct (IH (S j0)) as [IHn IHe]. cbn [drawCreatures_from]. split.
    + rewrite List.filter_app, length_app, IHn. simpl.
      destruct (alive c); simpl; [|reflexivity].
      destruct (bool_decide (sel = Some j0)); reflexivity.
    + intros d. rewrite elem_of_app, IHe. split.
      * intros [H|(j & c' & Hj & Ha & Hd)].
        -- destruct (alive c) eqn:Ea; simpl in H; [|apply elem_of_nil in H; contradiction].
           exists 0%nat, c. split; [reflexivity|]. split; [exact Ea|].
           apply elem_of_cons in H as [->|H]; [left; reflexivity|].
           destruct (bool_decide_reflect (sel = Some j0)) as [E|E];
             [|apply elem_of_nil in H; contradiction].
           apply list_elem_of_singleton in H. right.
           split; [rewrite Nat.add_0_r; exact E | exact H].
        -- exists (S j), c'. split; [exact Hj|]. split; [exact Ha|].
           destruct Hd as [->|[E ->]]; [left; reflexivity|].
           right. split; [|reflexivity]. rewrite E. f_equal. lia.
      * intros (j & c' & Hj & Ha & Hd). destruct j as [|j].
        -- simpl in Hj. injection Hj as <-. left. rewrite Ha. simpl.
           destruct Hd as [->|[E ->]]; [left|].
           rewrite Nat.add_0_r in E. rewrite (bool_decide_eq_true_2 _ E).
           right. left.
        -- right. exists j, c'. split; [exact Hj|]. split; [exact Ha|].
           destruct Hd as [->|[E ->]]; [left; reflexivity|].
           right. split; [|reflexivity]. rewrite E. f_equal. lia.
Qed.

(** X23. The canvas shows the living.  [drawCreatures] fills one disc for
    every living creature and none for a dead one, as many as the
    creature count of [updateStats]; the disc is centred on the tile of
    the creature; its diameter is between 6 and 14 pixels, and within the
    clamp table it is 7 + 2 x size without any clamping, between 7.6 and
    13 pixels.  The only circle stroked is the one around the selected
    creature, when that creature is alive. *)
Theorem the_canvas_shows_the_living sel speciesList st :
  length (List.filter is_disc (drawCreatures sel (creatures st)))
    = snd (fst (updateStats speciesList st)) /\
  (forall d, d ∈ drawCreatures sel (creatures st) <->
     exists j c, creatures st !! j = Some c /\ alive c = true /\
       (d = disc_of c \/ (sel = Some j /\ d = circle_of c))) /\
  (forall c, 6 <= diameter c /\ diameter c <= 14) /\
  (forall c, within_clamps (traits c) ->
     diameter c == 7 + 2 * num (traits c) size /\
     7.6 <= diameter c /\ diameter c <= 13).
Proof.
  destruct (drawCreatures_from_spec sel (creatures st) 0) as [Hn He].
  split; [exact Hn|]. split; [exact He|]. split.
  - intros c. unfold diameter. qminmax; split; lra.
  - intros c ([? ?] & _). unfold diameter. qminmax; repeat split; lra.
Qed.

Lemma biomeColor_inj b b' : biomeColor b = biomeColor b' -> b = b'.
Proof.
  destruct b as [[]|], b' as [[]|]; simpl; intros H;
    first [reflexivity | discriminate H].
Qed.

Lemma drawWorld_elem world ds :
  drawWorld world = Some ds ->
  forall d, d ∈ ds <->
    exists tx ty row,
      in_grid tx ty /\ world !! Z.to_nat ty = Some row /\ d = tile_of row tx ty.
Proof.
  unfold drawWorld. intros H. apply fmap_Some in H as (rows & Hrows & ->).
  apply mapM_Some_1 in Hrows. intros d.
  rewrite list_elem_of_In, List.in_concat. split.
  - intros (rw & Hrw & Hd).
    apply list_elem_of_In in Hrw. apply list_elem_of_In in Hd.
    apply list_elem_of_lookup in Hrw as [i Hi].
    destruct (Forall2_lookup_r _ _ _ _ _ Hrows Hi) as (ty & Hty & Hrow).
    apply lookup_seqZ in Hty as [-> Hty]. apply mapM_Some_1 in Hrow.
    apply list_elem_of_lookup in Hd as [i' Hi'].
    destruct (Forall2_lookup_r _ _ _ _ _ Hrow Hi') as (tx & Htx & Htile).
    apply lookup_seqZ in Htx as [-> Htx]. unfold drawTile in Htile.
    destruct (world !! Z.to_nat (0 + Z.of_nat i)) as [row|] eqn:Er; [|discriminate].
    injection Htile as <-.
    exists (0 + Z.of_nat i')%Z, (0 + Z.of_nat i)%Z, row.
    split; [unfold in_grid; lia|]. split; [exact Er | reflexivity].
  - intros (tx & ty & row & [Hx Hy] & Hrow & ->).
    destruct (Forall2_lookup_l _ _ _ _ _ Hrows (upto_lookup _ _ Hy)) as (rw & Hrw & Hm).
    apply mapM_Some_1 in Hm.
    destruct (Forall2_lookup_l _ _ _ _ _ Hm (upto_lookup _ _ Hx)) as (d & Hd & Htile).
    unfold drawTile in Htile. rewrite Hrow in Htile. injection Htile as <-.
    exists rw. split; apply list_elem_of_In;
      eapply list_elem_of_lookup_2; eassumption.
Qed.

Lemma tile_of_inj row tx ty row' tx' ty' :
  tile_of row tx ty = tile_of row' tx' ty' ->
  tx = tx' /\ ty = ty' /\ row !! Z.to_nat tx = row' !! Z.to_nat tx'.
Proof.
  unfold tile_of. intros H. injection H as Hc Hx Hy.
  split; [lia|]. split; [lia|]. exact (biomeColor_inj _ _ Hc).
Qed.

(** X24. The picture shows the grid.  When [drawWorld] returns, every tile
    of the grid has its row in the array and is painted as a square of
    10 x 10 pixels in the colour of its biome; the six biomes and the
    missing tile have seven different colours, so that two grids with the
    same picture have the same biome on every tile. *)
Theorem the_picture_shows_the_grid world ds :
  drawWorld world = Some ds ->
  (forall tx ty, in_grid tx ty ->
     exists row, world !! Z.to_nat ty = Some row /\ tile_of row tx ty ∈ ds) /\
  (forall d, d ∈ ds ->
     exists tx ty row,
       in_grid tx ty /\ world !! Z.to_nat ty = Some row /\ d = tile_of row tx ty) /\
  (forall world' tx ty row row',
     drawWorld world' = Some ds -> in_grid tx ty ->
     world !! Z.to_nat ty = Some row -> world' !! Z.to_nat ty = Some row' ->
     row !! Z.to_nat tx = row' !! Z.to_nat tx) /\
  (forall b b', biomeColor b = biomeColor b' -> b = b').
Proof.
  intros H. pose proof (drawWorld_elem _ _ H) as He.
  assert (Hrow : forall tx ty, in_grid tx ty ->
            exists row, world !! Z.to_nat ty = Some row /\ tile_of row tx ty ∈ ds).
  { intros tx ty [Hx Hy]. unfold drawWorld in H.
    apply fmap_Some in H as (rows & Hrows & _). apply mapM_Some_1 in Hrows.
    destruct (Forall2_lookup_l _ _ _ _ _ Hrows (upto_lookup _ _ Hy)) as (rw & _ & Hm).
    apply mapM_Some_1 in Hm.
    destruct (Forall2_lookup_l _ _ _ _ _ Hm (upto_lookup _ _ Hx)) as (d & _ & Htile).
    unfold drawTile in Htile.
    destruct (world !! Z.to_nat ty) as [row|] eqn:Er; [|discriminate].
    exists row. split; [reflexivity|]. apply He. exists tx, ty, row.
    split; [split; assumption|]. split; [exact Er | reflexivity]. }
  split; [exact Hrow|]. split; [intros d; apply He|]. split; [|exact biomeColor_inj].
  intros world' tx ty row row' H' Hin Hr Hr'.
  assert (Hd : tile_of row tx ty ∈ ds).
  { apply He. exists tx, ty, row. split; [exact Hin|]. split; [exact Hr | reflexivity]. }
  apply (drawWorld_elem _ _ H') in Hd as (tx' & ty' & row'' & _ & Hr'' & E).
  apply tile_of_inj in E as (<- & <- & E). rewrite Hr' in Hr''.
  injection Hr'' as <-. exact E.
Qed.

End Engine.

(** * The scenarios, run *)

Ltac by_computation :=
  repeat split; vm_compute;
  solve [reflexivity | discriminate | congruence].

Lemma in_unit_spec q : in_unit q = true -> 0 <= q /\ q < 1.
Proof.
  unfold in_unit. intros H. apply andb_true_iff in H as [H0 H1].
  apply Qleb_true in H0. apply Qltb_true in H1. split; assumption.
Qed.

Lemma oracle_unit_draws draws rest :
  forallb in_unit draws = true -> in_unit rest = true ->
  unit_draws (oracle draws rest).
Proof.
  intros Hd Hr k. unfold oracle. revert k.
  induction draws as [|q draws IH]; intros k.
  - destruct k; simpl; apply in_unit_spec; exact Hr.
  - simpl in Hd. apply andb_true_iff in Hd as [Hq Hd].
    destruct k as [|k]; simpl; [apply in_unit_spec; exact Hq | apply IH; exact Hd].
Qed.

(** The attack scenario: damage 4, and the target goes from 50 to 30. *)
Lemma resolveAttack_correct_witness :
  energy (snd (resolveAttack biter shelled)) == energy shelled - 20.
Proof.
  apply (proj2 (proj2 (resolveAttack_correct biter shelled))); by_computation.
Defined.

(** Three mutations of the baseline genome stay within the clamps. *)
Lemma mutations_within_clamps_witness :
  exists t' k',
    mutations (oracle [0.01; 0.3; 0.5; 0.05; 0.99; 0.37; 0.01] 0.6) 3
              createBaselineTraits 0%nat = Some (t', k') /\
    within_clamps t'.
Proof.
  refine (proj2 (mutations_within_clamps
                   (oracle [0.01; 0.3; 0.5; 0.05; 0.99; 0.37; 0.01] 0.6) 3
                   createBaselineTraits 0%nat _) _).
  - unfold within_clamps. by_computation.
  - apply oracle_unit_draws; reflexivity.
Defined.

(** A terrestrial creature at the left edge of the shore world draws the
    direction up-left: the destination (-1, 0) is outside the grid, reads
    as Fields, is accepted and clamped to (0, 0).  The same creature on
    the tile (1, 2) of the bottom row draws the direction down-right: the
    destination (2, 3) is clamped to (2, 2), the tile of the last row in
    the column of the destination.  The fish on the tile (2, 1) of the
    last column draws the direction right: it refuses the destination
    (3, 1) and stays. *)
Lemma getBiome_totalizes_off_grid_witness :
  getBiome 3 3 shore (-1) 0 = fields /\
  movement (oracle [0; 0.7] 0.99) 3 3 shore adam 0%nat
    = Some (set_pos 0 0 adam, 2%nat) /\
  in_grid 3 3 0 0 /\
  movement (oracle [0; 0.8] 0.99) 3 3 shore (set_pos 1 2 adam) 0%nat
    = Some (set_pos 2 2 adam, 2%nat) /\
  movement (oracle [0; 0] 0.99) 3 3 shore fish 0%nat = Some (fish, 2%nat) /\
  clampX 3 (-1) = 0%Z /\ clampX 3 1 = 1%Z /\ clampX 3 3 = 2%Z /\
  clampY 3 (-1) = 0%Z /\ clampY 3 1 = 1%Z /\ clampY 3 3 = 2%Z.
Proof.
  pose proof (getBiome_totalizes_off_grid (oracle [0; 0.7] 0.99) 3 3 shore)
    as (H1 & H2 & H3).
  split; [apply H1; right; right; left; reflexivity|].
  destruct (H2 adam 0%nat) as [Hm Hin].
  { by_computation. }
  { right; right; left. reflexivity. }
  split; [exact Hm|]. split; [apply Hin; reflexivity|].
  pose proof (getBiome_totalizes_off_grid (oracle [0; 0.8] 0.99) 3 3 shore)
    as (_ & H4 & _).
  destruct (H4 (set_pos 1 2 adam) 0%nat) as [Hm4 _].
  { by_computation. }
  { right; left. vm_compute. discriminate. }
  split; [exact Hm4|].
  pose proof (getBiome_totalizes_off_grid (oracle [0; 0] 0.99) 3 3 shore)
    as (_ & H5 & _).
  destruct (H5 fish 0%nat) as [Hm5 _].
  { by_computation. }
  { right; right; right. vm_compute. discriminate. }
  split; [exact Hm5|].
  destruct (H3 (-1)%Z (-1)%Z eq_refl eq_refl) as (Hx0 & _ & _ & Hy0 & _).
  destruct (H3 1%Z 1%Z eq_refl eq_refl) as (_ & Hx1 & _ & _ & Hy1 & _).
  destruct (H3 3%Z 3%Z eq_refl eq_refl) as (_ & _ & Hx2 & _ & _ & Hy2 & _).
  split; [apply Hx0; lia|]. split; [apply Hx1; lia|]. split; [apply Hx2; lia|].
  split; [apply Hy0; lia|]. split; [apply Hy1; lia|]. apply Hy2; lia.
Defined.

(** The walker steps from Fields to Desert and is fed from Fields. *)
Lemma feeding_uses_tile_before_move_witness :
  exists moved k2 fed,
    movement (oracle [0; 0] 0.99) 2 1 strip (regenerate (ageAndHunger walker)) 0%nat
      = Some (moved, k2) /\
    energy fed ==
      Qmin (num (traits walker) stomach_capacity)
           (energy moved
            + biomeFoodValue (getBiome 2 1 strip (x walker) (y walker)) (dietType walker)
              * 0.5 * num (traits walker) food_efficiency) /\
    set_energy 0 fed = set_energy 0 moved /\
    stepCreature (oracle [0; 0] 0.99) 2 1 strip [grazers] 0 [walker] 0%nat =
      (let* cs1 := predation (oracle [0; 0] 0.99) 0 (<[0%nat := fed]> [walker]) in
       reproduction (oracle [0; 0] 0.99) [grazers] 0 cs1) k2 /\
    forall b' diet, biomeFoodValue b' diet = food_table b' diet.
Proof.
  apply (feeding_uses_tile_before_move (oracle [0; 0] 0.99) 2 1 strip [grazers]
           0 [walker] walker 0%nat); reflexivity.
Defined.

(** C4, the claim as stated, fails: the walker starts its tick on Fields,
    steps to the Desert tile (1, 0) and ends the tick there with energy
    50 - 0.03 + 1.0 * 0.5 = 50.47, the gain of the Fields tile it left.  The
    gain of the tile it occupies at the feeding stage, Desert, would give
    50 - 0.03 + 0.2 * 0.5 = 50.07. *)
Lemma feeding_counterexample :
  getBiome 2 1 strip (x walker) (y walker) = fields /\
  snapshots (stepCreature (oracle [0; 0] 0.99) 2 1 strip [grazers] 0 [walker] 0%nat)
    = Some [ (0, (1, 0), M, 1, Qred 50.47, true) ]%Z /\
  getBiome 2 1 strip 1 0 = desert /\
  energy (regenerate (ageAndHunger walker))
    + biomeFoodValue fields (dietType walker) * 0.5
      * num (traits walker) food_efficiency == 50.47 /\
  energy (regenerate (ageAndHunger walker))
    + biomeFoodValue desert (dietType walker) * 0.5
      * num (traits walker) food_efficiency == 50.07 /\
  match stepCreature (oracle [0; 0] 0.99) 2 1 strip [grazers] 0 [walker] 0%nat with
  | Some ([c'], _) =>
      ~ energy c' ==
          Qmin (num (traits c') stomach_capacity)
               (energy (regenerate (ageAndHunger walker))
                + biomeFoodValue (getBiome 2 1 strip (x c') (y c')) (dietType c')
                  * 0.5 * num (traits c') food_efficiency)
  | _ => False
  end.
Proof. by_computation. Qed.

(** Adam, at age 200 with energy 55 of 60, reproduces with Eve: one child,
    born where Adam stands, and both energies are halved. *)
Lemma reproduction_with_first_mate_witness :
  exists j mate children cs' k',
    [adam_ready; eve] !! j = Some mate /\ is_mate_for adam_ready 0 j mate /\
    (forall m other, (m < j)%nat -> [adam_ready; eve] !! m = Some other ->
                     ~ is_mate_for adam_ready 0 m other) /\
    reproduction (oracle [] 0.99) [grazers] 0 [adam_ready; eve] 0%nat = Some (cs', k') /\
    cs' = <[j := halved mate]> (<[0%nat := halved adam_ready]> ([adam_ready; eve] ++ children)) /\
    cs' !! 0%nat = Some (halved adam_ready) /\ cs' !! j = Some (halved mate) /\
    energy (halved adam_ready) == energy adam_ready / 2 /\
    energy (halved mate) == energy mate / 2 /\
    Z.of_nat (length children)
      = Z.max 0 (Math_round ((num (traits adam_ready) offspring_per_cycle
                              + num (traits mate) offspring_per_cycle) / 2)) /\
    Forall (fun child =>
              exists sx t,
                child = new_Creature grazers (x adam_ready) (y adam_ready) sx t)
           children.
Proof.
  apply (reproduction_with_first_mate (oracle [] 0.99) [grazers] 0
           [adam_ready; eve] adam_ready grazers 0%nat).
  - apply oracle_unit_draws; reflexivity.
  - reflexivity.
  - reflexivity.
  - by_computation.
  - by_computation.
  - exists 1%Z. by_computation.
  - reflexivity.
  - exists 1%nat, eve. split; [reflexivity|]. unfold is_mate_for. by_computation.
Defined.

(** C6, the claim as stated, fails twice.  First, the conditions of the
    claim do not make the tick attempt reproduction: Adam with energy 35
    of 60 (above half of his capacity) ends his tick at age 200, a
    multiple of his cooldown of 200, next to Eve, who has energy 40 of 60,
    and the array still holds the two of them only.  Second, the mate is
    the first eligible creature of the array, not any eligible one:
    with Lilith (3 offspring per cycle) before Eve in the array, Adam and
    Eve meet the conditions of the claim, but the children are
    round((1 + 3) / 2) = 2, not round((1 + 1) / 2) = 1, and Eve keeps her
    energy of 40 while Lilith's goes from 40 to 20. *)
Lemma reproduction_counterexample :
  (snapshots (stepCreature (oracle [] 0.99) 3 3 shore [grazers] 0 [adam_lean; eve] 0%nat)
     = Some [ (0, (0, 1), M, 200, Qred 35.47, true);
              (0, (1, 1), F, 10, Qred 40, true) ]%Z /\
   match stepCreature (oracle [] 0.99) 3 3 shore [grazers] 0 [adam_lean; eve] 0%nat with
   | Some ([adam'; eve'], _) =>
       rem_nonzero (inject_Z (age adam')) (num (traits adam') repro_cooldown) = false /\
       num (traits adam') stomach_capacity * 0.5 <= energy adam' /\
       is_mate_for adam' 0 1 eve'
   | _ => False
   end) /\
  (is_mate_for adam_ready 0 2 eve /\
   num (traits adam_ready) stomach_capacity * 0.5 <= energy adam_ready /\
   rem_nonzero (inject_Z (age adam_ready)) (num (traits adam_ready) repro_cooldown)
     = false /\
   Math_round ((num (traits adam_ready) offspring_per_cycle
                + num (traits eve) offspring_per_cycle) / 2) = 1%Z /\
   Math_round ((num (traits adam_ready) offspring_per_cycle
                + num (traits lilith) offspring_per_cycle) / 2) = 2%Z /\
   snapshots (attemptReproduction (oracle [] 0.99) [grazers] 0
                [adam_ready; lilith; eve] 0%nat)
     = Some [ (0, (0, 1), M, 200, Qred 27.5, true);
              (0, (0, 2), F, 10, Qred 20, true);
              (0, (1, 1), F, 10, Qred 40, true);
              (0, (0, 1), F, 0, Qred 50, true);
              (0, (0, 1), F, 0, Qred 50, true) ]%Z).
Proof.
  split; [split|].
  - vm_compute. reflexivity.
  - vm_compute. by_computation.
  - unfold is_mate_for. by_computation.
Qed.

(** An attack of the baseline hunter on the weak prey, and a tick of Adam
    next to Eve with the birth of a child, keep the bounds of the living. *)
Lemma energy_bounds_of_the_living_witness :
  (capped (fst (resolveAttack hunter weak_prey)) /\
   capped (snd (resolveAttack hunter weak_prey))) /\
  match stepCreature (oracle [] 0.99) 3 3 shore [grazers] 0 [adam; eve] 0%nat with
  | Some (cs', _) => length cs' = 3%nat /\ Forall capped cs' /\ Forall lively cs'
  | None => False
  end.
Proof.
  pose proof (energy_bounds_of_the_living (oracle [] 0.99) 3 3 shore [grazers])
    as (Hattack & Htick & _ & _).
  split.
  - apply (Hattack hunter weak_prey); unfold capped; by_computation.
  - remember (stepCreature (oracle [] 0.99) 3 3 shore [grazers] 0 [adam; eve] 0%nat)
      as r eqn:E.
    symmetry in E. destruct r as [[cs' k']|]; [|vm_compute in E; discriminate E].
    assert (Hc : Forall capped [adam; eve]).
    { repeat constructor; by_computation. }
    destruct (Htick 0%nat [adam; eve] 0%nat cs' k' E Hc) as [Hc' Hl'].
    split; [|split; [exact Hc'|]].
    + vm_compute in E. injection E as <- _. reflexivity.
    + apply Hl'; repeat constructor; by_computation.
Defined.

(** C1, the claim as stated, fails.  An attack of a baseline hunter (damage
    1 + 1 = 2) on a prey with energy 5 leaves the prey dead with energy
    5 - 10 = -5.  A grazer with energy 0.02 and the baseline metabolism of
    0.03 ends its tick dead, in the array, with energy -0.01.  And a living
    creature can be left below zero: a hunter with energy 1 that attacks a
    prey with spine_damage 1 stays alive with energy 1 - 3 = -2. *)
Lemma energy_bounds_counterexample :
  (energy_in_bounds hunter /\ energy_in_bounds weak_prey /\
   alive (snd (resolveAttack hunter weak_prey)) = false /\
   energy (snd (resolveAttack hunter weak_prey)) == -5 /\
   ~ energy_in_bounds (snd (resolveAttack hunter weak_prey))) /\
  (energy_in_bounds starving /\
   snapshots (stepCreature (oracle [] 0.99) 3 3 shore [grazers] 0 [starving] 0%nat)
     = Some [ (0, (0, 0), M, 11, Qred (-0.01), false) ]%Z /\
   match stepCreature (oracle [] 0.99) 3 3 shore [grazers] 0 [starving] 0%nat with
   | Some ([c'], _) => ~ energy_in_bounds c'
   | _ => False
   end) /\
  (energy_in_bounds tired_hunter /\ energy_in_bounds spiny_prey /\
   alive (fst (resolveAttack tired_hunter spiny_prey)) = true /\
   energy (fst (resolveAttack tired_hunter spiny_prey)) == -2 /\
   ~ energy_in_bounds (fst (resolveAttack tired_hunter spiny_prey))).
Proof.
  unfold energy_in_bounds. split; [|split].
  - repeat (split; [by_computation|]).
    vm_compute. intros [H _]. apply H. reflexivity.
  - split; [by_computation|]. split; [by_computation|].
    vm_compute. intros [H _]. apply H. reflexivity.
  - repeat (split; [by_computation|]).
    vm_compute. intros [H _]. apply H. reflexivity.
Qed.

(** C5, the claim as stated, fails: in one pass of the creature loop over
    Adam and Eve, Adam's tick appends a child, and the loop, whose bound
    is the length of the array as it is at every turn, goes on to index 2
    and ticks the child in the same pass: the child ends the step at age
    1, fed to 50.47, while the constructor made it with age 0 and energy
    50.  The same holds of the whole step. *)
Lemma appended_creature_counterexample :
  length [adam; eve] = 2%nat /\
  snapshots (stepCreature (oracle [] 0.99) 3 3 shore [grazers] 0 [adam; eve] 0%nat)
    = Some [ (0, (0, 1), M, 200, Qred 27.735, true);
             (0, (1, 1), F, 10, Qred 20, true);
             (0, (0, 1), F, 0, Qred 50, true) ]%Z /\
  snapshots (creatureLoop (oracle [] 0.99) 3 3 shore [grazers] 10 0 [adam; eve] 0%nat)
    = Some [ (0, (0, 1), M, 200, Qred 27.735, true);
             (0, (1, 1), F, 11, Qred 20.47, true);
             (0, (0, 1), F, 1, Qred 50.47, true) ]%Z /\
  sim_snapshots (stepSimulation (oracle [] 0.99) 3 3 shore [grazers] 10
                   (mkSim [adam; eve] year_step) 0%nat)
    = Some [ (0, (0, 1), M, 200, Qred 27.735, true);
             (0, (1, 1), F, 11, Qred 20.47, true);
             (0, (0, 1), F, 1, Qred 50.47, true) ]%Z.
Proof. by_computation. Qed.

(** The pass over Adam and Eve: the creature behind the initial end of the
    array has had its tick. *)
Lemma creature_loop_reaches_appended_creatures_witness :
  match creatureLoop (oracle [] 0.99) 3 3 shore [grazers] 10 0 [adam; eve] 0%nat with
  | Some (cs', _) =>
      length cs' = 3%nat /\
      forall m c', (2 <= m)%nat -> cs' !! m = Some c' ->
        age c' = 1%Z \/ (age c' = 0%Z /\ alive c' = false)
  | None => False
  end.
Proof.
  pose proof (creature_loop_reaches_appended_creatures
                (oracle [] 0.99) 3 3 shore [grazers]) as (_ & _ & _ & Hloop).
  remember (creatureLoop (oracle [] 0.99) 3 3 shore [grazers] 10 0 [adam; eve] 0%nat)
    as r eqn:E.
  symmetry in E. destruct r as [[cs' k']|]; [|vm_compute in E; discriminate E].
  destruct (Hloop 10%nat [adam; eve] 0%nat cs' k' E) as [_ Hticked].
  split; [|exact Hticked].
  vm_compute in E. injection E as <- _. reflexivity.
Defined.

(** C3, the claim as stated, fails: the elder dies of age in the second
    step after a reset and is still in the array, dead, after each of the
    steps 2 to 12; no compaction has happened at any multiple of 5 steps.
    Among the first 10000 steps after a reset only the first one, which
    starts at year 0, ends with a compaction. *)
Lemma compaction_counterexample :
  sim_snapshots (stepSimulations (oracle [] 0.99) 1 1 [[fields]] [grazers] 5 1
                   (mkSim [elder] 0%float) 0%nat)
    = Some [ (0, (0, 0), M, 2000, Qred 50.47, true) ]%Z /\
  Forall (fun n =>
            sim_snapshots (stepSimulations (oracle [] 0.99) 1 1 [[fields]] [grazers] 5 n
                             (mkSim [elder] 0%float) 0%nat)
              = Some [ (0, (0, 0), M, 2001, Qred 50.44, false) ]%Z)
         [2; 3; 4; 5; 6; 7; 8; 9; 10; 11; 12]%nat /\
  compaction_steps 10000 0 0%float = [0%nat].
Proof.
  split; [by_computation|]. split; [|vm_compute; reflexivity].
  repeat constructor; vm_compute; reflexivity.
Qed.

(** A step that starts at year 0 removes the dead Adam; a step that starts
    at year 0.01 keeps him, dead and unchanged, at his index. *)
Lemma compaction_is_gated_by_the_year_witness :
  sim_snapshots (stepSimulation (oracle [] 0.99) 3 3 shore [grazers] 5
                   (mkSim [set_alive false adam; eve] 0%float) 0%nat)
    = Some [ (0, (1, 1), F, 11, Qred 40.47, true) ]%Z /\
  sim_snapshots (stepSimulation (oracle [] 0.99) 3 3 shore [grazers] 5
                   (mkSim [set_alive false adam; eve] year_step) 0%nat)
    = Some [ (0, (0, 1), M, 199, Qred 55, false);
             (0, (1, 1), F, 11, Qred 40.47, true) ]%Z /\
  match stepSimulation (oracle [] 0.99) 3 3 shore [grazers] 5
          (mkSim [set_alive false adam; eve] 0%float) 0%nat with
  | Some (st', _) =>
      year st' = (0 + year_step)%float /\
      Forall (fun c => alive c = true) (creatures st') /\
      set_alive false adam ∉ creatures st'
  | None => False
  end /\
  match stepSimulation (oracle [] 0.99) 3 3 shore [grazers] 5
          (mkSim [set_alive false adam; eve] year_step) 0%nat with
  | Some (st', _) =>
      (2 <= length (creatures st'))%nat /\
      creatures st' !! 0%nat = Some (set_alive false adam)
  | None => False
  end.
Proof.
  split; [by_computation|]. split; [by_computation|]. split.
  - remember (stepSimulation (oracle [] 0.99) 3 3 shore [grazers] 5
                (mkSim [set_alive false adam; eve] 0%float) 0%nat) as r eqn:E.
    symmetry in E. destruct r as [[st' k']|]; [|vm_compute in E; discriminate E].
    destruct (proj1 (proj2 (compaction_is_gated_by_the_year
                              (oracle [] 0.99) 3 3 shore [grazers]))
                5%nat (mkSim [set_alive false adam; eve] 0%float) 0%nat st' k' E)
      as (cs1 & _ & Hyear & _ & _ & Hzero & _).
    destruct (Hzero eq_refl) as (_ & Hall & _ & Hgone).
    split; [exact Hyear|]. split; [exact Hall|].
    apply Hgone; [|reflexivity]. apply list_elem_of_here.
  - remember (stepSimulation (oracle [] 0.99) 3 3 shore [grazers] 5
                (mkSim [set_alive false adam; eve] year_step) 0%nat) as r eqn:E.
    symmetry in E. destruct r as [[st' k']|]; [|vm_compute in E; discriminate E].
    destruct (proj1 (proj2 (compaction_is_gated_by_the_year
                              (oracle [] 0.99) 3 3 shore [grazers]))
                5%nat (mkSim [set_alive false adam; eve] year_step) 0%nat st' k' E)
      as (cs1 & _ & _ & _ & _ & _ & Hkeep).
    destruct (Hkeep eq_refl) as (_ & Hlen & Hkept).
    split; [exact Hlen|].
    destruct (Hkept 0%nat (set_alive false adam) eq_refl) as (c' & Hc' & _ & Hsame).
    rewrite Hc'. f_equal. apply Hsame. reflexivity.
Defined.

(** C2, the claim as stated, fails from the initial placement on: a reset
    whose draws make a palette of Water and Desert and six seeds of Water
    yields a 2 x 2 grid of Water only.  Every later draw is 0.4: each
    species is terrestrial (entry 0 of the two modes), each of the 1000
    attempts of every placement draws the tile (0, 0), Water, and the
    fallback places all 150 creatures, terrestrial ones, on Water. *)
Lemma containment_counterexample :
  flood_census 2 2 (initWorld (oracle flood_draws 0.4) 2 2 10 0%nat)
    = Some ([ [water; water]; [water; water] ], 150%nat, true).
Proof. vm_compute. reflexivity. Qed.

Lemma wf_species_single sp : id sp = 0%Z -> wf_species [sp].
Proof.
  intros Hid n sp'. unfold index. destruct (n <? 0)%Z eqn:E; [discriminate|].
  apply Z.ltb_ge in E. destruct (Z.to_nat n) as [|m] eqn:En; simpl.
  - intros H. injection H as <-. lia.
  - destruct m; discriminate.
Qed.

(** A placement on the shore world finds Fields at its first attempt.  In
    a tick of Adam next to Eve the walk steps to the right, onto Eve's
    tile (1, 1), where the child is born: every creature is on a tile its
    mode allows.  In a tick whose first draw, 0.99, takes no step, the
    next draw, 0.7, is not read as a direction (up-left, out of the grid):
    Adam stays on (0, 1) and every creature is on a tile its mode allows.
    And the fish, which draws a step at every tick (down, up, and
    down-right out of the grid, which it refuses), is on Water after three
    steps. *)
Lemma containment_by_placement_and_tick_witness :
  (exists pos k',
     findRandomTileForSpecies (oracle [0.5; 0.5] 0.99) 3 3 shore grazers 0%nat
       = Some (pos, k') /\
     in_grid 3 3 (fst pos) (snd pos) /\
     forall sx t, contained 3 3 shore (new_Creature grazers (fst pos) (snd pos) sx t)) /\
  match stepCreature (oracle [0; 0] 0.99) 3 3 shore [grazers] 0 [adam; eve] 0%nat with
  | Some (cs', _) =>
      map (fun c => (x c, y c)) cs' = [(1, 1); (1, 1); (1, 1)]%Z /\
      Forall (contained 3 3 shore) cs' /\ Forall (species_consistent [grazers]) cs'
  | None => False
  end /\
  attempted_destination (oracle [0.99; 0.7] 0.99) adam 0%nat = (-1, 0)%Z /\
  match stepCreature (oracle [0.99; 0.7] 0.99) 3 3 shore [grazers] 0 [adam; eve] 0%nat with
  | Some (cs', _) =>
      map (fun c => (x c, y c)) cs' = [(0, 1); (1, 1); (0, 1)]%Z /\
      Forall (contained 3 3 shore) cs' /\ Forall (species_consistent [grazers]) cs'
  | None => False
  end /\
  sim_snapshots (stepSimulations (oracle [0.1; 0.3; 0.9; 0.1; 0.4; 0.9; 0.1; 0.8] 0.9)
                   3 3 shore [swimmers] 5 3 (mkSim [fish] 0%float) 0%nat)
    = Some [ (0, (2, 1), M, 13, Qred 50.21, true) ]%Z /\
  match stepSimulations (oracle [0.1; 0.3; 0.9; 0.1; 0.4; 0.9; 0.1; 0.8] 0.9)
          3 3 shore [swimmers] 5 3 (mkSim [fish] 0%float) 0%nat with
  | Some (st', _) => Forall (afloat 3 3 shore) (creatures st')
  | None => False
  end.
Proof.
  split; [|split; [|split; [|split; [|split]]]].
  - apply (proj1 (containment_by_placement_and_tick
                    (oracle [0.5; 0.5] 0.99) 3 3 shore [grazers]) grazers 0%nat).
    + apply oracle_unit_draws; reflexivity.
    + reflexivity.
    + reflexivity.
    + exists 0%nat. split; [lia|]. vm_compute. discriminate.
  - remember (stepCreature (oracle [0; 0] 0.99) 3 3 shore [grazers] 0
                [adam; eve] 0%nat) as r eqn:E.
    symmetry in E. destruct r as [[cs' k']|]; [|vm_compute in E; discriminate E].
    split; [vm_compute in E; injection E as <- _; reflexivity|].
    apply (proj1 (proj2 (containment_by_placement_and_tick
                           (oracle [0; 0] 0.99) 3 3 shore [grazers]))
             0%nat [adam; eve] 0%nat cs' k' E).
    + apply wf_species_single. reflexivity.
    + repeat constructor; vm_compute; discriminate.
    + repeat constructor; intros sp Hsp; vm_compute in Hsp;
        injection Hsp as <-; reflexivity.
    + intros c Hc _. injection Hc as <-. right. vm_compute. repeat split; discriminate.
  - reflexivity.
  - remember (stepCreature (oracle [0.99; 0.7] 0.99) 3 3 shore [grazers] 0
                [adam; eve] 0%nat) as r eqn:E.
    symmetry in E. destruct r as [[cs' k']|]; [|vm_compute in E; discriminate E].
    split; [vm_compute in E; injection E as <- _; reflexivity|].
    apply (proj1 (proj2 (containment_by_placement_and_tick
                           (oracle [0.99; 0.7] 0.99) 3 3 shore [grazers]))
             0%nat [adam; eve] 0%nat cs' k' E).
    + apply wf_species_single. reflexivity.
    + repeat constructor; vm_compute; discriminate.
    + repeat constructor; intros sp Hsp; vm_compute in Hsp;
        injection Hsp as <-; reflexivity.
    + intros c Hc (_ & _ & Hlt). injection Hc as <-. vm_compute in Hlt. discriminate Hlt.
  - vm_compute. reflexivity.
  - remember (stepSimulations (oracle [0.1; 0.3; 0.9; 0.1; 0.4; 0.9; 0.1; 0.8] 0.9)
                3 3 shore [swimmers] 5 3 (mkSim [fish] 0%float) 0%nat) as r eqn:E.
    symmetry in E. destruct r as [[st' k']|]; [|vm_compute in E; discriminate E].
    apply (proj2 (proj2 (containment_by_placement_and_tick
                           (oracle [0.1; 0.3; 0.9; 0.1; 0.4; 0.9; 0.1; 0.8] 0.9)
                           3 3 shore [swimmers]))
             5%nat 3%nat (mkSim [fish] 0%float) 0%nat st' k' E).
    + apply wf_species_single. reflexivity.
    + repeat constructor.
    + repeat constructor; intros sp Hsp; vm_compute in Hsp;
        injection Hsp as <-; reflexivity.
Defined.

(** A generation on a 4 x 3 grid: the palette is Water, Desert and Fields,
    and the grid uses Water and Fields. *)
Lemma generated_world_uses_palette_witness :
  option_map fst (generateWorld (oracle lake_draws 0.99) 4 3 10 0%nat)
    = Some ([water; desert; fields],
            [ [water; water; fields; fields];
              [water; fields; fields; fields];
              [water; fields; fields; fields] ]) /\
  match generateWorld (oracle lake_draws 0.99) 4 3 10 0%nat with
  | Some ((pal, grid), _) =>
      water ∈ pal /\ NoDup pal /\ (2 <= length pal <= 4)%nat /\
      (forall row b, row ∈ grid -> b ∈ row -> b ∈ pal) /\
      length grid = Z.to_nat 3 /\
      (forall row, row ∈ grid -> length row = Z.to_nat 4)
  | None => False
  end.
Proof.
  split; [vm_compute; reflexivity|].
  remember (generateWorld (oracle lake_draws 0.99) 4 3 10 0%nat) as r eqn:E.
  symmetry in E. destruct r as [[[pal grid] k']|]; [|vm_compute in E; discriminate E].
  apply (proj1 (generated_world_uses_palette (oracle lake_draws 0.99) 4 3 10 0%nat
                  (oracle_unit_draws lake_draws 0.99 eq_refl eq_refl))
           pal grid k' E).
Defined.

(** * The further properties, run *)

(** A run that fails is told from one that succeeds without printing its
    result. *)
Ltac by_failure E :=
  exfalso; apply (f_equal (fun r => match r with Some _ => true | None => false end)) in E;
  vm_compute in E; discriminate E.


(** The lake world has Water. *)
Lemma generated_world_has_water_witness :
  match generateWorld (oracle lake_draws 0.99) 4 3 10 0%nat with
  | Some ((pal, grid), _) =>
      exists tx ty, in_grid 4 3 tx ty /\ getBiome 4 3 grid tx ty = water
  | None => False
  end.
Proof.
  remember (generateWorld (oracle lake_draws 0.99) 4 3 10 0%nat) as r eqn:E.
  symmetry in E. destruct r as [[[pal grid] k']|]; [|by_failure E].
  apply (generated_world_has_water (oracle lake_draws 0.99) 4 3 10 0%nat pal grid k').
  - apply oracle_unit_draws; reflexivity.
  - reflexivity.
  - reflexivity.
  - exact E.
Defined.

(** The species list of the draws 0.5, 0.5, ...: ten species, thirty
    draws. *)
Lemma species_list_is_indexed_by_id_witness :
  exists l,
    generateSpeciesList (oracle [] 0.5) 0%nat = Some (l, (0 + 30)%nat) /\
    length l = 10%nat /\
    wf_species l /\
    forall sp, sp ∈ l -> index l (id sp) = Some sp.
Proof.
  apply (species_list_is_indexed_by_id (oracle [] 0.5) 0%nat).
  apply oracle_unit_draws; reflexivity.
Defined.

(** Fifteen grazers on the Fields tile (1, 1) of the shore world. *)
Lemma initial_population_census_witness :
  match spawnInitialCreatures (oracle [] 0.4) 3 3 shore [grazers] 0%nat with
  | Some (cs, _) =>
      length cs = (15 * length [grazers])%nat /\
      (forall q sp r, [grazers] !! q = Some sp -> (r < 15)%nat ->
         exists c, cs !! (15 * q + r)%nat = Some c /\ born_of sp c) /\
      Forall (fun c => in_grid 3 3 (x c) (y c)) cs
  | None => False
  end.
Proof.
  remember (spawnInitialCreatures (oracle [] 0.4) 3 3 shore [grazers] 0%nat) as r eqn:E.
  symmetry in E. destruct r as [[cs k']|]; [|by_failure E].
  destruct (initial_population_census (oracle [] 0.4) 3 3 shore [grazers] 0%nat cs k' E)
    as (Hlen & Hblocks & Hgrid).
  split; [exact Hlen|]. split; [exact Hblocks|]. apply Hgrid.
  - apply oracle_unit_draws; reflexivity.
  - reflexivity.
  - reflexivity.
Defined.

(** Their genomes. *)
Lemma initial_population_genomes_witness :
  match spawnInitialCreatures (oracle [] 0.4) 3 3 shore [grazers] 0%nat with
  | Some (cs, _) =>
      Forall (fun c => initial_variation (traits c) /\ within_clamps (traits c)) cs
  | None => False
  end.
Proof.
  remember (spawnInitialCreatures (oracle [] 0.4) 3 3 shore [grazers] 0%nat) as r eqn:E.
  symmetry in E. destruct r as [[cs k']|]; [|by_failure E].
  apply (initial_population_genomes (oracle [] 0.4) 3 3 shore [grazers] 0%nat cs k');
    [apply oracle_unit_draws; reflexivity | exact E].
Defined.

(** Eve in the pass in which Adam takes her as his mate: she keeps her
    index and her genome and ages by one tick. *)
Lemma a_pass_ages_and_moves_by_one_witness :
  match creatureLoop (oracle [] 0.99) 3 3 shore [grazers] 10 0 [adam; eve] 0%nat with
  | Some (cs', _) =>
      exists c',
        cs' !! 1%nat = Some c' /\ same_self eve c' /\
        (alive c' = true -> alive eve = true) /\
        (age c' = age eve \/ age c' = (age eve + 1)%Z) /\
        (in_grid 3 3 (x eve) (y eve) -> near eve c')
  | None => False
  end.
Proof.
  remember (creatureLoop (oracle [] 0.99) 3 3 shore [grazers] 10 0 [adam; eve] 0%nat)
    as r eqn:E.
  symmetry in E. destruct r as [[cs' k']|]; [|by_failure E].
  exact (a_pass_ages_and_moves_by_one (oracle [] 0.99) 3 3 shore [grazers]
           10 0 [adam; eve] 0%nat cs' k' 1%nat eve E eq_refl).
Defined.

(** A living creature that is not older than its max_age. *)
Lemma seasoned_young c :
  alive c = true -> inject_Z (age c) <= num (traits c) max_age -> seasoned c.
Proof. unfold seasoned; intros _ H _. right. exact H. Qed.

(** The elder after two steps: dead at age 2001, no living creature is
    older than its max_age. *)
Lemma the_living_are_not_older_than_max_age_witness :
  match stepSimulations (oracle [] 0.99) 1 1 [[fields]] [grazers] 5 2
          (mkSim [elder] 0%float) 0%nat with
  | Some (st', _) => Forall seasoned (creatures st')
  | None => False
  end.
Proof.
  remember (stepSimulations (oracle [] 0.99) 1 1 [[fields]] [grazers] 5 2
              (mkSim [elder] 0%float) 0%nat) as r eqn:E.
  symmetry in E. destruct r as [[st' k']|]; [|by_failure E].
  apply (the_living_are_not_older_than_max_age (oracle [] 0.99) 1 1 [[fields]] [grazers]
           5 2 (mkSim [elder] 0%float) 0%nat st' k' E).
  apply List.Forall_cons; [|apply List.Forall_nil].
  apply seasoned_young; [reflexivity|]. vm_compute. discriminate.
Defined.

(** The baseline genome. *)
Lemma baseline_within_clamps : within_clamps createBaselineTraits.
Proof. unfold within_clamps. by_computation. Qed.

(** Adam, Eve and their child after one step. *)
Lemma population_stays_within_clamps_witness :
  match stepSimulations (oracle [] 0.99) 3 3 shore [grazers] 10 1
          (mkSim [adam; eve] 0%float) 0%nat with
  | Some (st', _) =>
      length (creatures st') = 3%nat /\
      Forall (fun c => within_clamps (traits c)) (creatures st')
  | None => False
  end.
Proof.
  remember (stepSimulations (oracle [] 0.99) 3 3 shore [grazers] 10 1
              (mkSim [adam; eve] 0%float) 0%nat) as r eqn:E.
  symmetry in E. destruct r as [[st' k']|]; [|by_failure E].
  split.
  { pose proof E as E'. vm_compute in E'. injection E' as <- _. reflexivity. }
  apply (population_stays_within_clamps (oracle [] 0.99) 3 3 shore [grazers]
           10 1 (mkSim [adam; eve] 0%float) 0%nat st' k' E).
  apply List.Forall_cons; [|apply List.Forall_cons; [|apply List.Forall_nil]];
    exact baseline_within_clamps.
Defined.

(** The same step: stomach capacity 60, bite force 1, shell hardness 0. *)
Lemma unlisted_traits_never_evolve_witness :
  match stepSimulations (oracle [] 0.99) 3 3 shore [grazers] 10 1
          (mkSim [adam; eve] 0%float) 0%nat with
  | Some (st', _) =>
      Forall (fun c => baseline_fixed (traits c) /\
                       num (traits c) stomach_capacity == 60 /\
                       num (traits c) bite_force == 1 /\
                       num (traits c) shell_hardness == 0) (creatures st')
  | None => False
  end.
Proof.
  remember (stepSimulations (oracle [] 0.99) 3 3 shore [grazers] 10 1
              (mkSim [adam; eve] 0%float) 0%nat) as r eqn:E.
  symmetry in E. destruct r as [[st' k']|]; [|by_failure E].
  apply (unlisted_traits_never_evolve (oracle [] 0.99) 3 3 shore [grazers]
           10 1 (mkSim [adam; eve] 0%float) 0%nat st' k' E).
  apply List.Forall_cons; [|apply List.Forall_cons; [|apply List.Forall_nil]];
    intros key _ _; reflexivity.
Defined.

(** A step in which Adam walks to the tile (0, 0). *)
Lemma creatures_stay_on_the_grid_witness :
  match stepSimulations (oracle [0; 0.7] 0.99) 3 3 shore [grazers] 10 1
          (mkSim [adam; eve] 0%float) 0%nat with
  | Some (st', _) => Forall (fun c => in_grid 3 3 (x c) (y c)) (creatures st')
  | None => False
  end.
Proof.
  remember (stepSimulations (oracle [0; 0.7] 0.99) 3 3 shore [grazers] 10 1
              (mkSim [adam; eve] 0%float) 0%nat) as r eqn:E.
  symmetry in E. destruct r as [[st' k']|]; [|by_failure E].
  apply (creatures_stay_on_the_grid (oracle [0; 0.7] 0.99) 3 3 shore [grazers]
           10 1 (mkSim [adam; eve] 0%float) 0%nat st' k' E).
  apply List.Forall_cons; [|apply List.Forall_cons; [|apply List.Forall_nil]];
    vm_compute; repeat split; congruence.
Defined.

(** Adam, a herbivore, ticks next to Eve and takes her as his mate: she is
    left with half of her energy, and unharmed. *)
Lemma herbivores_and_kin_do_no_harm_witness :
  match stepCreature (oracle [] 0.99) 3 3 shore [grazers] 0 [adam; eve] 0%nat with
  | Some (cs', _) => cs' !! 1%nat = Some eve \/ cs' !! 1%nat = Some (halved eve)
  | None => False
  end.
Proof.
  remember (stepCreature (oracle [] 0.99) 3 3 shore [grazers] 0 [adam; eve] 0%nat)
    as r eqn:E.
  symmetry in E. destruct r as [[cs' k']|]; [|by_failure E].
  apply (herbivores_and_kin_do_no_harm (oracle [] 0.99) 3 3 shore [grazers]
           0 [adam; eve] 0%nat cs' k' adam 1%nat eve E eq_refl eq_refl).
  - discriminate.
  - left. reflexivity.
Defined.

(** Adam gives birth at his 200th tick. *)
Lemma births_need_a_ripe_parent_witness :
  match stepCreature (oracle [] 0.99) 3 3 shore [grazers] 0 [adam; eve] 0%nat with
  | Some (cs', _) =>
      alive adam = true /\
      ~ num (traits adam) repro_cooldown == 0 /\
      (exists q : Z,
         inject_Z (age adam + 1) == inject_Z q * num (traits adam) repro_cooldown) /\
      (exists p j mate,
         cs' !! 0%nat = Some (halved p) /\ cs' !! j = Some (halved mate) /\
         num (traits adam) stomach_capacity * 0.7 < energy p /\
         is_mate_for p 0 j mate) /\
      (80 <= num (traits adam) repro_cooldown -> (0 <= age adam)%Z -> (79 <= age adam)%Z)
  | None => False
  end.
Proof.
  remember (stepCreature (oracle [] 0.99) 3 3 shore [grazers] 0 [adam; eve] 0%nat)
    as r eqn:E.
  symmetry in E. destruct r as [[cs' k']|]; [|by_failure E].
  apply (births_need_a_ripe_parent (oracle [] 0.99) 3 3 shore [grazers]
           0 [adam; eve] 0%nat cs' k' adam E eq_refl).
  pose proof E as E'. vm_compute in E'. injection E' as <- _. simpl. lia.
Defined.

(** The same tick: one child. *)
Lemma a_litter_has_one_to_five_witness :
  match stepCreature (oracle [] 0.99) 3 3 shore [grazers] 0 [adam; eve] 0%nat with
  | Some (cs', _) =>
      length cs' = length [adam; eve] \/
      (length [adam; eve] + 1 <= length cs' /\ length cs' <= length [adam; eve] + 5)%nat
  | None => False
  end.
Proof.
  remember (stepCreature (oracle [] 0.99) 3 3 shore [grazers] 0 [adam; eve] 0%nat)
    as r eqn:E.
  symmetry in E. destruct r as [[cs' k']|]; [|by_failure E].
  apply (a_litter_has_one_to_five (oracle [] 0.99) 3 3 shore [grazers]
           0 [adam; eve] 0%nat cs' k' E).
  apply List.Forall_cons; [|apply List.Forall_cons; [|apply List.Forall_nil]];
    exact baseline_within_clamps.
Defined.

(** A creature of the only species of a list, with the baseline genome. *)
Lemma baseline_viable species cx cy sx a e :
  id species = 0%Z ->
  viable [species] (creature_of species cx cy sx a e createBaselineTraits).
Proof.
  intros Hid. split; [exact baseline_within_clamps|].
  unfold registered, creature_of, new_Creature. cbn [speciesId set_energy set_age].
  rewrite Hid. eexists. reflexivity.
Qed.

(** The pass over Adam and Eve ends within twelve turns. *)
Lemma the_creature_pass_terminates_witness :
  exists cs' k',
    creatureLoop (oracle [] 0.99) 3 3 shore [grazers] 12 0 [adam; eve] 0%nat
      = Some (cs', k') /\
    (length [adam; eve] <= length cs')%nat /\
    (length cs' <= 6 * length [adam; eve])%nat.
Proof.
  apply (the_creature_pass_terminates (oracle [] 0.99) 3 3 shore [grazers]
           12 [adam; eve] 0%nat).
  - apply oracle_unit_draws; reflexivity.
  - apply wf_species_single. reflexivity.
  - apply List.Forall_cons; [|apply List.Forall_cons; [|apply List.Forall_nil]];
      apply baseline_viable; reflexivity.
  - simpl. lia.
Defined.

(** Two steps from Adam and Eve. *)
Lemma the_simulation_never_hangs_witness :
  exists st' k',
    stepSimulations (oracle [] 0.99) 3 3 shore [grazers] 72 2
      (mkSim [adam; eve] 0%float) 0%nat = Some (st', k') /\
    Forall (viable [grazers]) (creatures st') /\
    (length (creatures st') <= 6 ^ 2 * length (creatures (mkSim [adam; eve] 0%float)))%nat.
Proof.
  apply (the_simulation_never_hangs (oracle [] 0.99) 3 3 shore [grazers]
           2 72 (mkSim [adam; eve] 0%float) 0%nat).
  - apply oracle_unit_draws; reflexivity.
  - apply wf_species_single. reflexivity.
  - apply List.Forall_cons; [|apply List.Forall_cons; [|apply List.Forall_nil]];
      apply baseline_viable; reflexivity.
  - simpl. lia.
Defined.

(** A mutation of the baseline genome that flips a flag and adjusts two
    traits. *)
Lemma a_mutation_is_a_small_step_witness :
  match applyMutation (oracle [0.01; 0.3; 0.2; 0.05; 0.99; 0.37; 0.01] 0.6)
          createBaselineTraits 0%nat with
  | Some (t', k') =>
      (forall key, key <> metabolism_rate ->
         num createBaselineTraits key - 1 < num t' key /\
         num t' key < num createBaselineTraits key + 1) /\
      (forall key, key ∉ MUTABLE_NUMERIC_TRAITS -> key <> metabolism_rate ->
         num t' key = num createBaselineTraits key) /\
      (forall f1 f2, flag t' f1 <> flag createBaselineTraits f1 ->
                     flag t' f2 <> flag createBaselineTraits f2 -> f1 = f2) /\
      num t' metabolism_rate == 0.02 + complexity t' * 0.003 /\
      (0 + 4 <= k' /\ k' <= 0 + 7)%nat
  | None => False
  end.
Proof.
  remember (applyMutation (oracle [0.01; 0.3; 0.2; 0.05; 0.99; 0.37; 0.01] 0.6)
              createBaselineTraits 0%nat) as r eqn:E.
  symmetry in E. destruct r as [[t' k']|]; [|by_failure E].
  apply (a_mutation_is_a_small_step
           (oracle [0.01; 0.3; 0.2; 0.05; 0.99; 0.37; 0.01] 0.6)
           createBaselineTraits 0%nat t' k').
  - apply oracle_unit_draws; reflexivity.
  - exact baseline_within_clamps.
  - exact E.
Defined.

(** A reset on a grid of 4 x 3 tiles. *)
Lemma a_reset_is_ready_to_run_witness :
  match initWorld (oracle lake_draws 0.4) 4 3 10 0%nat with
  | Some ((w, sl, st), k1) =>
      year st = 0%float /\ length sl = 10%nat /\ wf_species sl /\
      length (creatures st) = 150%nat /\
      Forall (fun c => alive c = true /\ age c = 0%Z /\ in_grid 4 3 (x c) (y c) /\
                       viable sl c /\ baseline_fixed (traits c) /\ seasoned c)
             (creatures st) /\
      forall n, exists st' k',
        stepSimulations (oracle lake_draws 0.4) 4 3 w sl (6 ^ n * 150) n st k1
          = Some (st', k')
  | None => False
  end.
Proof.
  remember (initWorld (oracle lake_draws 0.4) 4 3 10 0%nat) as r eqn:E.
  symmetry in E.
  destruct r as [[[[w sl] st] k1]|]; [|by_failure E].
  apply (a_reset_is_ready_to_run (oracle lake_draws 0.4) 4 3 10 0%nat w sl st k1).
  - apply oracle_unit_draws; reflexivity.
  - reflexivity.
  - reflexivity.
  - exact E.
Defined.

(** Adam at the left edge of the shore world draws the direction left:
    the destination (-1, 1) is outside the grid and he stays on his
    tile. *)
Lemma the_four_direction_walk_keeps_containment_witness :
  match movement4 (oracle [0; 0.3] 0.99) 3 3 shore adam 0%nat with
  | Some (c', _) =>
      contained 3 3 shore c' /\ in_grid 3 3 (x c') (y c') /\
      ((x c' = x adam /\ (Z.abs (y c' - y adam) <= 1)%Z) \/
       (y c' = y adam /\ (Z.abs (x c' - x adam) <= 1)%Z))
  | None => False
  end.
Proof.
  remember (movement4 (oracle [0; 0.3] 0.99) 3 3 shore adam 0%nat) as r eqn:E.
  symmetry in E. destruct r as [[c' k']|]; [|by_failure E].
  apply (the_four_direction_walk_keeps_containment (oracle [0; 0.3] 0.99) 3 3
           shore adam 0%nat c' k' E).
  - vm_compute. repeat split; congruence.
  - vm_compute. discriminate.
Defined.

(** The picture of the shore world. *)
Lemma the_picture_shows_the_grid_witness :
  match drawWorld 3 3 shore with
  | Some ds =>
      length ds = 9%nat /\
      (forall tx ty, in_grid 3 3 tx ty ->
         exists row, shore !! Z.to_nat ty = Some row /\ tile_of row tx ty ∈ ds) /\
      (forall d, d ∈ ds ->
         exists tx ty row,
           in_grid 3 3 tx ty /\ shore !! Z.to_nat ty = Some row /\ d = tile_of row tx ty) /\
      (forall world' tx ty row row',
         drawWorld 3 3 world' = Some ds -> in_grid 3 3 tx ty ->
         shore !! Z.to_nat ty = Some row -> world' !! Z.to_nat ty = Some row' ->
         row !! Z.to_nat tx = row' !! Z.to_nat tx) /\
      (forall b b', biomeColor b = biomeColor b' -> b = b')
  | None => False
  end.
Proof.
  remember (drawWorld 3 3 shore) as r eqn:E.
  symmetry in E. destruct r as [ds|]; [|by_failure E].
  split.
  { pose proof E as E'. vm_compute in E'. injection E' as <-. reflexivity. }
  exact (the_picture_shows_the_grid 3 3 shore ds E).
Defined.

(** A dead Adam is at his index, as he was, after the pass in which Eve is
    ticked. *)
Lemma the_dead_are_left_alone_witness :
  match creatureLoop (oracle [] 0.99) 3 3 shore [grazers] 10 0
          [set_alive false adam; eve] 0%nat with
  | Some (cs', _) => cs' !! 0%nat = Some (set_alive false adam)
  | None => False
  end.
Proof.
  remember (creatureLoop (oracle [] 0.99) 3 3 shore [grazers] 10 0
              [set_alive false adam; eve] 0%nat) as r eqn:E.
  symmetry in E. destruct r as [[cs' k']|]; [|by_failure E].
  exact (proj1 (the_dead_are_left_alone (oracle [] 0.99) 3 3 shore [grazers])
           10%nat 0%nat [set_alive false adam; eve] 0%nat cs' k' 0%nat
           (set_alive false adam) E eq_refl eq_refl).
Defined.

(** Adam's target among Adam, Lilith and Eve is Lilith, on the tile below
    his, at index 1. *)
Lemma attacks_reach_the_four_neighbours_witness :
  exists other,
    [adam; lilith; eve] !! 1%nat = Some other /\ alive other = true /\ 1%nat <> 0%nat /\
    (Z.abs (x other - x adam) + Z.abs (y other - y adam) <= 1)%Z /\
    forall m o, (m < 1)%nat -> [adam; lilith; eve] !! m = Some o -> alive o = true ->
      m <> 0%nat -> (1 < Z.abs (x o - x adam) + Z.abs (y o - y adam))%Z.
Proof.
  apply (proj1 (attacks_reach_the_four_neighbours [adam; lilith; eve] adam 0%nat) 1%nat).
  vm_compute. reflexivity.
Defined.

(** A click on the centre of Eve's tile, next to a dead Adam, selects
    Eve. *)
Lemma a_click_selects_the_nearest_creature_witness :
  exists j o,
    onCanvasClick 15 15 [set_alive false adam; eve] = Some j /\ (j <= 1)%nat /\
    [set_alive false adam; eve] !! j = Some o /\ alive o = true /\
    x o = x eve /\ y o = y eve.
Proof.
  apply (proj2 (proj2 (a_click_selects_the_nearest_creature 15 15
                         [set_alive false adam; eve])) 1%nat eve);
    reflexivity.
Defined.

(** The child genome of two baseline genomes is within the clamp table. *)
Lemma a_child_lies_between_its_parents_witness :
  match mixTraits (oracle [] 0.5) createBaselineTraits createBaselineTraits 0%nat with
  | Some (t, _) => within_clamps t
  | None => False
  end.
Proof.
  destruct (a_child_lies_between_its_parents (oracle [] 0.5)
              createBaselineTraits createBaselineTraits 0%nat)
    as (t & E & _ & _ & Hc).
  rewrite E. apply Hc; exact baseline_within_clamps.
Defined.

(** Adam has size 1 and is drawn with a diameter of 9 pixels. *)
Lemma the_canvas_shows_the_living_witness :
  diameter adam == 7 + 2 * num (traits adam) size /\
  7.6 <= diameter adam /\ diameter adam <= 13.
Proof.
  apply (proj2 (proj2 (proj2 (the_canvas_shows_the_living None [grazers]
                                (mkSim [adam; eve] 0%float))))).
  exact baseline_within_clamps.
Defined.
